(** * Hierarchical species-count estimation (species.py), shallow embedding

    Floating-point values of the Python code are modelled as real numbers,
    Python [int]s as [Z] (candidate values of N as [nat]), numpy arrays as
    lists.  Exceptions raised by Python or numpy are the [Err] case of
    [result].  The random number generator is a counter of the draws taken
    so far: the [k]-th draw is [gamma_draw k shape], an arbitrary function,
    so every statement holds for every outcome of the sampler. *)

From Stdlib Require Import Reals Lra Lia List ZArith Arith Bool.
From Stdlib Require Import Permutation Sorted.
From Stdlib Require String.
Import ListNotations.
Open Scope R_scope.

(** ** Python / numpy runtime *)

Inductive pyexc := IndexError | ValueError | AttributeError | OverflowError.

Inductive result (A : Type) : Type :=
| Ok (a : A)
| Err (e : pyexc).
Arguments Ok {A} a.
Arguments Err {A} e.

Definition of_option {A} (e : pyexc) (o : option A) : result A :=
  match o with Some a => Ok a | None => Err e end.

Definition rbind {A B} (r : result A) (f : A -> result B) : result B :=
  match r with Ok a => f a | Err e => Err e end.

(** Computations that may draw random numbers: the state is the number
    of draws taken so far. *)
Definition M (A : Type) := nat -> result (A * nat).
Definition ret {A} (a : A) : M A := fun s => Ok (a, s).
Definition bind {A B} (m : M A) (f : A -> M B) : M B :=
  fun s => match m s with Ok (a, s') => f a s' | Err e => Err e end.
Definition lift {A} (r : result A) : M A :=
  fun s => match r with Ok a => Ok (a, s) | Err e => Err e end.

Notation "x <- m ;; k" := (bind m (fun x => k))
  (at level 61, m at next level, right associativity).
Notation "x <-- r ;; k" := (rbind r (fun x => k))
  (at level 61, r at next level, right associativity).

Fixpoint mapM {A B} (f : A -> M B) (xs : list A) : M (list B) :=
  match xs with
  | [] => ret []
  | x :: xs' => y <- f x;; ys <- mapM f xs';; ret (y :: ys)
  end.

Fixpoint mapR {A B} (f : A -> result B) (xs : list A) : result (list B) :=
  match xs with
  | [] => Ok []
  | x :: xs' => y <-- f x;; ys <-- mapR f xs';; Ok (y :: ys)
  end.

(** [a[k]] with Python's negative indices. *)
Definition py_index {A} (xs : list A) (k : Z) : result A :=
  let len := Z.of_nat (length xs) in
  if (0 <=? k)%Z && (k <? len)%Z then of_option IndexError (nth_error xs (Z.to_nat k))
  else if (- len <=? k)%Z && (k <? 0)%Z then
    of_option IndexError (nth_error xs (Z.to_nat (len + k)))
  else Err IndexError.

(** [a[k:]] with Python's slice clamping. *)
Definition py_drop {A} (k : Z) (xs : list A) : list A :=
  if (0 <=? k)%Z then skipn (Z.to_nat k) xs
  else skipn (length xs - Z.to_nat (- k)) xs.

(** [a[-1]] of a Python list. *)
Definition py_last {A} (xs : list A) : result A := py_index xs (-1).

Fixpoint zipWith {A B C} (f : A -> B -> C) (xs : list A) (ys : list B) : list C :=
  match xs, ys with
  | x :: xs', y :: ys' => f x y :: zipWith f xs' ys'
  | _, _ => []
  end.

(** numpy broadcasting of two one-dimensional arrays. *)
Definition bc_ok (la lb : nat) : bool :=
  Nat.eqb la lb || Nat.eqb la 1 || Nat.eqb lb 1.

Definition np_map2 {A} (d : A) (f : A -> A -> A) (a b : list A) : result (list A) :=
  if Nat.eqb (length a) (length b) then Ok (zipWith f a b)
  else if Nat.eqb (length b) 1 then Ok (map (fun x => f x (hd d b)) a)
  else if Nat.eqb (length a) 1 then Ok (map (fun y => f (hd d a) y) b)
  else Err ValueError.

(** In-place [a op= b]: the result keeps the shape of [a]. *)
Definition np_imap2 {A} (d : A) (f : A -> A -> A) (a b : list A) : result (list A) :=
  if Nat.eqb (length a) (length b) then Ok (zipWith f a b)
  else if Nat.eqb (length b) 1 then Ok (map (fun x => f x (hd d b)) a)
  else Err ValueError.

(** [a[:m] += b] *)
Definition np_iadd_prefix {A} (d : A) (add : A -> A -> A) (a : list A) (m : nat)
    (b : list A) : result (list A) :=
  s <-- np_imap2 d add (firstn m a) b;; Ok (s ++ skipn m a).

(** [a[k] += x] *)
Definition np_iadd_at {A} (add : A -> A -> A) (a : list A) (k : Z) (x : A) : result (list A) :=
  v <-- py_index a k;;
  let i := if (k <? 0)%Z then Z.to_nat (Z.of_nat (length a) + k) else Z.to_nat k in
  Ok (firstn i a ++ add v x :: skipn (S i) a).

(** numpy's [int] arrays hold 64-bit integers, and their arithmetic wraps
    around modulo 2^64. *)
Definition wrap64 (z : Z) : Z := ((z + 2 ^ 63) mod 2 ^ 64 - 2 ^ 63)%Z.
Definition in_int64 (z : Z) : bool := ((- 2 ^ 63 <=? z) && (z <? 2 ^ 63))%Z.
Definition i64_add (a b : Z) : Z := wrap64 (a + b).

(** [a[:m] += b] on an [int] array [a], [b] a list of Python [int]s.
    A count outside the int64 range has no int64 value: depending on the
    numpy version it raises or goes through a float; the model raises
    OverflowError. *)
Definition i64_iadd_prefix (a : list Z) (m : nat) (b : list Z) : result (list Z) :=
  if forallb in_int64 b then np_iadd_prefix 0%Z i64_add a m b else Err OverflowError.

(** [a[k] += x] on an [int] array, [x] a Python [int]. *)
Definition i64_iadd_at (a : list Z) (k : Z) (x : Z) : result (list Z) :=
  if in_int64 x then np_iadd_at i64_add a k x else Err OverflowError.

(** [a.sum()] of an [int] array, accumulated in 64 bits. *)
Definition i64_sum (xs : list Z) : Z := wrap64 (fold_right Z.add 0%Z xs).

Definition np_sum (xs : list R) : R := fold_right Rplus 0 xs.

Definition np_max (xs : list R) : result R :=
  match xs with [] => Err ValueError | x :: xs' => Ok (fold_left Rmax xs' x) end.

Fixpoint cumsum_from (acc : R) (xs : list R) : list R :=
  match xs with [] => [] | x :: xs' => (acc + x) :: cumsum_from (acc + x) xs' end.
Definition cumsum (xs : list R) : list R := cumsum_from 0 xs.

Definition np_zeros (n : nat) : list R := repeat 0 n.

(** [probs /= probs.sum()]: numpy divides without raising, even by zero. *)
Definition np_normalize (xs : list R) : list R :=
  let t := np_sum xs in map (fun x => x / t) xs.

(** ** Library functions of thinkbayes used by species.py *)

(** Modelled from the spec: [thinkbayes.BinomialCoef(n, m)], the binomial
    coefficient C(N, m) (zero when m > N). *)
Fixpoint binom (n k : nat) : nat :=
  match n, k with
  | _, O => 1%nat
  | O, S _ => 0%nat
  | S n', S k' => (binom n' k' + binom n' k)%nat
  end.
Definition BinomialCoef (n k : nat) : R := INR (binom n k).

(** A Beta distribution, by its two shape parameters. *)
Record Beta := mkBeta { b_alpha : R; b_beta : R }.

(** ** thinkbayes Pmf / Suite, Dirichlet and species.py's OversampledDirichlet *)

(** A [Pmf] as its (value, probability) pairs. *)
Definition table := list (R * R).

(** Modelled from the spec: [Pmf.Normalize()] divides every weight by the
    total and fails when the total is zero; it returns the total, the
    retained mass recorded by [TrimMarginal]. *)
Definition Pmf_Normalize {K} (t : list (K * R)) : result (list (K * R) * R) :=
  let total := np_sum (map snd t) in
  if Req_dec_T total 0 then Err ValueError
  else Ok (map (fun kp => (fst kp, snd kp / total)) t, total).

Definition Rltb (a b : R) : bool := if Rlt_dec a b then true else false.

(** A [thinkbayes.Dirichlet] object; the last three fields record the class
    (OversampledDirichlet or not) and the attributes set by [Peek]. *)
Record Dirichlet := mkDirichlet {
  d_n : nat;
  d_params : list R;
  d_oversampled : bool;
  d_conditionals : option (list table);
  d_weight : option R
}.

(** Modelled from the spec: [thinkbayes.Dirichlet(n)], all concentration
    parameters 1. *)
Definition Dirichlet_init (n : nat) : Dirichlet := mkDirichlet n (repeat 1 n) false None None.
Definition OversampledDirichlet_init (n : nat) : Dirichlet :=
  mkDirichlet n (repeat 1 n) true None None.

(** Modelled from the spec: [Dirichlet.Update(data)],
    [params[i] += data[i]] for [i] in range of [data]. *)
Fixpoint add_counts (ps : list R) (data : list Z) : list R :=
  match ps, data with
  | p :: ps', x :: xs => (p + IZR x) :: add_counts ps' xs
  | _, _ => ps
  end.
Definition Dirichlet_Update (d : Dirichlet) (data : list Z) : Dirichlet :=
  mkDirichlet (d_n d) (add_counts (d_params d) data) (d_oversampled d)
    (d_conditionals d) (d_weight d).

(** Modelled from the spec: the multinomial probability of the counts
    [data] under the proportions [p] (categories beyond [p] have
    probability 0). *)
Fixpoint mult_terms (p : list R) (xs : list nat) : R :=
  match xs with [] => 1 | x :: xs' => hd 0 p ^ x * mult_terms (tl p) xs' end.
Definition multinomial_prob (p : list R) (data : list Z) : R :=
  let xs := map Z.to_nat data in
  INR (fact (list_sum xs)) / fold_right Rmult 1 (map (fun x => INR (fact x)) xs)
  * mult_terms p xs.

Definition MakeMarginals (ps : list R) : list Beta :=
  let total := np_sum ps in map (fun x => mkBeta x (total - x)) ps.

(** [for x in params[:-1]: total -= x; betas.append(Beta(x, total))] *)
Fixpoint conditionals_from (total : R) (ps : list R) : list Beta :=
  match ps with
  | x :: (_ :: _) as rest => mkBeta x (total - x) :: conditionals_from (total - x) rest
  | _ => []
  end.
Definition MakeConditionals (ps : list R) : list Beta := conditionals_from (np_sum ps) ps.

Definition TrimMarginal (pmf : table) (low high : R) : result (table * R) :=
  Pmf_Normalize (filter (fun vp => negb (Rltb (fst vp) low || Rltb high (fst vp))) pmf).

(** [a[k] = x] *)
Definition np_set_at {A} (a : list A) (k : Z) (x : A) : result (list A) :=
  _ <-- py_index a k;;
  let i := if (k <? 0)%Z then Z.to_nat (Z.of_nat (length a) + k) else Z.to_nat k in
  Ok (firstn i a ++ x :: skipn (S i) a).

(** Modelled from the spec: [thinkbayes.Suite.Update(data)] multiplies each
    hypothesis' weight by its likelihood, then normalizes. *)
Definition Suite_Update {K} (lik : K -> list Z -> M R) (hypos : list (K * R)) (data : list Z)
    : M (list (K * R)) :=
  hs <- mapM (fun hp => l <- lik (fst hp) data;; ret (fst hp, snd hp * l)) hypos;;
  r <- lift (Pmf_Normalize hs);;
  ret (fst r).

(** The suite classes deriving from [Species]. *)
Inductive suite_class := CSpecies | CSpecies4 | CSpecies6.

(** A [Species] object; [sp_iterations] is [None] when the attribute was
    never set. *)
Record Species := mkSpecies {
  sp_class : suite_class;
  sp_hypos : list (Dirichlet * R);
  sp_iterations : option nat
}.

(** [Species6.__init__] does not call [Species.__init__]: no [iterations]. *)
Definition Species6_init (ns0 : list nat) : Species :=
  mkSpecies CSpecies6 (map (fun n => (OversampledDirichlet_init n, 1)) ns0) None.

(** Modelled from thinkbayes (not in src/): [Pmf.Set(x, p)] gives [x] the weight [p],
    replacing the weight [x] had, or adds [x] at the end. *)
Fixpoint Pmf_Set (t : list (nat * R)) (x : nat) (p : R) : list (nat * R) :=
  match t with
  | [] => [(x, p)]
  | yq :: t' => if Nat.eqb x (fst yq) then (x, p) :: t' else yq :: Pmf_Set t' x p
  end.

(** [for (x, p) in pairs: pmf.Set(x, p)] on an empty [Pmf] (and
    [dict(pairs)]): a later pair overrides an earlier one with the same key. *)
Definition pmf_of_pairs (l : list (nat * R)) : list (nat * R) :=
  fold_left (fun t xp => Pmf_Set t (fst xp) (snd xp)) l [].


(** [log_likes -= numpy.max(log_likes); likes = numpy.exp(log_likes)]:
    the "scale into a reasonable range" step shared by the vectorized
    likelihoods. *)
Definition scale_log_likes (log_likes : list R) : result (list R) :=
  mx <-- np_max log_likes;; Ok (map (fun l => exp (l - mx)) log_likes).

Section Sampling.

(** The [k]-th call of [numpy.random.gamma(shape)] when it succeeds. *)
Variable gamma_draw : nat -> list R -> list R.

(** [numpy.random.gamma(shape)] raises ValueError ("shape <= 0") when a
    shape parameter is not positive. *)
Definition draw_gamma (shape : list R) : M (list R) :=
  fun s => if forallb (Rltb 0) shape then Ok (gamma_draw s shape, S s) else Err ValueError.

(** [like = zeros; for i in range(k): like += f()] *)
Fixpoint mc_sum (k : nat) (f : M (list R)) (acc : list R) : M (list R) :=
  match k with
  | O => ret acc
  | S k' => x <- f;; acc' <- lift (np_imap2 0 Rplus acc x);; mc_sum k' f acc'
  end.

(** ** Species2: both levels of the hierarchy in flat arrays *)

Record Species2 := mkSpecies2 {
  ns : list nat;
  probs : list R;
  params : list Z;
  iterations : nat
}.

Definition with_probs (st : Species2) (p : list R) : Species2 :=
  mkSpecies2 (ns st) p (params st) (iterations st).
Definition with_params (st : Species2) (p : list Z) : Species2 :=
  mkSpecies2 (ns st) (probs st) p (iterations st).

(** [Species2.__init__] (also the constructor of Species3 and Species5). *)
Definition Species2_init (ns0 : list nat) (iters : nat) : result Species2 :=
  last <-- py_last ns0;;
  Ok (mkSpecies2 ns0 (repeat 1 (length ns0)) (repeat 1%Z last) iters).

Definition Species2_SampleLikelihood (st : Species2) (data : list Z) : M (list R) :=
  gammas <- draw_gamma (map IZR (params st));;
  let m := length data in
  let row := firstn m gammas in
  let col := cumsum gammas in
  log_likes <- lift (mapR (fun n =>
      c <-- py_index col (Z.of_nat n - 1);;
      let ps := map (fun r => r / c) row in
      terms <-- np_map2 0 Rmult (map ln ps) (map IZR data);;
      Ok (np_sum terms)) (ns st));;
  likes <- lift (scale_log_likes log_likes);;
  let coefs := map (fun n => BinomialCoef n m) (ns st) in
  lift (np_imap2 0 Rmult likes coefs).

Definition Species2_Update (st : Species2) (data : list Z) : M Species2 :=
  like <- mc_sum 1000 (Species2_SampleLikelihood st data) (np_zeros (length (ns st)));;
  probs1 <- lift (np_imap2 0 Rmult (probs st) like);;
  let probs2 := np_normalize probs1 in
  params' <- lift (i64_iadd_prefix (params st) (length data) data);;
  ret (mkSpecies2 (ns st) probs2 params' (iterations st)).

(** [alpha0 = params[:n].sum(); alpha = params[index]] are int64 values,
    and so is [alpha0 - alpha]. *)
Definition Species2_MarginalBeta (st : Species2) (n : nat) (index : Z) : result Beta :=
  let alpha0 := i64_sum (firstn n (params st)) in
  alpha <-- py_index (params st) index;;
  Ok (mkBeta (IZR alpha) (IZR (wrap64 (alpha0 - alpha)))).

(** Modelled from thinkbayes (not in src/): [MakePmfFromDict(d)] sets the
    pairs of [d] in a new [Pmf], then normalizes it. *)
Definition MakePmfFromDict (d : list (nat * R)) : result (list (nat * R)) :=
  r <-- Pmf_Normalize (pmf_of_pairs d);; Ok (fst r).

(** [Species2.DistOfN]: [MakePmfFromDict(dict(zip(ns, probs)))]. *)
Definition Species2_DistOfN (st : Species2) : result (list (nat * R)) :=
  MakePmfFromDict (pmf_of_pairs (combine (ns st) (probs st))).

(** ** Species3: the likelihood of every N in one pass *)

Definition Species3_SampleLikelihood (st : Species2) (data : list Z) : M (list R) :=
  gammas <- draw_gamma (map IZR (params st));;
  let m := length data in
  let row := firstn m gammas in
  n0 <- lift (py_index (ns st) 0);;
  let col := py_drop (Z.of_nat n0 - 1) (cumsum gammas) in
  let array := map (fun c => map (fun r => r / c) row) col in
  terms <- lift (if bc_ok (length row) m
                 then mapR (fun arow => np_map2 0 Rmult (map ln arow) (map IZR data)) array
                 else Err ValueError);;
  let log_likes := map np_sum terms in
  likes <- lift (scale_log_likes log_likes);;
  let coefs := map (fun n => BinomialCoef n m) (ns st) in
  lift (np_imap2 0 Rmult likes coefs).

Definition Species3_Update (st : Species2) (data : list Z) : M Species2 :=
  like <- mc_sum (iterations st) (Species3_SampleLikelihood st data)
            (np_zeros (length (ns st)));;
  probs1 <- lift (np_imap2 0 Rmult (probs st) like);;
  let probs2 := np_normalize probs1 in
  params' <- lift (i64_iadd_prefix (params st) (length data) data);;
  ret (mkSpecies2 (ns st) probs2 params' (iterations st)).

(** ** Species5: one newly revealed species at a time *)

Definition Species5_SampleLikelihood (st : Species2) (m : nat) (count : Z) : M (list R) :=
  gammas <- draw_gamma (map IZR (params st));;
  n0 <- lift (py_index (ns st) 0);;
  let sums := py_drop (Z.of_nat n0 - 1) (cumsum gammas) in
  g <- lift (py_index gammas (Z.of_nat m - 1));;
  let ps := map (fun x => g / x) sums in
  let log_likes := map (fun p => ln p * IZR count) ps in
  lift (scale_log_likes log_likes).

(** [unseen_species = [n-m+1 for n in self.ns]] *)
Definition unseen_species (ns0 : list nat) (m : nat) : list R :=
  map (fun n => IZR (Z.of_nat n - Z.of_nat m + 1)) ns0.

Definition Species5_UpdateOne (st : Species2) (m : nat) (count : Z) : M Species2 :=
  likes <- mc_sum (iterations st) (Species5_SampleLikelihood st m count)
             (np_zeros (length (ns st)));;
  likes' <- lift (np_imap2 0 Rmult likes (unseen_species (ns st) m));;
  probs1 <- lift (np_imap2 0 Rmult (probs st) likes');;
  ret (with_probs st (np_normalize probs1)).

(** [for i in range(m): self.UpdateOne(i+1, data[i]); self.params[i] += data[i]] *)
Fixpoint Species5_loop (i : nat) (data : list Z) (st : Species2) : M Species2 :=
  match data with
  | [] => ret st
  | c :: rest =>
      st1 <- Species5_UpdateOne st (S i) c;;
      params' <- lift (i64_iadd_at (params st1) (Z.of_nat i) c);;
      Species5_loop (S i) rest (with_params st1 params')
  end.

Definition Species5_Update (st : Species2) (data : list Z) : M Species2 :=
  Species5_loop 0 data st.

(** ** Dirichlet sampling and likelihoods *)

(** The [k]-th call of [cdf.Random()]. *)
Variable cdf_draw : nat -> table -> R.
(** [thinkbayes.Beta(a, b).MakePmf()] and
    [thinkbayes.Beta(a, b).MakeCdf().Percentile(p)]. *)
Variable beta_pmf : R -> R -> table.
Variable beta_percentile : R -> R -> R -> R.

Definition cdf_random (c : table) : M R := fun s => Ok (cdf_draw s c, S s).

(** Modelled from the spec: [Dirichlet.Random()], a gamma draw normalized
    by its sum. *)
Definition Dirichlet_Random_plain (d : Dirichlet) : M (list R) :=
  gs <- draw_gamma (d_params d);; ret (map (fun x => x / np_sum gs) gs).

Fixpoint od_sticks (conds : list table) (fraction : R) : M (list R * R) :=
  match conds with
  | [] => ret ([], fraction)
  | c :: cs =>
      p <- cdf_random c;;
      r <- od_sticks cs (fraction * (1 - p));;
      ret (p * fraction :: fst r, snd r)
  end.

(** [OversampledDirichlet.Random] *)
Definition OversampledDirichlet_Random (d : Dirichlet) : M (list R) :=
  conds <- lift (of_option AttributeError (d_conditionals d));;
  r <- od_sticks conds 1;;
  if Nat.leb (length (fst r)) (d_n d)
  then lift (np_set_at (fst r ++ repeat 0 (d_n d - length (fst r))) (-1) (snd r))
  else lift (Err IndexError).

(** [self.Random()], dispatched on the class of the object. *)
Definition Dirichlet_Random (d : Dirichlet) : M (list R) :=
  if d_oversampled d then OversampledDirichlet_Random d else Dirichlet_Random_plain d.

(** Modelled from the spec: [Dirichlet.Likelihood(data)], the multinomial
    probability of [data] at one draw of [self.Random()]. *)
Definition Dirichlet_Likelihood (d : Dirichlet) (data : list Z) : M R :=
  p <- Dirichlet_Random d;; ret (multinomial_prob p data).

Definition OversampledDirichlet_Likelihood (d : Dirichlet) (data : list Z) : M R :=
  like <- Dirichlet_Likelihood d data;;
  w <- lift (of_option AttributeError (d_weight d));;
  ret (like * w).

(** [hypo.Likelihood(data)], dispatched on the class of the object. *)
Definition Hypo_Likelihood (d : Dirichlet) (data : list Z) : M R :=
  if d_oversampled d then OversampledDirichlet_Likelihood d data
  else Dirichlet_Likelihood d data.

Definition TrimMarginals (d : Dirichlet) (data : list Z) : result Dirichlet :=
  pmfs <-- of_option AttributeError (d_conditionals d);;
  let m := length data in
  ps <-- np_iadd_prefix 0 Rplus (d_params d) m (map IZR data);;
  let posteriors := MakeMarginals ps in
  let lows := map (fun b => beta_percentile (b_alpha b) (b_beta b) 2) posteriors in
  let highs := map (fun b => beta_percentile (b_alpha b) (b_beta b) 98) posteriors in
  trimmed <-- mapR (fun t => TrimMarginal (fst (fst t)) (snd (fst t)) (snd t))
                (combine (combine pmfs lows) highs);;
  let p_hit := fold_right Rmult 1 (map snd trimmed) in
  Ok (mkDirichlet (d_n d) (d_params d) (d_oversampled d)
        (Some (map fst trimmed ++ skipn (length trimmed) pmfs)) (Some p_hit)).

Definition Peek (d : Dirichlet) (data : list Z) : result Dirichlet :=
  let priors := MakeConditionals (d_params d) in
  let pmfs := map (fun b => beta_pmf (b_alpha b) (b_beta b)) priors in
  TrimMarginals (mkDirichlet (d_n d) (d_params d) (d_oversampled d) (Some pmfs) (d_weight d))
    data.

(** ** Species, Species4, Species6: one Dirichlet object per N *)

(** [like = 0; for i in range(k): like += f()] *)
Fixpoint mc_sumR (k : nat) (f : M R) (acc : R) : M R :=
  match k with O => ret acc | S k' => x <- f;; mc_sumR k' f (acc + x) end.

Definition Species_Likelihood (iters : option nat) (hypo : Dirichlet) (data : list Z) : M R :=
  k <- lift (of_option AttributeError iters);;
  like <- mc_sumR k (Hypo_Likelihood hypo data) 0;;
  ret (like * BinomialCoef (d_n hypo) (length data)).

(** Modelled from the spec, for comparison with [Species_Likelihood]: the
    average of the [iterations] draws, times C(N, m). *)
Definition Species_Likelihood_avg (iters : option nat) (hypo : Dirichlet) (data : list Z)
    : M R :=
  k <- lift (of_option AttributeError iters);;
  like <- mc_sumR k (Hypo_Likelihood hypo data) 0;;
  ret (like / INR k * BinomialCoef (d_n hypo) (length data)).

Definition Species4_Likelihood (iters : option nat) (hypo : Dirichlet) (data : list Z) : M R :=
  k <- lift (of_option AttributeError iters);;
  like <- mc_sumR k (Hypo_Likelihood hypo data) 0;;
  ret (like * IZR (Z.of_nat (d_n hypo) - Z.of_nat (length data) + 1)).

(** [self.Likelihood], dispatched on the class of the suite. *)
Definition Suite_Likelihood (st : Species) : Dirichlet -> list Z -> M R :=
  match sp_class st with
  | CSpecies4 => Species4_Likelihood (sp_iterations st)
  | _ => Species_Likelihood (sp_iterations st)
  end.

Definition Species_Update (st : Species) (data : list Z) : M Species :=
  hs <- Suite_Update (Suite_Likelihood st) (sp_hypos st) data;;
  ret (mkSpecies (sp_class st) (map (fun hp => (Dirichlet_Update (fst hp) data, snd hp)) hs)
         (sp_iterations st)).

(** [for i in range(m): one = zeros(i+1); one[i] = data[i]; Species.Update(self, one)] *)
Fixpoint Species4_loop (i : nat) (data : list Z) (st : Species) : M Species :=
  match data with
  | [] => ret st
  | c :: rest =>
      st' <- Species_Update st (repeat 0%Z i ++ [c]);;
      Species4_loop (S i) rest st'
  end.

Definition Species4_Update (st : Species) (data : list Z) : M Species :=
  Species4_loop 0 data st.

Definition Species6_Update (st : Species) (data : list Z) : M Species :=
  hypos <- lift (mapR (fun hp => d <-- Peek (fst hp) data;; Ok (d, snd hp)) (sp_hypos st));;
  hs <- Suite_Update (Suite_Likelihood st) hypos data;;
  ret (mkSpecies (sp_class st) (map (fun hp => (Dirichlet_Update (fst hp) data, snd hp)) hs)
         (sp_iterations st)).

End Sampling.

(** ** Invariants and drivers used in the proofs *)

Definition S2_inv (ns0 : list nat) (st : Species2) : Prop :=
  ns st = ns0 /\ ns0 <> [] /\ length (probs st) = length ns0 /\
  Forall (fun p => 0 < p) (probs st).






Definition weights_sum (d : list (nat * R)) : R := np_sum (map snd d).

(** ** Module-level code of species.py: data loading, curves, drivers *)

(** Exceptions of the module-level code that the numeric core never
    raises. *)
Inductive exc := PyError (e : pyexc) | ZeroDivisionError | StopIteration.

Inductive outcome (A : Type) : Type :=
| Returns (a : A)
| Raises (e : exc).
Arguments Returns {A} a.
Arguments Raises {A} e.

Definition of_result {A} (r : result A) : outcome A :=
  match r with Ok a => Returns a | Err e => Raises (PyError e) end.

(** A [Subject]: its code and its [(count, species)] pairs. *)
Record Subject := mkSubject {
  code : String.string;
  species : list (Z * String.string)
}.

Definition Subject_init (c : String.string) : Subject := mkSubject c [].

(** [self.species.append((count, species))] *)
Definition Subject_Add (sb : Subject) (sp : String.string) (count : Z) : Subject :=
  mkSubject (code sb) (species sb ++ [(count, sp)]).

(** Python's order on [(count, species)] tuples: by count, then by name,
    byte by byte as Python 2 compares [str]. *)
Definition pair_le (a b : Z * String.string) : bool :=
  match Z.compare (fst a) (fst b) with
  | Lt => true
  | Gt => false
  | Eq => match String.compare (snd a) (snd b) with Gt => false | _ => true end
  end.

(** [list.sort()]: the order being total and antisymmetric, the sorted
    permutation is unique; insertion sort computes it. *)
Fixpoint insert_pair (x : Z * String.string) (l : list (Z * String.string)) :=
  match l with
  | [] => [x]
  | y :: l' => if pair_le x y then x :: l else y :: insert_pair x l'
  end.
Fixpoint sort_pairs (l : list (Z * String.string)) : list (Z * String.string) :=
  match l with [] => [] | x :: l' => insert_pair x (sort_pairs l') end.

Definition Subject_Sort (sb : Subject) : Subject := mkSubject (code sb) (sort_pairs (species sb)).

Definition GetCounts (sb : Subject) : list Z := map fst (species sb).

Section Reading.

(** [int(s)] on the text of a count field. *)
Variable py_int : String.string -> result Z.

(** The loop of [ReadData] over the rows after the header. [subjects] holds
    the finished subjects; [subject] is the one being filled, which is
    also the last element of the Python list once [started] (the initial
    [Subject('')] is never appended), so [subject.Sort()] sorts that
    element in place. *)
Fixpoint ReadData_rows (rows : list (list String.string)) (subject : Subject) (started : bool)
    (subjects : list Subject) : result (list Subject) :=
  match rows with
  | [] => Ok (subjects ++ if started then [subject] else [])
  | t :: rest =>
      c <-- py_index t 0;;
      let fresh := negb (String.eqb c (code subject)) in
      let subjects' := if fresh && started then subjects ++ [Subject_Sort subject] else subjects in
      let subject' := if fresh then Subject_init c else subject in
      sp <-- py_index t 1;;
      field <-- py_index t 2;;
      count <-- py_int field;;
      ReadData_rows rest (Subject_Add subject' sp count) (fresh || started) subjects'
  end.

(** [ReadData]: the rows of the CSV file; [reader.next()] on an empty
    file raises StopIteration. *)
Definition ReadData (rows : list (list String.string)) : outcome (list Subject) :=
  match rows with
  | [] => Raises StopIteration
  | _ :: body => of_result (ReadData_rows body (Subject_init String.EmptyString) false [])
  end.

End Reading.

(** Field [t[0]] (the subject code) and [t[1]] (the species name) of a
    row, as read when the row has them. *)
Definition row_code (t : list String.string) : String.string := nth 0 t String.EmptyString.
Definition row_name (t : list String.string) : String.string := nth 1 t String.EmptyString.

(** Each code of the list differs from the one before it, the first from
    [prev]. *)
Fixpoint codes_change (prev : String.string) (cs : list String.string) : Prop :=
  match cs with [] => True | c :: cs' => c <> prev /\ codes_change c cs' end.

(** [OffsetCurve(curve, i, n, dx, dy)]; [dx] and [dy] are floats (0.3 by
    default), so [2 * dx * i / (n-1)] divides floats and raises
    ZeroDivisionError when [n = 1]. *)
Definition OffsetCurve (curve : list (R * R)) (i n : Z) (dx dy : R) : outcome (list (R * R)) :=
  if Z.eqb (n - 1) 0 then Raises ZeroDivisionError
  else
    let xoff := - dx + 2 * dx * IZR i / IZR (n - 1) in
    let yoff := - dy + 2 * dy * IZR i / IZR (n - 1) in
    Returns (map (fun p => (fst p + xoff, snd p + yoff)) curve).

(** The loop of [PlotCurves]: the [(xs, ys)] series handed to
    [pyplot.plot], in order. [xs, ys = zip( *curve)] fails to unpack the
    empty list that [zip()] returns for an empty curve. *)
Fixpoint PlotCurves_loop (i n : Z) (curves : list (list (R * R))) : outcome (list (list R * list R)) :=
  match curves with
  | [] => Returns []
  | c :: cs =>
      match OffsetCurve c i n (3 / 10) (3 / 10) with
      | Raises e => Raises e
      | Returns [] => Raises (PyError ValueError)
      | Returns c' =>
          match PlotCurves_loop (i + 1) n cs with
          | Raises e => Raises e
          | Returns series => Returns ((map fst c', map snd c') :: series)
          end
      end
  end.

(** [PlotCurves(curves)]; [pyplot.clf()] and [myplot.Save] plot no series. *)
Definition PlotCurves (curves : list (list (R * R))) : outcome (list (list R * list R)) :=
  PlotCurves_loop 0 (Z.of_nat (length curves)) curves.

Section Jitter.

(** The [k]-th call of [random.random()]. *)
Variable random_draw : nat -> R.

(** [random.uniform(a, b)] is [a + (b-a) * random.random()]. *)
Definition uniform (a b : R) : M R := fun s => Ok (a + (b - a) * random_draw s, S s).

(** [JitterCurve(curve, dx, dy)]: per point, the x offset is drawn first. *)
Fixpoint JitterCurve (curve : list (R * R)) (dx dy : R) : M (list (R * R)) :=
  match curve with
  | [] => ret []
  | p :: ps =>
      ux <- uniform (- dx) dx;;
      uy <- uniform (- dy) dy;;
      rest <- JitterCurve ps dx dy;;
      ret ((fst p + ux, snd p + uy) :: rest)
  end.

End Jitter.

(** Modelled from the spec: [Pmf.Incr(x, p)] adds [p] to the weight of
    [x], inserting [x] when absent. *)
Fixpoint Pmf_Incr (t : table) (x p : R) : table :=
  match t with
  | [] => [(x, p)]
  | yq :: t' => if Req_dec_T x (fst yq) then (fst yq, snd yq + p) :: t'
                else yq :: Pmf_Incr t' x p
  end.

(** Modelled from the spec: [thinkbayes.MakeMixture(metapmf)], each
    distribution's weights times its mixing weight, summed value by value. *)
Definition MakeMixture (metapmf : list (table * R)) : table :=
  fold_left (fun mix pp =>
      fold_left (fun mix' xp => Pmf_Incr mix' (fst xp) (snd xp * snd pp)) (fst pp) mix)
    metapmf [].

(** [Species2.DistOfPrevalence(index)]; [beta_pmf a b] is
    [thinkbayes.Beta(a, b).MakePmf()]. Each [MakePmf()] builds a new
    object, so the keys of [pmfs] are distinct. *)
Definition Species2_DistOfPrevalence (beta_pmf : R -> R -> table) (st : Species2) (index : Z)
    : result table :=
  pmfs <-- mapR (fun np =>
                   beta <-- Species2_MarginalBeta st (fst np) index;;
                   Ok (beta_pmf (b_alpha beta) (b_beta beta), snd np))
             (combine (ns st) (probs st));;
  Ok (MakeMixture pmfs).

(** The weight of value [x] in a table. *)
Definition mass_at (t : table) (x : R) : R :=
  np_sum (map snd (filter (fun yp => if Req_dec_T (fst yp) x then true else false) t)).

(** [ProcessSubject(counts)]: [n = int(1.5 * m)], i.e. [3m/2] rounded
    down ([1.5 * m] is exact in floating point), [ns = range(m, n)]. *)
Definition ProcessSubject (g : nat -> list R -> list R) (counts : list Z)
    : M (Species2 * list (nat * R)) :=
  let m := length counts in
  let n := (3 * m / 2)%nat in
  suite <- lift (Species2_init (seq m (n - m)) 300);;
  suite' <- Species5_Update g suite counts;;
  pmf <- lift (Species2_DistOfN suite');;
  ret (suite', pmf).

(** ** Runtime lemmas *)

Lemma zipWith_length {A B C} (f : A -> B -> C) xs ys :
  length (zipWith f xs ys) = Nat.min (length xs) (length ys).
Proof.
  revert ys; induction xs as [|x xs IH]; intros [|y ys]; simpl; auto.
Qed.

Lemma np_imap2_same {A} (d : A) f a b :
  length a = length b -> np_imap2 d f a b = Ok (zipWith f a b).
Proof.
  intro H. unfold np_imap2. rewrite (proj2 (Nat.eqb_eq _ _) H). reflexivity.
Qed.

Lemma np_map2_same {A} (d : A) f a b :
  length a = length b -> np_map2 d f a b = Ok (zipWith f a b).
Proof.
  intro H. unfold np_map2. rewrite (proj2 (Nat.eqb_eq _ _) H). reflexivity.
Qed.

Lemma np_imap2_length {A} (d : A) f a b v :
  np_imap2 d f a b = Ok v -> length v = length a.
Proof.
  unfold np_imap2. destruct (Nat.eqb_spec (length a) (length b)) as [E|E].
  - intro H; injection H as <-. rewrite zipWith_length, E. apply Nat.min_id.
  - destruct (Nat.eqb (length b) 1); [|discriminate].
    intro H; injection H as <-. apply length_map.
Qed.

Lemma cumsum_from_length acc xs : length (cumsum_from acc xs) = length xs.
Proof. revert acc; induction xs; simpl; auto. Qed.

Lemma py_index_in_range {A} (xs : list A) (k : nat) :
  (k < length xs)%nat -> exists a, py_index xs (Z.of_nat k) = Ok a.
Proof.
  intro H. unfold py_index.
  replace ((0 <=? Z.of_nat k)%Z && (Z.of_nat k <? Z.of_nat (length xs))%Z) with true
    by (symmetry; apply andb_true_iff; split; [apply Z.leb_le | apply Z.ltb_lt]; lia).
  rewrite Nat2Z.id.
  destruct (nth_error xs k) eqn:E.
  - simpl; eauto.
  - apply nth_error_None in E. lia.
Qed.

Lemma mapR_ok {A B} (f : A -> result B) xs :
  (forall x, In x xs -> exists y, f x = Ok y) ->
  exists ys, mapR f xs = Ok ys /\ length ys = length xs.
Proof.
  induction xs as [|x xs IH]; intro H; simpl.
  - exists []; auto.
  - destruct (H x (or_introl eq_refl)) as [y Hy]. rewrite Hy; simpl.
    destruct IH as [ys [Hys Hl]]; [intros; apply H; now right|].
    rewrite Hys. exists (y :: ys); simpl; auto.
Qed.

(** [mc_sum] draws exactly once per iteration. *)
Lemma mc_sum_ok (f : M (list R)) (L : nat) :
  (forall s, exists x, f s = Ok (x, S s) /\ length x = L) ->
  forall k acc s, length acc = L ->
  exists v, mc_sum k f acc s = Ok (v, (s + k)%nat) /\ length v = L.
Proof.
  intros Hf k. induction k as [|k IH]; intros acc s Hacc; simpl.
  - exists acc. unfold ret. rewrite Nat.add_0_r. auto.
  - unfold bind at 1. destruct (Hf s) as [x [Hx Hl]]. rewrite Hx.
    unfold bind, lift. rewrite np_imap2_same by congruence.
    destruct (IH (zipWith Rplus acc x) (S s)) as [v [Hv Hvl]].
    + rewrite zipWith_length. lia.
    + exists v. rewrite Hv, <- plus_n_Sm. auto.
Qed.

(** The maximum found by [numpy.max] is an element and an upper bound. *)
Lemma fold_Rmax_spec (xs : list R) (a : R) :
  In (fold_left Rmax xs a) (a :: xs) /\
  Forall (fun y => y <= fold_left Rmax xs a) (a :: xs).
Proof.
  revert a; induction xs as [|x xs IH]; intro a; simpl.
  - split; [auto | constructor; [lra | constructor]].
  - destruct (IH (Rmax a x)) as [Hin Hub].
    split.
    + destruct Hin as [Hin|Hin].
      * rewrite <- Hin.
        assert (Hm : Rmax a x = a \/ Rmax a x = x)
          by (unfold Rmax; destruct (Rle_dec a x); auto).
        destruct Hm as [E|E]; rewrite E; simpl; auto.
      * auto.
    + inversion Hub as [|? ? Hm Hrest]; subst.
      constructor; [|constructor; [|exact Hrest]].
      * eapply Rle_trans; [apply Rmax_l | exact Hm].
      * eapply Rle_trans; [apply Rmax_r | exact Hm].
Qed.

Lemma scale_log_likes_spec (l u : list R) :
  scale_log_likes l = Ok u -> In 1 u /\ Forall (fun x => x <= 1) u.
Proof.
  unfold scale_log_likes, np_max. destruct l as [|x xs]; unfold rbind; [discriminate|].
  intro H; injection H as <-.
  destruct (fold_Rmax_spec xs x) as [Hin Hub].
  split.
  - change (In 1 (map (fun l => exp (l - fold_left Rmax xs x)) (x :: xs))).
    apply (proj2 (in_map_iff _ _ _)). exists (fold_left Rmax xs x). split; [|exact Hin].
    unfold Rminus. rewrite Rplus_opp_r. apply exp_0.
  - change (Forall (fun y => y <= 1) (map (fun l => exp (l - fold_left Rmax xs x)) (x :: xs))).
    apply (proj2 (Forall_map _ _ _)). eapply Forall_impl; [|exact Hub].
    intros y Hy. rewrite <- exp_0. destruct (Req_dec y (fold_left Rmax xs x)) as [->|Hne].
    + unfold Rminus. rewrite Rplus_opp_r. lra.
    + left. apply exp_increasing. lra.
Qed.

Lemma scale_log_likes_pos (l u : list R) :
  scale_log_likes l = Ok u -> length u = length l /\ Forall (fun x => 0 < x) u.
Proof.
  unfold scale_log_likes, np_max. destruct l as [|x xs]; unfold rbind; [discriminate|].
  intro H.
  assert (E : u = map (fun l => exp (l - fold_left Rmax xs x)) (x :: xs)) by congruence.
  subst u. split.
  - rewrite length_map; reflexivity.
  - apply Forall_forall. intros y Hy. apply in_map_iff in Hy.
    destruct Hy as [z [<- _]]. apply exp_pos.
Qed.

Lemma scale_log_likes_ok (l : list R) :
  l <> [] -> exists u, scale_log_likes l = Ok u /\ length u = length l.
Proof.
  intro Hl. destruct l as [|x xs]; [congruence|].
  eexists; split; [reflexivity|]. apply length_map.
Qed.

Lemma Rltb_pos_all (xs : list R) :
  Forall (fun x => 0 < x) xs -> forallb (Rltb 0) xs = true.
Proof.
  induction 1 as [|x xs Hx _ IH]; [reflexivity|].
  simpl. rewrite IH. unfold Rltb. destruct (Rlt_dec 0 x); [reflexivity|contradiction].
Qed.

Lemma draw_gamma_ok g (sh : list R) (s : nat) :
  Forall (fun x => 0 < x) sh -> draw_gamma g sh s = Ok (g s sh, S s).
Proof. intro H. unfold draw_gamma. rewrite Rltb_pos_all by exact H. reflexivity. Qed.

Lemma draw_gamma_cases g (sh : list R) (s : nat) :
  draw_gamma g sh s = Ok (g s sh, S s) \/ draw_gamma g sh s = Err ValueError.
Proof. unfold draw_gamma. destruct (forallb _ _); [left|right]; reflexivity. Qed.

Lemma IZR_pos_all (ps : list Z) :
  Forall (fun x => (0 < x)%Z) ps -> Forall (fun x => 0 < x) (map IZR ps).
Proof.
  intro H. apply Forall_map. eapply Forall_impl; [|exact H].
  intros x Hx. apply IZR_lt in Hx. exact Hx.
Qed.

Lemma wrap64_small (z : Z) : (- 2 ^ 63 <= z < 2 ^ 63)%Z -> wrap64 z = z.
Proof.
  intro H. unfold wrap64. rewrite Z.mod_small by lia. lia.
Qed.

Lemma wrap64_range (z : Z) : (- 2 ^ 63 <= wrap64 z < 2 ^ 63)%Z.
Proof.
  unfold wrap64. pose proof (Z.mod_pos_bound (z + 2 ^ 63) (2 ^ 64)). lia.
Qed.

Lemma in_int64_spec (z : Z) : in_int64 z = true <-> (- 2 ^ 63 <= z < 2 ^ 63)%Z.
Proof.
  unfold in_int64. rewrite andb_true_iff, Z.leb_le, Z.ltb_lt. reflexivity.
Qed.

(** ** Shapes: when the vectorized code does not raise *)

Section Shapes.

Variable g : nat -> list R -> list R.
Hypothesis Hg : forall s sh, length (g s sh) = length sh.

Lemma Species2_SampleLikelihood_ok (st : Species2) (data : list Z) (s : nat) :
  ns st <> [] ->
  (forall n, In n (ns st) -> 1 <= n <= length (params st))%nat ->
  (length data <= length (params st))%nat ->
  Forall (fun x => (0 < x)%Z) (params st) ->
  exists v, Species2_SampleLikelihood g st data s = Ok (v, S s) /\ length v = length (ns st).
Proof.
  intros Hns Hn Hd Hpos.
  unfold Species2_SampleLikelihood, bind at 1.
  rewrite draw_gamma_ok by (apply IZR_pos_all; exact Hpos).
  unfold bind, lift.
  set (gammas := g s (map IZR (params st))).
  assert (Hgl : length gammas = length (params st))
    by (unfold gammas; rewrite Hg, length_map; reflexivity).
  match goal with |- context [mapR ?f (ns st)] =>
    destruct (mapR_ok f (ns st)) as [ll [Hll Hlen]] end.
  { intros n Hin. specialize (Hn n Hin).
    destruct (py_index_in_range (cumsum gammas) (n - 1)) as [c Hc].
    { unfold cumsum; rewrite cumsum_from_length; lia. }
    replace (Z.of_nat n - 1)%Z with (Z.of_nat (n - 1)) by lia.
    unfold rbind; rewrite Hc.
    rewrite np_map2_same; [eexists; reflexivity|].
    rewrite !length_map, length_firstn. lia. }
  rewrite Hll.
  destruct (scale_log_likes_ok ll) as [u [Hu Hul]].
  { intro E; subst ll; destruct (ns st); simpl in Hlen; congruence. }
  rewrite Hu, np_imap2_same by (rewrite length_map; congruence).
  eexists; split; [reflexivity|]. rewrite zipWith_length, length_map. lia.
Qed.

Lemma Species2_Update_ok (st : Species2) (data : list Z) (s : nat) :
  ns st <> [] ->
  (forall n, In n (ns st) -> 1 <= n <= length (params st))%nat ->
  (length data <= length (params st))%nat ->
  length (probs st) = length (ns st) ->
  Forall (fun x => (0 < x)%Z) (params st) ->
  forallb in_int64 data = true ->
  exists p, Species2_Update g st data s =
    Ok (mkSpecies2 (ns st) p
          (zipWith i64_add (firstn (length data) (params st)) data
             ++ skipn (length data) (params st)) (iterations st), (s + 1000)%nat).
Proof.
  intros Hns Hn Hd Hp Hpos Hdata.
  unfold Species2_Update, bind at 1.
  destruct (mc_sum_ok (Species2_SampleLikelihood g st data) (length (ns st))
              (fun s => Species2_SampleLikelihood_ok st data s Hns Hn Hd Hpos)
              1000 (np_zeros (length (ns st))) s) as [like [Hl Hll]].
  { apply repeat_length. }
  rewrite Hl. unfold bind, lift.
  rewrite np_imap2_same by congruence.
  unfold i64_iadd_prefix. rewrite Hdata. unfold np_iadd_prefix. rewrite np_imap2_same by (rewrite length_firstn; lia).
  eexists; reflexivity.
Qed.

Lemma Species3_SampleLikelihood_ok (st : Species2) (data : list Z) (s n0 : nat) :
  hd_error (ns st) = Some n0 -> (1 <= n0)%nat ->
  length (params st) = (n0 - 1 + length (ns st))%nat ->
  (length data <= length (params st))%nat ->
  Forall (fun x => (0 < x)%Z) (params st) ->
  exists v, Species3_SampleLikelihood g st data s = Ok (v, S s) /\ length v = length (ns st).
Proof.
  intros Hhd Hn0 Hpl Hd Hpos.
  assert (Hns : ns st <> []) by (intro E; rewrite E in Hhd; discriminate).
  assert (Hlns : (1 <= length (ns st))%nat)
    by (destruct (ns st); [congruence | simpl; lia]).
  unfold Species3_SampleLikelihood, bind at 1.
  rewrite draw_gamma_ok by (apply IZR_pos_all; exact Hpos).
  unfold bind, lift.
  set (gammas := g s (map IZR (params st))).
  assert (Hgl : length gammas = length (params st))
    by (unfold gammas; rewrite Hg, length_map; reflexivity).
  replace (py_index (ns st) 0) with (Ok n0 : result nat)
    by (destruct (ns st) as [|a l]; simpl in Hhd; [discriminate|]; injection Hhd as ->;
        reflexivity).
  replace (bc_ok (length (firstn (length data) gammas)) (length data)) with true
    by (unfold bc_ok; rewrite length_firstn, Nat.min_l by lia; rewrite Nat.eqb_refl;
        reflexivity).
  set (col := py_drop (Z.of_nat n0 - 1) (cumsum gammas)).
  assert (Hcol : length col = length (ns st)).
  { unfold col, py_drop. replace (0 <=? Z.of_nat n0 - 1)%Z with true
      by (symmetry; apply Z.leb_le; lia).
    rewrite length_skipn. unfold cumsum. rewrite cumsum_from_length. lia. }
  match goal with |- context [mapR ?f (map ?h col)] =>
    destruct (mapR_ok f (map h col)) as [tt [Htt Htl]] end.
  { intros arow Hin. apply in_map_iff in Hin. destruct Hin as [c [<- _]].
    rewrite np_map2_same; [eexists; reflexivity|].
    rewrite !length_map, length_firstn. lia. }
  rewrite Htt.
  destruct (scale_log_likes_ok (map np_sum tt)) as [u [Hu Hul]].
  { rewrite <- length_zero_iff_nil, length_map, Htl, length_map. lia. }
  rewrite Hu, np_imap2_same
    by (rewrite length_map, Hul, length_map, Htl, length_map; congruence).
  eexists; split; [reflexivity|].
  rewrite zipWith_length, length_map, Hul, length_map, Htl, length_map, Hcol. lia.
Qed.

Lemma Species3_Update_ok (st : Species2) (data : list Z) (s n0 : nat) :
  hd_error (ns st) = Some n0 -> (1 <= n0)%nat ->
  length (params st) = (n0 - 1 + length (ns st))%nat ->
  (length data <= length (params st))%nat ->
  length (probs st) = length (ns st) ->
  Forall (fun x => (0 < x)%Z) (params st) ->
  forallb in_int64 data = true ->
  exists p, Species3_Update g st data s =
    Ok (mkSpecies2 (ns st) p
          (zipWith i64_add (firstn (length data) (params st)) data
             ++ skipn (length data) (params st)) (iterations st),
        (s + iterations st)%nat).
Proof.
  intros Hhd Hn0 Hpl Hd Hp Hpos Hdata.
  unfold Species3_Update, bind at 1.
  destruct (mc_sum_ok (Species3_SampleLikelihood g st data) (length (ns st))
              (fun s => Species3_SampleLikelihood_ok st data s n0 Hhd Hn0 Hpl Hd Hpos)
              (iterations st) (np_zeros (length (ns st))) s) as [like [Hl Hll]].
  { apply repeat_length. }
  rewrite Hl. unfold bind, lift.
  rewrite np_imap2_same by congruence.
  unfold i64_iadd_prefix. rewrite Hdata. unfold np_iadd_prefix. rewrite np_imap2_same by (rewrite length_firstn; lia).
  eexists; reflexivity.
Qed.

End Shapes.

Lemma bind_lift {A B} (r : result A) (f : A -> M B) (s : nat) :
  bind (lift r) f s = match r with Ok a => f a s | Err e => Err e end.
Proof. destruct r; reflexivity. Qed.

(** ** Positivity and normalization *)

Lemma zipWith_Forall {A B C} (f : A -> B -> C) (P : A -> Prop) (Q : B -> Prop)
    (T : C -> Prop) a b :
  Forall P a -> Forall Q b -> (forall x y, P x -> Q y -> T (f x y)) ->
  Forall T (zipWith f a b).
Proof.
  intros Ha; revert b; induction Ha as [|x a Hx Ha IH]; intros [|y b] Hb Hf; simpl;
    try constructor.
  - inversion Hb; subst; auto.
  - inversion Hb; subst; auto.
Qed.

Lemma np_imap2_Forall {A} (d : A) f (P Q T : A -> Prop) a b v :
  Forall P a -> Forall Q b -> (forall x y, P x -> Q y -> T (f x y)) ->
  np_imap2 d f a b = Ok v -> Forall T v.
Proof.
  intros Ha Hb Hf. unfold np_imap2.
  destruct (Nat.eqb (length a) (length b)).
  - intro H; injection H as <-. eapply zipWith_Forall; eauto.
  - destruct (Nat.eqb_spec (length b) 1) as [E|E]; [|discriminate].
    intro H; injection H as <-.
    destruct b as [|y [|]]; simpl in E; try discriminate. simpl.
    inversion Hb; subst.
    apply Forall_map. eapply Forall_impl; [|exact Ha]. intros; auto.
Qed.

Lemma mc_sum_pos (f : M (list R)) :
  (forall s x s', f s = Ok (x, s') -> Forall (fun y => 0 < y) x) ->
  forall k acc s v s',
  Forall (fun y => 0 <= y) acc ->
  (0 < k)%nat \/ Forall (fun y => 0 < y) acc ->
  mc_sum k f acc s = Ok (v, s') -> Forall (fun y => 0 < y) v.
Proof.
  intros Hf k; induction k as [|k IH]; intros acc s v s' H0 Hk H.
  - destruct Hk as [Hk|Hpos]; [lia|]. unfold mc_sum, ret in H.
    injection H as <- _. exact Hpos.
  - unfold mc_sum in H; fold mc_sum in H. unfold bind at 1 in H.
    destruct (f s) as [[x s1]|e] eqn:Ef; [|discriminate].
    rewrite bind_lift in H.
    destruct (np_imap2 0 Rplus acc x) as [acc'|e] eqn:Ea; [|discriminate].
    assert (Hp : Forall (fun y => 0 < y) acc').
    { eapply np_imap2_Forall; [exact H0 | exact (Hf _ _ _ Ef) | | exact Ea].
      intros; simpl; lra. }
    apply (IH acc' s1 v s'); auto.
    eapply Forall_impl; [|exact Hp]. intros; simpl; lra.
Qed.




Lemma np_sum_pos (xs : list R) : xs <> [] -> Forall (fun x => 0 < x) xs -> 0 < np_sum xs.
Proof.
  intros Hne H. induction H as [|x xs Hx H IH]; [congruence|]. simpl.
  destruct xs as [|y ys].
  - simpl; lra.
  - assert (0 < np_sum (y :: ys)) by (apply IH; discriminate). lra.
Qed.

Lemma np_sum_div (xs : list R) (t : R) :
  np_sum (map (fun x => x / t) xs) = np_sum xs / t.
Proof. induction xs as [|x xs IH]; simpl; [unfold Rdiv; ring|]. rewrite IH. unfold Rdiv; ring. Qed.

Lemma np_normalize_sum (xs : list R) : np_sum xs <> 0 -> np_sum (np_normalize xs) = 1.
Proof. intro H. unfold np_normalize. rewrite np_sum_div. field. exact H. Qed.

Lemma np_normalize_pos (xs : list R) :
  xs <> [] -> Forall (fun x => 0 < x) xs -> Forall (fun x => 0 < x) (np_normalize xs).
Proof.
  intros Hne H. pose proof (np_sum_pos xs Hne H) as Ht.
  unfold np_normalize. apply Forall_map. eapply Forall_impl; [|exact H].
  intros x Hx. apply Rdiv_lt_0_compat; assumption.
Qed.

Lemma np_normalize_length (xs : list R) : length (np_normalize xs) = length xs.
Proof. apply length_map. Qed.

(** ** The outer weights of the flat-array suites *)






Lemma Species5_SampleLikelihood_pos g st m c s v s' :
  Species5_SampleLikelihood g st m c s = Ok (v, s') -> Forall (fun x => 0 < x) v.
Proof.
  unfold Species5_SampleLikelihood, bind at 1.
  destruct (draw_gamma _ _ _) as [[gammas s0]|e0]; cbv beta iota zeta; [|discriminate].
  rewrite bind_lift. destruct (py_index (ns st) 0) as [n0|e]; [|discriminate].
  rewrite bind_lift. destruct (py_index _ _) as [x|e]; [|discriminate].
  unfold lift. destruct (scale_log_likes _) as [u|e] eqn:Hu; [|discriminate].
  intro H; injection H as <- _.
  exact (proj2 (scale_log_likes_pos _ _ Hu)).
Qed.

Lemma zeros_nonneg (n : nat) : Forall (fun y => 0 <= y) (np_zeros n).
Proof. apply Forall_forall. intros x Hx. apply repeat_spec in Hx. lra. Qed.

(** Reweighting by positive likelihoods followed by [probs /= probs.sum()]. *)
Lemma reweight_normalize (ns0 : list nat) (probs0 like probs1 : list R) :
  ns0 <> [] -> length probs0 = length ns0 -> Forall (fun p => 0 < p) probs0 ->
  Forall (fun x => 0 < x) like ->
  np_imap2 0 Rmult probs0 like = Ok probs1 ->
  length (np_normalize probs1) = length ns0 /\
  Forall (fun p => 0 < p) (np_normalize probs1) /\ np_sum (np_normalize probs1) = 1.
Proof.
  intros Hne Hl Hp Hlike E.
  assert (Hl1 : length probs1 = length ns0) by (rewrite (np_imap2_length _ _ _ _ _ E); exact Hl).
  assert (Hp1 : Forall (fun p => 0 < p) probs1).
  { eapply np_imap2_Forall; [exact Hp | exact Hlike | | exact E].
    intros; simpl; apply Rmult_lt_0_compat; assumption. }
  assert (Hne1 : probs1 <> []) by (intro Z0; subst probs1; destruct ns0; simpl in Hl1; congruence).
  split; [rewrite np_normalize_length; exact Hl1|]. split.
  - apply np_normalize_pos; assumption.
  - apply np_normalize_sum. pose proof (np_sum_pos _ Hne1 Hp1). lra.
Qed.



Lemma unseen_species_pos (ns0 : list nat) (m : nat) :
  (forall n, In n ns0 -> (m <= n)%nat) -> Forall (fun x => 0 < x) (unseen_species ns0 m).
Proof.
  intro H. apply Forall_map, Forall_forall. intros n Hn. apply IZR_lt.
  specialize (H n Hn). lia.
Qed.

Lemma Species5_UpdateOne_inv g ns0 st m c s st' s' :
  S2_inv ns0 st -> (1 <= iterations st)%nat -> (forall n, In n ns0 -> (m <= n)%nat) ->
  Species5_UpdateOne g st m c s = Ok (st', s') ->
  S2_inv ns0 st' /\ iterations st' = iterations st /\ params st' = params st /\
  np_sum (probs st') = 1.
Proof.
  intros (Hns & Hne & Hl & Hp) Hk Hm.
  unfold Species5_UpdateOne, bind at 1.
  destruct (mc_sum _ _ _ s) as [[likes s1]|e] eqn:Em; [|discriminate].
  rewrite bind_lift.
  destruct (np_imap2 0 Rmult likes _) as [likes'|e] eqn:El; [|discriminate].
  rewrite bind_lift.
  destruct (np_imap2 0 Rmult (probs st) likes') as [probs1|e] eqn:Ep; [|discriminate].
  unfold ret. intro H; injection H as <- _.
  assert (Hlike : Forall (fun x => 0 < x) likes).
  { refine (mc_sum_pos _ _ _ _ _ _ _ _ (or_introl _) Em); [| |lia].
    - intros s0 x s0'. apply Species5_SampleLikelihood_pos.
    - apply zeros_nonneg. }
  assert (Hlike' : Forall (fun x => 0 < x) likes').
  { eapply np_imap2_Forall; [exact Hlike | | | exact El].
    - rewrite Hns. exact (unseen_species_pos _ _ Hm).
    - intros; simpl; apply Rmult_lt_0_compat; assumption. }
  destruct (reweight_normalize ns0 _ _ _ Hne Hl Hp Hlike' Ep) as (H1 & H2 & H3).
  unfold S2_inv, with_probs; simpl. auto 7.
Qed.

Lemma Species5_loop_inv g ns0 : forall data i st s st' s',
  S2_inv ns0 st -> (1 <= iterations st)%nat ->
  (forall n, In n ns0 -> (i + length data <= n)%nat) ->
  Species5_loop g i data st s = Ok (st', s') ->
  S2_inv ns0 st' /\ iterations st' = iterations st /\
  (data = [] -> st' = st) /\ (data <> [] -> np_sum (probs st') = 1).
Proof.
  induction data as [|c rest IH]; intros i st s st' s' Hinv Hk Hc H.
  - unfold Species5_loop, ret in H. injection H as <- _.
    split; [exact Hinv|]. split; [reflexivity|]. split; [reflexivity|].
    intro Hn; contradiction Hn; reflexivity.
  - simpl in H. unfold bind at 1 in H.
    destruct (Species5_UpdateOne g st (S i) c s) as [[st1 s1]|e] eqn:E1; [|discriminate].
    rewrite bind_lift in H.
    destruct (i64_iadd_at _ _ _) as [pa|e]; [|discriminate].
    destruct (Species5_UpdateOne_inv g ns0 st (S i) c s st1 s1 Hinv Hk) as (Hi1 & Hk1 & _ & Hs1);
      [intros n Hn; specialize (Hc n Hn); simpl in Hc; lia | exact E1 |].
    assert (Hinv2 : S2_inv ns0 (with_params st1 pa))
      by (destruct Hi1 as (? & ? & ? & ?); unfold S2_inv, with_params; simpl; auto).
    destruct (IH (S i) (with_params st1 pa) s1 st' s') as (Hi' & Hk' & Hnil & Hcons);
      [exact Hinv2 | simpl; lia | intros n Hn; specialize (Hc n Hn); simpl in Hc; lia | exact H |].
    split; [exact Hi'|]. split; [simpl in Hk'; lia|]. split; [discriminate|].
    intros _. destruct rest as [|c' rest'].
    + rewrite (Hnil eq_refl). exact Hs1.
    + apply Hcons. discriminate.
Qed.

(** ** The outer weights of the per-N suites *)







Lemma add_counts_length ps data : length (add_counts ps data) = length ps.
Proof. revert data; induction ps as [|p ps IH]; intros [|x xs]; simpl; auto. Qed.



Section PerN.

Variable g : nat -> list R -> list R.
Variable cd : nat -> table -> R.
Hypothesis Hg_len : forall s sh, length (g s sh) = length sh.
Hypothesis Hg_pos : forall s sh, Forall (fun x => 0 < x) sh -> Forall (fun x => 0 < x) (g s sh).






End PerN.

(** ** Sequences of updates *)


Lemma map_snd_combine {A B} (xs : list A) (ys : list B) :
  length xs = length ys -> map snd (combine xs ys) = ys.
Proof.
  revert ys; induction xs as [|x xs IH]; intros [|y ys] H; simpl in *; try discriminate; auto.
  rewrite IH; auto.
Qed.

Lemma map_fst_combine {A B} (xs : list A) (ys : list B) :
  length xs = length ys -> map fst (combine xs ys) = xs.
Proof.
  revert ys; induction xs as [|x xs IH]; intros [|y ys] H; simpl in *; try discriminate; auto.
  rewrite IH; auto.
Qed.

Lemma combine_snd_Forall {A B} (P : B -> Prop) (xs : list A) (ys : list B) :
  Forall P ys -> Forall (fun xy => P (snd xy)) (combine xs ys).
Proof.
  intro H. revert xs. induction H as [|y ys Hy _ IH]; intros [|x xs]; simpl; auto.
Qed.

Lemma Pmf_Set_Forall (P : nat * R -> Prop) t x p :
  Forall P t -> P (x, p) -> Forall P (Pmf_Set t x p).
Proof.
  intros Ht Hx. induction Ht as [|y t Hy Ht IH]; simpl; [auto|].
  destruct (Nat.eqb x (fst y)); constructor; auto.
Qed.

Lemma pmf_of_pairs_Forall (P : nat * R -> Prop) l :
  Forall P l -> Forall P (pmf_of_pairs l).
Proof.
  unfold pmf_of_pairs. intro H.
  assert (Hg : forall acc, Forall P acc ->
            Forall P (fold_left (fun t xp => Pmf_Set t (fst xp) (snd xp)) l acc)).
  { induction H as [|xp l Hxp _ IH]; intros acc Hacc; simpl; auto.
    apply IH. destruct xp; apply Pmf_Set_Forall; assumption. }
  apply Hg. constructor.
Qed.

Lemma Pmf_Set_not_nil t x p : Pmf_Set t x p <> [].
Proof. destruct t; simpl; [|destruct (Nat.eqb _ _)]; discriminate. Qed.

Lemma pmf_of_pairs_not_nil l : l <> [] -> pmf_of_pairs l <> [].
Proof.
  unfold pmf_of_pairs.
  assert (Hg : forall acc, acc <> [] \/ l <> [] ->
            fold_left (fun t xp => Pmf_Set t (fst xp) (snd xp)) l acc <> []).
  { induction l as [|xp l IH]; intros acc H; simpl.
    - destruct H; congruence.
    - apply IH. left. apply Pmf_Set_not_nil. }
  intro H. apply Hg. right. exact H.
Qed.

Lemma Pmf_Set_fresh t x p : ~ In x (map fst t) -> Pmf_Set t x p = t ++ [(x, p)].
Proof.
  induction t as [|y t IH]; simpl; intro H; [reflexivity|].
  destruct (Nat.eqb_spec x (fst y)) as [E|E]; [exfalso; apply H; left; congruence|].
  rewrite IH; auto.
Qed.

(** With distinct keys, setting the pairs one by one keeps them all, in order. *)
Lemma pmf_of_pairs_nodup l : NoDup (map fst l) -> pmf_of_pairs l = l.
Proof.
  unfold pmf_of_pairs.
  assert (Hg : forall acc, NoDup (map fst acc ++ map fst l) ->
            fold_left (fun t xp => Pmf_Set t (fst xp) (snd xp)) l acc = acc ++ l).
  { induction l as [|[x p] l IH]; intros acc H; simpl; [rewrite app_nil_r; reflexivity|].
    rewrite Pmf_Set_fresh.
    - rewrite IH; [rewrite <- app_assoc; reflexivity|].
      rewrite map_app, <- app_assoc. exact H.
    - intro Hin. simpl in H. apply NoDup_remove_2 in H. apply H, in_or_app. left. exact Hin. }
  intro H. apply (Hg []). exact H.
Qed.

Lemma MakePmfFromDict_ok (d : list (nat * R)) :
  d <> [] -> Forall (fun xp => 0 < snd xp) d ->
  exists pmf, MakePmfFromDict d = Ok pmf /\ weights_sum pmf = 1 /\
    Forall (fun xp => 0 < snd xp) pmf /\ map fst pmf = map fst (pmf_of_pairs d).
Proof.
  intros Hne Hp. unfold MakePmfFromDict, Pmf_Normalize, rbind.
  set (t := pmf_of_pairs d).
  assert (Ht : Forall (fun xp => 0 < snd xp) t) by (apply pmf_of_pairs_Forall, Hp).
  assert (Htot : 0 < np_sum (map snd t)).
  { apply np_sum_pos.
    - intro E. apply map_eq_nil in E. exact (pmf_of_pairs_not_nil d Hne E).
    - apply Forall_map, Ht. }
  destruct (Req_dec_T (np_sum (map snd t)) 0) as [E|_]; [lra|].
  eexists; split; [reflexivity|]. simpl. split; [|split].
  - unfold weights_sum. rewrite map_map. simpl.
    rewrite <- (map_map snd (fun x => x / np_sum (map snd t))), np_sum_div. field. lra.
  - apply Forall_map. eapply Forall_impl; [|exact Ht]. intros xp Hx. simpl.
    apply Rdiv_lt_0_compat; assumption.
  - rewrite map_map. reflexivity.
Qed.

(** [DistOfN] of a Species2-family suite with positive weights. *)
Lemma S2_DistOfN_ok ns0 st :
  S2_inv ns0 st ->
  exists pmf, Species2_DistOfN st = Ok pmf /\ weights_sum pmf = 1 /\
    Forall (fun xp => 0 < snd xp) pmf /\ (NoDup ns0 -> map fst pmf = ns0).
Proof.
  intros (Hns & Hne & Hl & Hp). unfold Species2_DistOfN.
  assert (Hc : Forall (fun xp => 0 < snd xp) (combine (ns st) (probs st)))
    by (apply combine_snd_Forall, Hp).
  assert (Hcne : combine (ns st) (probs st) <> []).
  { intro E. apply (f_equal (map fst)) in E. rewrite map_fst_combine in E by congruence.
    simpl in E. congruence. }
  destruct (MakePmfFromDict_ok (pmf_of_pairs (combine (ns st) (probs st))))
    as (pmf & E & H1 & H2 & H3).
  - apply pmf_of_pairs_not_nil, Hcne.
  - apply pmf_of_pairs_Forall, Hc.
  - exists pmf. split; [exact E|]. split; [exact H1|]. split; [exact H2|].
    intro Hnd. rewrite H3.
    assert (Hk : map fst (combine (ns st) (probs st)) = ns0)
      by (rewrite map_fst_combine; congruence).
    rewrite !pmf_of_pairs_nodup; [exact Hk| |];
      rewrite ?pmf_of_pairs_nodup; rewrite ?Hk; exact Hnd.
Qed.


Lemma Species2_init_inv ns0 k st0 :
  Species2_init ns0 k = Ok st0 -> S2_inv ns0 st0 /\ iterations st0 = k.
Proof.
  unfold Species2_init, py_last, rbind.
  destruct (py_index ns0 (-1)) as [l|e] eqn:E; [|discriminate].
  intro H; injection H as <-.
  assert (Hne : ns0 <> []) by (intro Z0; subst ns0; discriminate).
  unfold S2_inv; simpl. rewrite repeat_length. repeat split; auto.
  apply Forall_forall. intros x Hx. apply repeat_spec in Hx. lra.
Qed.


(** An object whose [iterations] attribute was never set: [Species6.Update]
    fails with the first failing [Peek], else in [Likelihood]. *)
Lemma Species6_Update_no_iterations g cd bp bpct st data s :
  sp_iterations st = None ->
  Species6_Update g cd bp bpct st data s =
  match mapR (fun hp => d <-- Peek bp bpct (fst hp) data;; Ok (d, snd hp)) (sp_hypos st) with
  | Err e => Err e
  | Ok [] => Err ValueError
  | Ok _ => Err AttributeError
  end.
Proof.
  intro Hi. unfold Species6_Update. rewrite bind_lift.
  destruct (mapR _ (sp_hypos st)) as [hyps|e]; [|reflexivity].
  unfold Suite_Update, bind at 1. destruct hyps as [|hp hyps].
  - simpl. unfold ret at 1, bind. simpl. unfold Pmf_Normalize. simpl.
    destruct (Req_dec_T 0 0) as [_|N]; [reflexivity|lra].
  - simpl. unfold bind at 1. unfold bind at 1.
    unfold Suite_Likelihood. rewrite Hi.
    destruct (sp_class st); reflexivity.
Qed.

(** ** Monte-Carlo sums of scalar draws *)

(** [mc_sumR] adds the draws taken at seeds [s], ..., [s + k - 1]. *)
Lemma mc_sumR_draws (h : nat -> R) (f : M R) :
  (forall t, f t = Ok (h t, S t)) ->
  forall k acc s, mc_sumR k f acc s = Ok (acc + fold_right Rplus 0 (map h (seq s k)), (s + k)%nat).
Proof.
  intros Hf k. induction k as [|k IH]; intros acc s; simpl.
  - unfold ret. rewrite Nat.add_0_r. f_equal. f_equal. ring.
  - unfold bind. rewrite Hf, IH. rewrite <- plus_n_Sm. f_equal. f_equal. ring.
Qed.

Lemma Dirichlet_Likelihood_plain g cd d data t :
  d_oversampled d = false -> Forall (fun x => 0 < x) (d_params d) ->
  Hypo_Likelihood g cd d data t =
  Ok (multinomial_prob (let gs := g t (d_params d) in map (fun x => x / np_sum gs) gs) data, S t).
Proof.
  intros Ho Hp. unfold Hypo_Likelihood, Dirichlet_Likelihood, Dirichlet_Random. rewrite Ho.
  unfold Dirichlet_Random_plain, bind. rewrite (draw_gamma_ok g _ t Hp). reflexivity.
Qed.

(** [Suite.Update] keeps the hypotheses: only their weights change. *)
Lemma Suite_Update_keys {K} (lik : K -> list Z -> M R) hypos data s hs s' :
  Suite_Update lik hypos data s = Ok (hs, s') -> map fst hs = map fst hypos.
Proof.
  unfold Suite_Update, bind at 1.
  assert (Hm : forall hyps s0 hs0 s0',
    mapM (fun hp => l <- lik (fst hp) data;; ret (fst hp, snd hp * l)) hyps s0 = Ok (hs0, s0') ->
    map fst hs0 = map fst hyps).
  { induction hyps as [|hp hyps IH]; intros s0 hs0 s0' H.
    - unfold mapM, ret in H. injection H as <- _. reflexivity.
    - simpl in H. unfold bind at 1 in H. unfold bind at 1 in H.
      destruct (lik (fst hp) data s0) as [[l s1]|e]; [|discriminate].
      unfold ret at 1 in H. unfold bind in H.
      destruct (mapM _ hyps s1) as [[hs1 s2]|e] eqn:Er; [|discriminate].
      unfold ret in H. injection H as <- _. simpl. rewrite (IH _ _ _ Er). reflexivity. }
  destruct (mapM _ hypos s) as [[hs0 s1]|e] eqn:E0; [|discriminate].
  rewrite bind_lift. unfold Pmf_Normalize.
  destruct (Req_dec_T _ 0); [discriminate|].
  unfold ret. intro H; injection H as <- _. simpl.
  rewrite map_map. simpl. exact (Hm _ _ _ _ E0).
Qed.

Lemma mapM_reweight {K} (lik : K -> list Z -> M R) (data : list Z) :
  forall (hypos : list (K * R)) s hs s',
  mapM (fun hp => l <- lik (fst hp) data;; ret (fst hp, snd hp * l)) hypos s = Ok (hs, s') ->
  exists ls, mapM (fun hp => lik (fst hp) data) hypos s = Ok (ls, s') /\
    hs = zipWith (fun hp l => (fst hp, snd hp * l)) hypos ls.
Proof.
  induction hypos as [|hp hypos IH]; intros s hs s' H.
  - unfold mapM, ret in H. injection H as <- <-. exists []. split; reflexivity.
  - simpl in H. unfold bind at 1 in H. unfold bind at 1 in H.
    destruct (lik (fst hp) data s) as [[l s1]|e] eqn:El; [|discriminate].
    unfold ret at 1 in H. unfold bind in H.
    destruct (mapM _ hypos s1) as [[hs1 s2]|e] eqn:Er; [|discriminate].
    unfold ret in H. injection H as <- <-.
    destruct (IH _ _ _ Er) as [ls [E1 E2]].
    exists (l :: ls). split.
    + cbn [mapM]. unfold bind. rewrite El, E1. reflexivity.
    + rewrite E2. reflexivity.
Qed.

Lemma map_zipWith {A B C D} (h : C -> D) (f : A -> B -> C) a b :
  map h (zipWith f a b) = zipWith (fun x y => h (f x y)) a b.
Proof.
  revert b; induction a as [|x a IH]; intros [|y b]; simpl; try reflexivity.
  rewrite IH. reflexivity.
Qed.

(** [Suite.Update]: the likelihoods of the hypotheses as passed in, then
    the reweighted and normalized weights. *)
Lemma Suite_Update_char {K} (lik : K -> list Z -> M R) hypos data s hs s' :
  Suite_Update lik hypos data s = Ok (hs, s') ->
  exists ls, mapM (fun hp => lik (fst hp) data) hypos s = Ok (ls, s') /\
    np_sum (zipWith (fun hp l => snd hp * l) hypos ls) <> 0 /\
    hs = zipWith (fun hp l => (fst hp, snd hp * l / np_sum (zipWith (fun hp l => snd hp * l) hypos ls)))
           hypos ls.
Proof.
  unfold Suite_Update, bind at 1.
  destruct (mapM _ hypos s) as [[hs0 s1]|e] eqn:E0; [|discriminate].
  destruct (mapM_reweight lik data hypos s hs0 s1 E0) as [ls [E1 ->]].
  rewrite bind_lift. unfold Pmf_Normalize. rewrite map_zipWith.
  destruct (Req_dec_T _ 0) as [_|Hz]; [discriminate|].
  unfold ret. intro H; injection H as <- <-.
  exists ls. split; [exact E1|]. split; [exact Hz|]. simpl. rewrite map_zipWith. reflexivity.
Qed.

Lemma Suite_Update_unfold {K} (lik : K -> list Z -> M R) hypos data s :
  Suite_Update lik hypos data s =
  match mapM (fun hp => l <- lik (fst hp) data;; ret (fst hp, snd hp * l)) hypos s with
  | Ok (hs, s1) => match Pmf_Normalize hs with Ok r => Ok (fst r, s1) | Err e => Err e end
  | Err e => Err e
  end.
Proof.
  unfold Suite_Update, bind, lift, ret.
  destruct (mapM _ hypos s) as [[hs s1]|e]; [|reflexivity].
  destruct (Pmf_Normalize hs); reflexivity.
Qed.

Lemma mapM_post {A B} (f1 f2 : A -> M B) (h : B -> B) :
  (forall x s, f2 x s = match f1 x s with Ok (b, s') => Ok (h b, s') | Err e => Err e end) ->
  forall xs s, mapM f2 xs s =
    match mapM f1 xs s with Ok (bs, s') => Ok (map h bs, s') | Err e => Err e end.
Proof.
  intros Hf xs. induction xs as [|x xs IH]; intro s; [reflexivity|].
  cbn [mapM]. unfold bind, ret. rewrite Hf.
  destruct (f1 x s) as [[b s1]|e]; [|reflexivity].
  cbv beta iota zeta. rewrite IH. destruct (mapM f1 xs s1) as [[bs s2]|e]; reflexivity.
Qed.

Lemma Species_Likelihood_avg_scaled g cd k d data s :
  (1 <= k)%nat ->
  Species_Likelihood_avg g cd (Some k) d data s =
  match Species_Likelihood g cd (Some k) d data s with
  | Ok (l, s') => Ok (l / INR k, s') | Err e => Err e end.
Proof.
  intro Hk. unfold Species_Likelihood_avg, Species_Likelihood, bind, lift, ret, of_option.
  destruct (mc_sumR k _ 0 s) as [[v s1]|e]; [|reflexivity].
  f_equal. f_equal. field. apply not_0_INR. lia.
Qed.

(** ** Candidates smaller than the number of observed categories *)

Lemma binom_zero (n k : nat) : (n < k)%nat -> binom n k = 0%nat.
Proof.
  revert k; induction n as [|n IH]; intros [|k] Hk; simpl; try lia.
  rewrite (IH k), (IH (S k)); lia.
Qed.

Lemma nth_zipWith {A B C} (f : A -> B -> C) a b (da : A) (db : B) (dc : C) j :
  (j < length a)%nat -> (j < length b)%nat ->
  nth j (zipWith f a b) dc = f (nth j a da) (nth j b db).
Proof.
  revert b j; induction a as [|x a IH]; intros [|y b] [|j] Ha Hb; simpl in *; try lia; auto.
  apply IH; lia.
Qed.

Lemma nth_map_lt {A B} (f : A -> B) l j (d : B) (d0 : A) :
  (j < length l)%nat -> nth j (map f l) d = f (nth j l d0).
Proof. intro H. rewrite (nth_indep _ d (f d0)) by (rewrite length_map; exact H). apply map_nth. Qed.

Lemma mapR_length {A B} (f : A -> result B) xs ys : mapR f xs = Ok ys -> length ys = length xs.
Proof.
  revert ys; induction xs as [|x xs IH]; intros ys H; simpl in H.
  - injection H as <-. reflexivity.
  - unfold rbind in H. destruct (f x) as [y|e]; [|discriminate].
    destruct (mapR f xs) as [ys'|e] eqn:E; [|discriminate].
    injection H as <-. simpl. rewrite (IH ys' eq_refl). reflexivity.
Qed.

(** A candidate N < m gets likelihood 0 in every draw: C(N, m) = 0. *)
Lemma Species2_SampleLikelihood_zero_at g st data s v s' j :
  Species2_SampleLikelihood g st data s = Ok (v, s') ->
  (j < length (ns st))%nat -> (nth j (ns st) 0%nat < length data)%nat ->
  length v = length (ns st) /\ nth j v 0 = 0.
Proof.
  intros H Hj Hn. revert H.
  unfold Species2_SampleLikelihood, bind at 1.
  destruct (draw_gamma _ _ _) as [[gammas s0]|e0]; cbv beta iota zeta; [|discriminate].
  rewrite bind_lift. destruct (mapR _ _) as [ll|e] eqn:Ell; [|discriminate].
  rewrite bind_lift. destruct (scale_log_likes ll) as [u|e] eqn:Hu; [|discriminate].
  unfold lift. intro H.
  assert (Hul : length u = length (ns st)).
  { unfold scale_log_likes, rbind in Hu. destruct (np_max ll); [|discriminate].
    injection Hu as <-. rewrite length_map. exact (mapR_length _ _ _ Ell). }
  rewrite np_imap2_same in H by (rewrite length_map; exact Hul).
  injection H as <- _. split; [rewrite zipWith_length, length_map; lia|].
  rewrite (nth_zipWith _ _ _ 0 0) by (rewrite ?length_map; lia).
  rewrite (nth_map_lt _ _ _ _ 0%nat) by lia. unfold BinomialCoef. rewrite binom_zero by exact Hn. simpl. ring.
Qed.

Lemma mc_sum_zero_at (f : M (list R)) (L j : nat) :
  (forall s x s', f s = Ok (x, s') -> length x = L /\ nth j x 0 = 0) ->
  forall k acc s v s', length acc = L -> nth j acc 0 = 0 ->
  mc_sum k f acc s = Ok (v, s') -> length v = L /\ nth j v 0 = 0.
Proof.
  intros Hf k. induction k as [|k IH]; intros acc s v s' Hl Hz H.
  - unfold mc_sum, ret in H. injection H as <- _. auto.
  - unfold mc_sum in H; fold mc_sum in H. unfold bind at 1 in H.
    destruct (f s) as [[x s1]|e] eqn:Ef; [|discriminate].
    destruct (Hf _ _ _ Ef) as [Hxl Hxz].
    rewrite bind_lift, np_imap2_same in H by congruence.
    assert (Hl' : length (zipWith Rplus acc x) = L) by (rewrite zipWith_length; lia).
    apply (IH _ _ _ _ Hl') in H; [exact H|].
    destruct (Nat.lt_ge_cases j L) as [Hj|Hj].
    + rewrite (nth_zipWith _ _ _ 0 0) by lia. rewrite Hz, Hxz. ring.
    + apply nth_overflow. rewrite zipWith_length. lia.
Qed.

Lemma Species2_Update_zero_at g st data s st' s' j :
  Species2_Update g st data s = Ok (st', s') ->
  length (probs st) = length (ns st) ->
  (j < length (ns st))%nat -> (nth j (ns st) 0%nat < length data)%nat ->
  nth j (probs st') 0 = 0.
Proof.
  intros H Hp Hj Hn. revert H. unfold Species2_Update, bind at 1.
  destruct (mc_sum _ _ _ s) as [[like s1]|e] eqn:Em; [|discriminate].
  destruct (mc_sum_zero_at _ (length (ns st)) j
              (fun s0 x s0' E => Species2_SampleLikelihood_zero_at g st data s0 x s0' j E Hj Hn)
              _ _ _ _ _ (repeat_length _ _) ltac:(apply nth_repeat_lt; exact Hj) Em)
    as [Hll Hlz].
  rewrite bind_lift, np_imap2_same by congruence.
  rewrite bind_lift. destruct (i64_iadd_prefix _ _ _); [|discriminate].
  unfold ret. intro H; injection H as <- _. simpl. unfold np_normalize.
  rewrite (nth_map_lt _ _ _ _ 0) by (rewrite zipWith_length; lia).
  rewrite (nth_zipWith _ _ _ 0 0) by lia. rewrite Hlz. unfold Rdiv. ring.
Qed.

(** ** One category at a time *)

(** [a[i] += x] changes entry [i] only. *)
Lemma np_iadd_at_spec (add : Z -> Z -> Z) (a : list Z) (i : nat) (x : Z) pa :
  np_iadd_at add a (Z.of_nat i) x = Ok pa ->
  length pa = length a /\
  forall j, nth j pa 0%Z = if Nat.eqb j i then add (nth j a 0%Z) x else nth j a 0%Z.
Proof.
  unfold np_iadd_at, py_index, rbind.
  destruct ((0 <=? Z.of_nat i)%Z && (Z.of_nat i <? Z.of_nat (length a))%Z) eqn:Hb.
  - rewrite Nat2Z.id. destruct (nth_error a i) as [v|] eqn:Ev; cbn [of_option]; [|discriminate].
    replace (Z.of_nat i <? 0)%Z with false by (symmetry; apply Z.ltb_ge; lia).
    intro H; injection H as <-.
    assert (Hi : (i < length a)%nat) by (apply nth_error_Some; congruence).
    change (match a with [] => [] | _ :: l => skipn i l end) with (skipn (S i) a).
    split.
    + rewrite length_app, length_firstn, Nat.min_l by lia. cbn [length].
      rewrite length_skipn. lia.
    + intro j. destruct (Nat.lt_trichotomy j i) as [Hj|[->|Hj]].
      * rewrite app_nth1 by (rewrite length_firstn; lia).
        rewrite nth_firstn. replace (j <? i)%nat with true by (symmetry; apply Nat.ltb_lt; lia).
        replace (Nat.eqb j i) with false by (symmetry; apply Nat.eqb_neq; lia). reflexivity.
      * rewrite app_nth2 by (rewrite length_firstn; lia).
        rewrite length_firstn, Nat.min_l, Nat.sub_diag by lia. cbn [nth].
        rewrite Nat.eqb_refl. rewrite (nth_error_nth a i 0%Z Ev). reflexivity.
      * rewrite app_nth2 by (rewrite length_firstn; lia).
        rewrite length_firstn, Nat.min_l by lia.
        destruct (j - i)%nat as [|t] eqn:Et; [lia|]. cbn [nth].
        rewrite nth_skipn. replace (Nat.eqb j i) with false by (symmetry; apply Nat.eqb_neq; lia).
        replace (S i + t)%nat with j by lia. reflexivity.
  - replace ((- Z.of_nat (length a) <=? Z.of_nat i)%Z && (Z.of_nat i <? 0)%Z) with false
      by (symmetry; apply andb_false_iff; right; apply Z.ltb_ge; lia).
    discriminate.
Qed.

(** [Dirichlet.Update(one)] with [one = zeros(i+1); one[i] = c] adds [c]
    to concentration parameter [i] only. *)
Lemma add_counts_one (ps : list R) (i : nat) (c : Z) :
  (i < length ps)%nat ->
  length (add_counts ps (repeat 0%Z i ++ [c])) = length ps /\
  forall j, nth j (add_counts ps (repeat 0%Z i ++ [c])) 0 =
            nth j ps 0 + (if Nat.eqb j i then IZR c else 0).
Proof.
  split; [apply add_counts_length|].
  revert i H; induction ps as [|p ps IH]; intros i Hi j; simpl in Hi; [lia|].
  destruct i as [|i]; simpl.
  - destruct ps as [|p' ps']; destruct j as [|j]; simpl; try ring.
    all: destruct j; simpl; ring.
  - destruct j as [|j]; simpl; [ring|]. apply IH. lia.
Qed.

Lemma mapM_ext {A B} (f f' : A -> M B) (xs : list A) (s : nat) :
  (forall x s0, f x s0 = f' x s0) -> mapM f xs s = mapM f' xs s.
Proof.
  intro Hf. revert s; induction xs as [|x xs IH]; intro s; simpl; [reflexivity|].
  unfold bind at 1 3. rewrite Hf. destruct (f' x s) as [[y s1]|e]; [|reflexivity].
  unfold bind. rewrite IH. reflexivity.
Qed.

Lemma Suite_Update_ext {K} (lik lik' : K -> list Z -> M R) hypos data s :
  (forall k s0, lik k data s0 = lik' k data s0) ->
  Suite_Update lik hypos data s = Suite_Update lik' hypos data s.
Proof.
  intro H. unfold Suite_Update, bind at 1 3. rewrite (mapM_ext _ (fun hp => l <- lik' (fst hp) data;; ret (fst hp, snd hp * l))).
  - reflexivity.
  - intros hp s0. unfold bind. rewrite H. reflexivity.
Qed.

(** ** Peeking at the posterior *)

(** [TrimMarginal] returns the probability mass left inside [low, high]. *)
Lemma TrimMarginal_mass pmf low high r :
  TrimMarginal pmf low high = Ok r ->
  snd r = np_sum (map snd (filter (fun vp => negb (Rltb (fst vp) low || Rltb high (fst vp))) pmf)).
Proof.
  unfold TrimMarginal, Pmf_Normalize. destruct (Req_dec_T _ 0); [discriminate|].
  intro H; injection H as <-. reflexivity.
Qed.

Lemma trimmed_masses (pct2 pct98 : Beta -> R) : forall pmfs posts trimmed,
  mapR (fun t => TrimMarginal (fst (fst t)) (snd (fst t)) (snd t))
    (combine (combine pmfs (map pct2 posts)) (map pct98 posts)) = Ok trimmed ->
  map snd trimmed =
  map (fun pb => np_sum (map snd (filter (fun vp => negb (Rltb (fst vp) (pct2 (snd pb))
                                                          || Rltb (pct98 (snd pb)) (fst vp)))
                                         (fst pb))))
      (combine pmfs posts).
Proof.
  induction pmfs as [|pmf pmfs IH]; intros [|b posts] trimmed H; simpl in H.
  - injection H as <-. reflexivity.
  - injection H as <-. reflexivity.
  - injection H as <-. reflexivity.
  - unfold rbind in H.
    destruct (TrimMarginal pmf (pct2 b) (pct98 b)) as [r|e] eqn:Er; [|discriminate].
    destruct (mapR _ _) as [rs|e] eqn:Ers; [|discriminate].
    injection H as <-. simpl. rewrite (TrimMarginal_mass _ _ _ _ Er), (IH posts rs Ers).
    reflexivity.
Qed.

(** [Peek] succeeds on [OversampledDirichlet(2)] with [data = [1]] when the
    prior table is the point mass at 1/2 and the percentiles are p/100. *)
Lemma Peek_example :
  exists d', Peek (fun _ _ => [(1 / 2, 1)]) (fun _ _ p => p / 100) (OversampledDirichlet_init 2)
               [1%Z] = Ok d'.
Proof.
  unfold Peek, TrimMarginals, TrimMarginal, Pmf_Normalize, Rltb. simpl.
  repeat match goal with
         | |- context [Rlt_dec ?a ?b] => destruct (Rlt_dec a b); try lra
         end.
  simpl. destruct (Req_dec_T _ 0) as [Z0|_]; [lra|]. eexists; reflexivity.
Qed.

(** The initial state of [Species2([3], k)]. *)
Lemma Species2_init_3 (k : nat) :
  Species2_init [3%nat] k = Ok (mkSpecies2 [3%nat] [1] [1; 1; 1]%Z k).
Proof. reflexivity. Qed.

(** [MarginalBeta] when the int64 sums do not wrap. *)
Lemma Species2_MarginalBeta_exact st n index alpha :
  py_index (params st) index = Ok alpha ->
  (- 2 ^ 63 <= fold_right Z.add 0%Z (firstn n (params st)) < 2 ^ 63)%Z ->
  (- 2 ^ 63 <= fold_right Z.add 0%Z (firstn n (params st)) - alpha < 2 ^ 63)%Z ->
  Species2_MarginalBeta st n index =
  Ok (mkBeta (IZR alpha) (IZR (fold_right Z.add 0%Z (firstn n (params st)) - alpha))).
Proof.
  intros Ha H1 H2. unfold Species2_MarginalBeta, i64_sum, rbind. rewrite Ha.
  rewrite (wrap64_small (fold_right _ _ _)) by exact H1.
  rewrite wrap64_small by exact H2. reflexivity.
Qed.

(** The parameters of a freshly built Species2-family suite are all 1. *)
Lemma Species2_init_params ns0 k st0 :
  Species2_init ns0 k = Ok st0 -> Forall (fun x => (0 < x)%Z) (params st0).
Proof.
  unfold Species2_init, py_last, rbind. destruct (py_index ns0 (-1)) as [l|e]; [|discriminate].
  intro H; injection H as <-. simpl. apply Forall_forall. intros x Hx.
  apply repeat_spec in Hx. lia.
Qed.

(** * Claims *)

(** C1 (amended): for the fixed N = 3 (candidate range [3]) and the flat
    prior, after [Update([d0, d1, d2])] with non-negative counts whose total
    plus 3 stays below 2^63 (so that no int64 sum wraps), the marginal of
    coordinate i is exactly Beta(1 + d_i, (N - 1) + sum(data) - d_i),
    whatever the draws. *)
Theorem Species2_MarginalBeta_after_Update (g : nat -> list R -> list R)
  (Hg : forall s sh, length (g s sh) = length sh) (k : nat) (d0 d1 d2 : Z) (s : nat)
  (Hd : (0 <= d0 /\ 0 <= d1 /\ 0 <= d2)%Z) (Htot : (3 + d0 + d1 + d2 < 2 ^ 63)%Z) :
  exists st0 st' s', Species2_init [3%nat] k = Ok st0 /\
    Species2_Update g st0 [d0; d1; d2] s = Ok (st', s') /\
    Species2_MarginalBeta st' 3 0 = Ok (mkBeta (IZR (1 + d0)) (IZR (2 + (d0 + d1 + d2) - d0))) /\
    Species2_MarginalBeta st' 3 1 = Ok (mkBeta (IZR (1 + d1)) (IZR (2 + (d0 + d1 + d2) - d1))) /\
    Species2_MarginalBeta st' 3 2 = Ok (mkBeta (IZR (1 + d2)) (IZR (2 + (d0 + d1 + d2) - d2))).
Proof.
  destruct Hd as (H0 & H1 & H2).
  pose proof (Z.pow_pos_nonneg 2 63 ltac:(lia) ltac:(lia)) as Hpow.
  destruct (Species2_Update_ok g Hg (mkSpecies2 [3%nat] [1] [1; 1; 1]%Z k) [d0; d1; d2] s)
    as [p Hp].
  { simpl; discriminate. }
  { simpl; intros n [<-|[]]; lia. }
  { simpl; lia. }
  { reflexivity. }
  { repeat constructor. }
  { cbn [forallb]. rewrite !(proj2 (in_int64_spec _)) by lia. reflexivity. }
  cbn [zipWith firstn skipn length app params] in Hp.
  unfold i64_add in Hp. rewrite !wrap64_small in Hp by lia.
  do 3 eexists. split; [apply Species2_init_3|]. split; [exact Hp|].
  split; [|split];
    [rewrite (Species2_MarginalBeta_exact _ _ _ (1 + d0)%Z)
    |rewrite (Species2_MarginalBeta_exact _ _ _ (1 + d1)%Z)
    |rewrite (Species2_MarginalBeta_exact _ _ _ (1 + d2)%Z)];
    solve [do 2 f_equal; apply f_equal; cbn [params firstn fold_right]; ring
          | reflexivity | cbn [params firstn fold_right]; lia].
Qed.

(** C1: the spec's parameters (1 + data[i], 1 + sum(data) - data[i]) are
    not those of the code: after [Update([3, 2, 1])] the marginal of
    coordinate 0 is Beta(4, 5), not Beta(4, 4). *)
Lemma Species2_MarginalBeta_counterexample :
  ~ (forall st0 st' s',
       Species2_init [3%nat] 1000 = Ok st0 ->
       Species2_Update (fun _ sh => sh) st0 [3; 2; 1]%Z 0%nat = Ok (st', s') ->
       Species2_MarginalBeta st' 3 0 = Ok (mkBeta (IZR (1 + 3)) (IZR (1 + (3 + 2 + 1) - 3)))).
Proof.
  intro H.
  destruct (Species2_Update_ok (fun _ sh => sh) (fun _ _ => eq_refl)
              (mkSpecies2 [3%nat] [1] [1; 1; 1]%Z 1000) [3; 2; 1]%Z 0) as [p Hp].
  { simpl; discriminate. }
  { simpl; intros n [<-|[]]; lia. }
  { simpl; lia. }
  { reflexivity. }
  { repeat constructor. }
  { reflexivity. }
  specialize (H _ _ _ (Species2_init_3 1000) Hp).
  unfold Species2_MarginalBeta in H; cbv -[IZR] in H.
  injection H as E. apply eq_IZR in E. discriminate E.
Qed.

Lemma Species2_MarginalBeta_after_Update_witness :
  (forall s sh, length ((fun (_ : nat) (x : list R) => x) s sh) = length sh) /\
  (0 <= 3 /\ 0 <= 2 /\ 0 <= 1)%Z /\ (3 + 3 + 2 + 1 < 2 ^ 63)%Z /\
  exists st0 st' s', Species2_init [3%nat] 1000 = Ok st0 /\
    Species2_Update (fun _ sh => sh) st0 [3; 2; 1]%Z 0%nat = Ok (st', s') /\
    Species2_MarginalBeta st' 3 0 = Ok (mkBeta (IZR (1 + 3)) (IZR (2 + (3 + 2 + 1) - 3))) /\
    Species2_MarginalBeta st' 3 1 = Ok (mkBeta (IZR (1 + 2)) (IZR (2 + (3 + 2 + 1) - 2))) /\
    Species2_MarginalBeta st' 3 2 = Ok (mkBeta (IZR (1 + 1)) (IZR (2 + (3 + 2 + 1) - 1))).
Proof.
  split; [reflexivity|]. split; [lia|]. split; [reflexivity|].
  exact (Species2_MarginalBeta_after_Update (fun _ sh => sh) (fun _ _ => eq_refl) 1000 3 2 1 0
           ltac:(lia) eq_refl).
Defined.

(** C5: in [SampleLikelihood] of Species2, Species3 and Species5 the
    log-likelihoods are shifted by their maximum before [exp]: the vector
    before the binomial correction contains 1 and no entry above 1. *)
Theorem vectorized_likelihoods_max_is_one :
  (forall g st data s v s',
     Species2_SampleLikelihood g st data s = Ok (v, s') ->
     exists u, In 1 u /\ Forall (fun x => x <= 1) u /\
       np_imap2 0 Rmult u (map (fun n => BinomialCoef n (length data)) (ns st)) = Ok v) /\
  (forall g st data s v s',
     Species3_SampleLikelihood g st data s = Ok (v, s') ->
     exists u, In 1 u /\ Forall (fun x => x <= 1) u /\
       np_imap2 0 Rmult u (map (fun n => BinomialCoef n (length data)) (ns st)) = Ok v) /\
  (forall g st m c s v s',
     Species5_SampleLikelihood g st m c s = Ok (v, s') ->
     In 1 v /\ Forall (fun x => x <= 1) v).
Proof.
  split; [|split].
  - intros g st data s v s'.
    unfold Species2_SampleLikelihood, bind at 1.
  destruct (draw_gamma _ _ _) as [[gammas s0]|e0]; cbv beta iota zeta; [|discriminate].
    rewrite bind_lift. destruct (mapR _ _) as [ll|e]; [|discriminate].
    rewrite bind_lift. destruct (scale_log_likes ll) as [u|e] eqn:Hu; [|discriminate].
    unfold lift. destruct (np_imap2 _ _ _ _) as [w|e] eqn:Hw; [|discriminate].
    intro H; injection H as <- _.
    apply scale_log_likes_spec in Hu. exists u. tauto.
  - intros g st data s v s'.
    unfold Species3_SampleLikelihood, bind at 1.
  destruct (draw_gamma _ _ _) as [[gammas s0]|e0]; cbv beta iota zeta; [|discriminate].
    rewrite bind_lift. destruct (py_index (ns st) 0) as [n0|e]; [|discriminate].
    rewrite bind_lift. destruct (if bc_ok _ _ then _ else _) as [tt|e]; [|discriminate].
    rewrite bind_lift. destruct (scale_log_likes _) as [u|e] eqn:Hu; [|discriminate].
    unfold lift. destruct (np_imap2 _ _ _ _) as [w|e] eqn:Hw; [|discriminate].
    intro H; injection H as <- _.
    apply scale_log_likes_spec in Hu. exists u. tauto.
  - intros g st m c s v s'.
    unfold Species5_SampleLikelihood, bind at 1.
  destruct (draw_gamma _ _ _) as [[gammas s0]|e0]; cbv beta iota zeta; [|discriminate].
    rewrite bind_lift. destruct (py_index (ns st) 0) as [n0|e]; [|discriminate].
    rewrite bind_lift. destruct (py_index _ _) as [x|e]; [|discriminate].
    unfold lift. destruct (scale_log_likes _) as [u|e] eqn:Hu; [|discriminate].
    intro H; injection H as <- _.
    exact (scale_log_likes_spec _ _ Hu).
Qed.

(** C7: [Species2.Update] draws 1000 samples whatever the iteration count
    [k] it was constructed with, while its sibling [Species3.Update] draws
    exactly [k] (each draw advances the generator by one). *)
Theorem Species2_Update_ignores_iterations (g : nat -> list R -> list R)
  (Hg : forall s sh, length (g s sh) = length sh) (k s : nat) :
  exists st0 st2 st3,
    Species2_init [3%nat] k = Ok st0 /\
    Species2_Update g st0 [3; 2; 1]%Z s = Ok (st2, (s + 1000)%nat) /\
    Species3_Update g st0 [3; 2; 1]%Z s = Ok (st3, (s + k)%nat).
Proof.
  set (st0 := mkSpecies2 [3%nat] [1] [1; 1; 1]%Z k).
  destruct (Species2_Update_ok g Hg st0 [3; 2; 1]%Z s) as [p2 Hp2].
  { simpl; discriminate. }
  { simpl; intros n [<-|[]]; lia. }
  { simpl; lia. }
  { reflexivity. }
  { repeat constructor. }
  { reflexivity. }
  destruct (Species3_Update_ok g Hg st0 [3; 2; 1]%Z s 3) as [p3 Hp3];
    try reflexivity; try (simpl; lia); repeat constructor.
  do 3 eexists. split; [apply Species2_init_3|]. split; [exact Hp2|exact Hp3].
Qed.

Lemma Species2_Update_ignores_iterations_witness :
  (forall s sh, length ((fun (_ : nat) (x : list R) => x) s sh) = length sh) /\
  exists st0 st2 st3,
    Species2_init [3%nat] 10 = Ok st0 /\
    Species2_Update (fun _ sh => sh) st0 [3; 2; 1]%Z 0%nat = Ok (st2, (0 + 1000)%nat) /\
    Species3_Update (fun _ sh => sh) st0 [3; 2; 1]%Z 0%nat = Ok (st3, (0 + 10)%nat).
Proof.
  split; [reflexivity|].
  exact (Species2_Update_ignores_iterations (fun _ sh => sh) (fun _ _ => eq_refl) 10 0).
Defined.




(** C10 (amended): [Species6(ns).Update(data)] never completes. It raises
    the error of the first hypothesis whose [Peek] fails; when every [Peek]
    succeeds it raises AttributeError, [iterations] being unset (and
    ValueError from the normalization of an empty suite when [ns] is
    empty). *)
Theorem Species6_Update_never_completes (g : nat -> list R -> list R)
  (cd : nat -> table -> R) (bp : R -> R -> table) (bpct : R -> R -> R -> R)
  (ns0 : list nat) (data : list Z) (s : nat) :
  Species6_Update g cd bp bpct (Species6_init ns0) data s =
    match mapR (fun hp => d <-- Peek bp bpct (fst hp) data;; Ok (d, snd hp))
                 (sp_hypos (Species6_init ns0)) with
    | Err e => Err e
    | Ok [] => Err ValueError
    | Ok _ => Err AttributeError
    end /\
  forall r, Species6_Update g cd bp bpct (Species6_init ns0) data s <> Ok r.
Proof.
  rewrite (Species6_Update_no_iterations g cd bp bpct (Species6_init ns0) data s eq_refl).
  split; [reflexivity|].
  intro r. destruct (mapR _ _) as [[|? ?]|e]; discriminate.
Qed.

(** C10 fails as stated: for [ns = [2]] and [data = [1, 1, 1]] the [Peek]
    phase already raises ValueError, since [params[:3] += data] cannot
    broadcast a slice of length 2 against 3 counts. *)
Lemma Species6_Update_never_completes_counterexample :
  ~ (forall (g : nat -> list R -> list R) (cd : nat -> table -> R) (bp : R -> R -> table)
       (bpct : R -> R -> R -> R) (ns0 : list nat) (data : list Z) (s : nat),
       data <> [] -> Species6_Update g cd bp bpct (Species6_init ns0) data s = Err AttributeError).
Proof.
  intro H.
  specialize (H (fun _ sh => sh) (fun _ _ => 0) (fun _ _ => []) (fun _ _ _ => 0)
                [2%nat] [1; 1; 1]%Z 0%nat ltac:(discriminate)).
  rewrite (Species6_Update_no_iterations _ _ _ _ (Species6_init [2%nat]) _ _ eq_refl) in H.
  lazy in H. discriminate H.
Qed.

(** C6 (amended): the likelihood [Species.Likelihood] assigns to a
    candidate N is the SUM of [iterations] Monte-Carlo draws from that N's
    Dirichlet model (draw t being the multinomial probability of [data] at
    a normalized gamma sample), times C(N, m). [Species.Update] computes
    every likelihood from the hypotheses as they were before the call,
    reweights and normalizes, and only then replaces each Dirichlet model
    by its update with the full batch. Since every N uses the same count
    k >= 1, the suite update with the sum returns the same hypotheses and
    normalized weights as with the average. *)
Theorem Species_Likelihood_sum_of_draws (g : nat -> list R -> list R) (cd : nat -> table -> R)
  (k : nat) (d : Dirichlet) (data : list Z) (s : nat) (Ho : d_oversampled d = false)
  (Hp : Forall (fun x => 0 < x) (d_params d)) :
  Species_Likelihood g cd (Some k) d data s =
    Ok (fold_right Rplus 0
          (map (fun t => multinomial_prob
                           (let gs := g t (d_params d) in map (fun x => x / np_sum gs) gs) data)
               (seq s k)) * BinomialCoef (d_n d) (length data), (s + k)%nat) /\
  (forall st st' s', sp_class st = CSpecies -> Species_Update g cd st data s = Ok (st', s') ->
     exists ls, mapM (fun hp => Species_Likelihood g cd (sp_iterations st) (fst hp) data)
                  (sp_hypos st) s = Ok (ls, s') /\
       np_sum (zipWith (fun hp l => snd hp * l) (sp_hypos st) ls) <> 0 /\
       sp_hypos st' =
         zipWith (fun hp l => (Dirichlet_Update (fst hp) data,
                               snd hp * l / np_sum (zipWith (fun hp l => snd hp * l) (sp_hypos st) ls)))
           (sp_hypos st) ls) /\
  ((1 <= k)%nat -> forall hypos,
     Suite_Update (Species_Likelihood g cd (Some k)) hypos data s =
     Suite_Update (Species_Likelihood_avg g cd (Some k)) hypos data s).
Proof.
  split; [|split].
  - unfold Species_Likelihood, bind at 1. cbn [lift of_option]. unfold bind.
    rewrite (mc_sumR_draws _ _ (fun t => Dirichlet_Likelihood_plain g cd d data t Ho Hp)).
    unfold ret. f_equal. f_equal. ring.
  - intros st st' s' Hc H. unfold Species_Update, bind in H.
    destruct (Suite_Update _ _ _ s) as [[hs s1]|e] eqn:Es; [|discriminate].
    unfold ret in H. injection H as <- <-.
    unfold Suite_Likelihood in Es. rewrite Hc in Es.
    destruct (Suite_Update_char _ _ _ _ _ _ Es) as (ls & E1 & Hz & ->).
    exists ls. split; [exact E1|]. split; [exact Hz|]. simpl. rewrite map_zipWith. reflexivity.
  - intros Hk hypos. rewrite !Suite_Update_unfold.
    rewrite (mapM_post
               (fun hp => l <- Species_Likelihood g cd (Some k) (fst hp) data;; ret (fst hp, snd hp * l))
               (fun hp => l <- Species_Likelihood_avg g cd (Some k) (fst hp) data;;
                          ret (fst hp, snd hp * l))
               (fun kp => (fst kp, snd kp / INR k))).
    + destruct (mapM _ hypos s) as [[hs s1]|e]; [|reflexivity].
      assert (Hk0 : INR k <> 0) by (apply not_0_INR; lia).
      unfold Pmf_Normalize. rewrite map_map. cbn [fst snd].
      rewrite <- (map_map snd (fun x => x / INR k)), np_sum_div.
      destruct (Req_dec_T (np_sum (map snd hs)) 0) as [Z0|Z0];
        destruct (Req_dec_T (np_sum (map snd hs) / INR k) 0) as [Z1|Z1]; try reflexivity.
      * exfalso. apply Z1. rewrite Z0. unfold Rdiv. apply Rmult_0_l.
      * exfalso. apply Z0. apply Rmult_eq_reg_r with (/ INR k); [|apply Rinv_neq_0_compat, Hk0].
        rewrite Rmult_0_l. exact Z1.
      * cbn [fst]. f_equal. f_equal. rewrite map_map. apply map_ext. intros [x w]. simpl.
        f_equal. field. split; assumption.
    + intros hp s0. unfold bind, ret. rewrite Species_Likelihood_avg_scaled by exact Hk.
      destruct (Species_Likelihood g cd (Some k) (fst hp) data s0) as [[l s1]|e]; [|reflexivity].
      simpl. f_equal. f_equal. f_equal. field. apply not_0_INR. lia.
Qed.

Lemma Species_Likelihood_sum_of_draws_witness :
  d_oversampled (Dirichlet_init 1) = false /\ Forall (fun x => 0 < x) (d_params (Dirichlet_init 1)) /\
  Species_Likelihood (fun _ sh => sh) (fun _ _ => 0) (Some 2%nat) (Dirichlet_init 1) [1%Z] 0%nat =
    Ok (fold_right Rplus 0
          (map (fun t => multinomial_prob
                           (let gs := (fun _ sh => sh) t (d_params (Dirichlet_init 1)) in
                            map (fun x => x / np_sum gs) gs) [1%Z])
               (seq 0 2)) * BinomialCoef (d_n (Dirichlet_init 1)) (length [1%Z]), (0 + 2)%nat).
Proof.
  assert (Hp : Forall (fun x => 0 < x) (d_params (Dirichlet_init 1)))
    by (simpl; constructor; [lra | constructor]).
  split; [reflexivity|]. split; [exact Hp|].
  exact (proj1 (Species_Likelihood_sum_of_draws (fun _ sh => sh) (fun _ _ => 0) 2
                  (Dirichlet_init 1) [1%Z] 0 eq_refl Hp)).
Defined.

(** C6 fails as stated: with [iterations = 2], N = 1 and [data = [1]]
    every draw has likelihood 1 and C(1, 1) = 1, so the average times the
    coefficient is 1 while [Species.Likelihood] returns 2. *)
Lemma Species_Likelihood_sum_of_draws_counterexample :
  ~ (forall (g : nat -> list R -> list R) (cd : nat -> table -> R) (k : nat) (d : Dirichlet)
       (data : list Z) (s : nat),
       d_oversampled d = false ->
       Species_Likelihood g cd (Some k) d data s =
         Ok (fold_right Rplus 0
               (map (fun t => multinomial_prob
                                (let gs := g t (d_params d) in map (fun x => x / np_sum gs) gs) data)
                    (seq s k)) / INR k * BinomialCoef (d_n d) (length data), (s + k)%nat)).
Proof.
  intro H.
  specialize (H (fun _ sh => sh) (fun _ _ => 0) 2%nat (Dirichlet_init 1) [1%Z] 0%nat eq_refl).
  unfold Species_Likelihood, bind at 1 in H. cbn [lift of_option] in H. unfold bind in H.
  assert (Hp : Forall (fun x => 0 < x) (d_params (Dirichlet_init 1)))
    by (simpl; constructor; [lra | constructor]).
  rewrite (mc_sumR_draws _ _ (fun t => Dirichlet_Likelihood_plain (fun _ sh => sh) (fun _ _ => 0)
                                     (Dirichlet_init 1) [1%Z] t eq_refl Hp)) in H.
  unfold ret in H. injection H as E.
  unfold multinomial_prob, BinomialCoef, np_sum in E. simpl in E.
  field_simplify in E. lra.
Qed.

(** C8 (amended): the vectorized updates do not check the total of the
    reweighted weights: when it is zero, [Species2.Update],
    [Species3.Update] and [Species5.UpdateOne] still return normally,
    dividing by the zero total ([np_normalize]; NaN in numpy). *)
Theorem vectorized_Update_no_zero_guard (g : nat -> list R -> list R) :
  (forall st data s like s1 probs1 pa,
     mc_sum 1000 (Species2_SampleLikelihood g st data) (np_zeros (length (ns st))) s
       = Ok (like, s1) ->
     np_imap2 0 Rmult (probs st) like = Ok probs1 -> np_sum probs1 = 0 ->
     i64_iadd_prefix (params st) (length data) data = Ok pa ->
     Species2_Update g st data s = Ok (mkSpecies2 (ns st) (np_normalize probs1) pa (iterations st), s1)) /\
  (forall st data s like s1 probs1 pa,
     mc_sum (iterations st) (Species3_SampleLikelihood g st data) (np_zeros (length (ns st))) s
       = Ok (like, s1) ->
     np_imap2 0 Rmult (probs st) like = Ok probs1 -> np_sum probs1 = 0 ->
     i64_iadd_prefix (params st) (length data) data = Ok pa ->
     Species3_Update g st data s = Ok (mkSpecies2 (ns st) (np_normalize probs1) pa (iterations st), s1)) /\
  (forall st m c s likes s1 likes' probs1,
     mc_sum (iterations st) (Species5_SampleLikelihood g st m c) (np_zeros (length (ns st))) s
       = Ok (likes, s1) ->
     np_imap2 0 Rmult likes (unseen_species (ns st) m) = Ok likes' ->
     np_imap2 0 Rmult (probs st) likes' = Ok probs1 -> np_sum probs1 = 0 ->
     Species5_UpdateOne g st m c s = Ok (with_probs st (np_normalize probs1), s1)).
Proof.
  split; [|split].
  - intros st data s like s1 probs1 pa Em Ep _ Ea.
    unfold Species2_Update, bind at 1. rewrite Em. rewrite bind_lift, Ep, bind_lift, Ea.
    reflexivity.
  - intros st data s like s1 probs1 pa Em Ep _ Ea.
    unfold Species3_Update, bind at 1. rewrite Em. rewrite bind_lift, Ep, bind_lift, Ea.
    reflexivity.
  - intros st m c s likes s1 likes' probs1 Em El Ep _.
    unfold Species5_UpdateOne, bind at 1. rewrite Em. rewrite bind_lift, El, bind_lift, Ep.
    reflexivity.
Qed.

(** C8 fails as stated: [Species3([1], iterations=0).Update([1])] reweights
    the single weight to 0 and still returns normally. *)
Lemma vectorized_Update_no_zero_guard_counterexample :
  ~ (forall (g : nat -> list R -> list R) st data s like s1 probs1,
       mc_sum (iterations st) (Species3_SampleLikelihood g st data) (np_zeros (length (ns st))) s
         = Ok (like, s1) ->
       np_imap2 0 Rmult (probs st) like = Ok probs1 -> np_sum probs1 = 0 ->
       exists e, Species3_Update g st data s = Err e).
Proof.
  intro H.
  destruct (H (fun _ sh => sh) (mkSpecies2 [1%nat] [1] [1%Z] 0) [1%Z] 0%nat [0] 0%nat [1 * 0]
              eq_refl eq_refl ltac:(unfold np_sum; simpl; ring)) as [e He].
  discriminate He.
Qed.

(** C9 (amended): Species2 does not check the candidate range against the
    batch. On any well-shaped Species2 (every candidate N in [1, max N],
    at most max N observed categories, counts within int64), [Update]
    returns normally, also when some candidate N is smaller than the number
    m of observed categories; each such N silently gets weight 0, since
    C(N, m) = 0. *)
Theorem Species2_Update_accepts_infeasible_range (g : nat -> list R -> list R)
  (Hg : forall s sh, length (g s sh) = length sh) (ns0 : list nat) (k : nat) (st0 : Species2)
  (data : list Z) (s : nat)
  (Hi : Species2_init ns0 k = Ok st0)
  (Hn : forall n, In n ns0 -> (1 <= n <= length (params st0))%nat)
  (Hd : (length data <= length (params st0))%nat)
  (Hdata : forallb in_int64 data = true) :
  exists st', Species2_Update g st0 data s = Ok (st', (s + 1000)%nat) /\
    forall j, (j < length ns0)%nat -> (nth j ns0 0%nat < length data)%nat ->
      nth j (probs st') 0 = 0.
Proof.
  destruct (Species2_init_inv _ _ _ Hi) as [(Hns & Hne & Hl & _) _].
  pose proof (Species2_init_params _ _ _ Hi) as Hpos.
  subst ns0.
  destruct (Species2_Update_ok g Hg st0 data s Hne Hn Hd Hl Hpos Hdata) as [p E].
  eexists; split; [exact E|].
  intros j Hj Hm. exact (Species2_Update_zero_at g st0 data s _ _ j E Hl Hj Hm).
Qed.

Lemma Species2_Update_accepts_infeasible_range_witness :
  (forall s sh, length ((fun (_ : nat) (x : list R) => x) s sh) = length sh) /\
  Species2_init [1; 2]%nat 1 = Ok (mkSpecies2 [1; 2]%nat [1; 1]%R [1; 1]%Z 1) /\
  (forall n, In n [1; 2]%nat ->
     (1 <= n <= length (params (mkSpecies2 [1; 2]%nat [1; 1]%R [1; 1]%Z 1)))%nat) /\
  (length [1; 1]%Z <= length (params (mkSpecies2 [1; 2]%nat [1; 1]%R [1; 1]%Z 1)))%nat /\
  forallb in_int64 [1; 1]%Z = true /\
  exists st', Species2_Update (fun _ sh => sh) (mkSpecies2 [1; 2]%nat [1; 1]%R [1; 1]%Z 1)
                [1; 1]%Z 0%nat = Ok (st', (0 + 1000)%nat) /\
    forall j, (j < length [1; 2]%nat)%nat -> (nth j [1; 2]%nat 0%nat < length [1; 1]%Z)%nat ->
      nth j (probs st') 0 = 0.
Proof.
  assert (Hn : forall n, In n [1; 2]%nat ->
     (1 <= n <= length (params (mkSpecies2 [1; 2]%nat [1; 1]%R [1; 1]%Z 1)))%nat)
    by (intros n [<-|[<-|[]]]; simpl; lia).
  split; [reflexivity|]. split; [reflexivity|]. split; [exact Hn|]. split; [simpl; lia|].
  split; [reflexivity|].
  exact (Species2_Update_accepts_infeasible_range (fun _ sh => sh) (fun _ _ => eq_refl)
           [1; 2]%nat 1 (mkSpecies2 [1; 2]%nat [1; 1]%R [1; 1]%Z 1) [1; 1]%Z 0 eq_refl Hn
           ltac:(simpl; lia) eq_refl).
Defined.

(** C9 fails as stated: [Species2([1, 2]).Update([1, 1])] has the candidate
    N = 1 below m = 2, yet it returns normally. *)
Lemma Species2_Update_accepts_infeasible_range_counterexample :
  ~ (forall (g : nat -> list R -> list R) ns0 k st0 data s,
       Species2_init ns0 k = Ok st0 ->
       (exists n, In n ns0 /\ (n < length data)%nat) ->
       exists e, Species2_Update g st0 data s = Err e).
Proof.
  intro H.
  destruct (H (fun _ sh => sh) [1; 2]%nat 1%nat (mkSpecies2 [1; 2]%nat [1; 1]%R [1; 1]%Z 1)
              [1; 1]%Z 0%nat eq_refl) as [e He].
  { exists 1%nat. split; [left; reflexivity | simpl; lia]. }
  destruct (Species2_Update_ok (fun _ sh => sh) (fun _ _ => eq_refl)
              (mkSpecies2 [1; 2]%nat [1; 1]%R [1; 1]%Z 1) [1; 1]%Z 0%nat) as [p Hp].
  - discriminate.
  - intros n [<-|[<-|[]]]; simpl; lia.
  - simpl; lia.
  - reflexivity.
  - repeat constructor.
  - reflexivity.
  - rewrite Hp in He. discriminate He.
Qed.

(** C3: Species5 and Species4 handle a batch one category at a time. At
    step m = i + 1, the likelihood of every candidate N is computed from
    the state before the step and multiplied by N - m + 1; the weights are
    renormalized; only then is the concentration state changed, and only
    at category i, by that category's count (for Species5, an int64
    addition on the int64 parameter array, the count being an int64). *)
Theorem incremental_updates_one_category (g : nat -> list R -> list R)
  (cd : nat -> table -> R) :
  (forall i c rest st s st' s',
     Species5_loop g i (c :: rest) st s = Ok (st', s') ->
     exists likes s1 likes' probs1 pa,
       mc_sum (iterations st) (Species5_SampleLikelihood g st (S i) c)
         (np_zeros (length (ns st))) s = Ok (likes, s1) /\
       np_imap2 0 Rmult likes (map (fun n => IZR (Z.of_nat n - Z.of_nat (S i) + 1)) (ns st))
         = Ok likes' /\
       np_imap2 0 Rmult (probs st) likes' = Ok probs1 /\
       in_int64 c = true /\ length pa = length (params st) /\
       (forall j, nth j pa 0%Z =
                  if Nat.eqb j i then i64_add (nth j (params st) 0%Z) c else nth j (params st) 0%Z) /\
       Species5_loop g (S i) rest (mkSpecies2 (ns st) (np_normalize probs1) pa (iterations st)) s1
         = Ok (st', s')) /\
  (forall i c rest st s st' s',
     sp_class st = CSpecies4 ->
     Species4_loop g cd i (c :: rest) st s = Ok (st', s') ->
     exists hs s1,
       Suite_Update (fun d one =>
                       k <- lift (of_option AttributeError (sp_iterations st));;
                       like <- mc_sumR k (Hypo_Likelihood g cd d one) 0;;
                       ret (like * IZR (Z.of_nat (d_n d) - Z.of_nat (S i) + 1)))
         (sp_hypos st) (repeat 0%Z i ++ [c]) s = Ok (hs, s1) /\
       map fst hs = map fst (sp_hypos st) /\
       (forall d, (i < length (d_params d))%nat -> forall j,
          nth j (d_params (Dirichlet_Update d (repeat 0%Z i ++ [c]))) 0 =
          nth j (d_params d) 0 + (if Nat.eqb j i then IZR c else 0)) /\
       Species4_loop g cd (S i) rest
         (mkSpecies CSpecies4
            (map (fun hp => (Dirichlet_Update (fst hp) (repeat 0%Z i ++ [c]), snd hp)) hs)
            (sp_iterations st)) s1 = Ok (st', s')).
Proof.
  split.
  - intros i c rest st s st' s' H. simpl in H. unfold bind at 1 in H.
    destruct (Species5_UpdateOne g st (S i) c s) as [[st1 s1]|e] eqn:E1; [|discriminate].
    unfold Species5_UpdateOne, bind at 1 in E1.
    destruct (mc_sum _ _ _ s) as [[likes s2]|e] eqn:Em; [|discriminate].
    rewrite bind_lift in E1.
    destruct (np_imap2 0 Rmult likes _) as [likes'|e] eqn:El; [|discriminate].
    rewrite bind_lift in E1.
    destruct (np_imap2 0 Rmult (probs st) likes') as [probs1|e] eqn:Ep; [|discriminate].
    unfold ret in E1. injection E1 as <- <-.
    rewrite bind_lift in H. simpl in H.
    unfold i64_iadd_at in H. destruct (in_int64 c) eqn:Hc; [|discriminate].
    destruct (np_iadd_at i64_add (params st) (Z.of_nat i) c) as [pa|e] eqn:Ea; [|discriminate].
    destruct (np_iadd_at_spec _ _ _ _ _ Ea) as [Hl Hn].
    exists likes, s2, likes', probs1, pa. auto 8.
  - intros i c rest st s st' s' Hc H. simpl in H. unfold bind at 1 in H.
    destruct (Species_Update g cd st (repeat 0%Z i ++ [c]) s) as [[st1 s1]|e] eqn:E1;
      [|discriminate].
    unfold Species_Update, bind at 1 in E1.
    destruct (Suite_Update _ _ _ s) as [[hs s2]|e] eqn:Es; [|discriminate].
    unfold ret in E1. injection E1 as <- <-.
    exists hs, s2. split; [|split; [|split]].
    + rewrite <- Es. apply Suite_Update_ext. intros d s0.
      unfold Suite_Likelihood. rewrite Hc. unfold Species4_Likelihood.
      rewrite length_app, repeat_length. simpl.
      replace (i + 1)%nat with (S i) by lia. reflexivity.
    + exact (Suite_Update_keys _ _ _ _ _ _ Es).
    + intros d Hd j. unfold Dirichlet_Update; simpl. apply (proj2 (add_counts_one _ _ c Hd)).
    + rewrite Hc in H. exact H.
Qed.


(** C4: after [Peek(data)] an OversampledDirichlet keeps its parameters
    and stores as weight the product, over the stick-breaking prior
    conditionals, of the probability mass each keeps inside the 2nd-98th
    percentile range of the matching marginal of [params + data]; its
    [Likelihood] is [Dirichlet.Likelihood] (whose draws come from the
    object's own restricted [Random]) times that weight. *)
Theorem Peek_weight_and_Likelihood (g : nat -> list R -> list R) (cd : nat -> table -> R)
  (bp : R -> R -> table) (bpct : R -> R -> R -> R) (d d' : Dirichlet) (data : list Z)
  (Ho : d_oversampled d = true) (E : Peek bp bpct d data = Ok d') :
  d_params d' = d_params d /\ d_n d' = d_n d /\
  exists posts w,
    np_iadd_prefix 0 Rplus (d_params d) (length data) (map IZR data) = Ok posts /\
    d_weight d' = Some w /\
    w = fold_right Rmult 1
          (map (fun pb => np_sum (map snd (filter (fun vp =>
                   negb (Rltb (fst vp) (bpct (b_alpha (snd pb)) (b_beta (snd pb)) 2)
                         || Rltb (bpct (b_alpha (snd pb)) (b_beta (snd pb)) 98) (fst vp)))
                   (fst pb))))
             (combine (map (fun b => bp (b_alpha b) (b_beta b)) (MakeConditionals (d_params d)))
                (MakeMarginals posts))) /\
    forall data2 s, Hypo_Likelihood g cd d' data2 s =
                    (l <- Dirichlet_Likelihood g cd d' data2;; ret (l * w)) s.
Proof.
  unfold Peek, TrimMarginals in E. cbn [d_conditionals of_option rbind d_params] in E.
  destruct (np_iadd_prefix 0 Rplus (d_params d) (length data) (map IZR data)) as [posts|e] eqn:Ep;
    [|discriminate].
  cbn [rbind] in E.
  destruct (mapR _ _) as [trimmed|e] eqn:Et; [|discriminate].
  injection E as <-. simpl. split; [reflexivity|]. split; [reflexivity|].
  exists posts, (fold_right Rmult 1 (map snd trimmed)).
  split; [reflexivity|]. split; [reflexivity|]. split.
  - rewrite (trimmed_masses (fun b => bpct (b_alpha b) (b_beta b) 2)
               (fun b => bpct (b_alpha b) (b_beta b) 98) _ _ _ Et).
    reflexivity.
  - intros data2 s. unfold Hypo_Likelihood. simpl. rewrite Ho.
    unfold OversampledDirichlet_Likelihood, bind. simpl.
    destruct (Dirichlet_Likelihood _ _ _ _ s) as [[l s1]|e]; reflexivity.
Qed.

Lemma Peek_weight_and_Likelihood_witness :
  d_oversampled (OversampledDirichlet_init 2) = true /\
  exists d', Peek (fun _ _ => [(1 / 2, 1)]) (fun _ _ p => p / 100) (OversampledDirichlet_init 2)
               [1%Z] = Ok d' /\
    d_params d' = [1; 1] /\ d_n d' = 2%nat.
Proof.
  split; [reflexivity|].
  destruct Peek_example as [d' E]. exists d'. split; [exact E|].
  destruct (Peek_weight_and_Likelihood (fun _ sh => sh) (fun _ _ => 0) _ _
              (OversampledDirichlet_init 2) d' [1%Z] eq_refl E) as (H1 & H2 & _).
  split; [exact H1 | exact H2].
Defined.

(** * Further properties of species.py *)

Lemma pair_le_total (a b : Z * String.string) : pair_le a b = false -> pair_le b a = true.
Proof.
  unfold pair_le. rewrite (Z.compare_antisym (fst b) (fst a)).
  destruct (Z.compare (fst b) (fst a)); simpl; try discriminate; try reflexivity.
  rewrite (String.compare_antisym (snd a) (snd b)).
  destruct (String.compare (snd b) (snd a)); simpl; congruence.
Qed.

Lemma pair_le_fst (a b : Z * String.string) : pair_le a b = true -> (fst a <= fst b)%Z.
Proof.
  unfold pair_le. destruct (Z.compare (fst a) (fst b)) eqn:E; intro H.
  - apply Z.compare_eq in E. rewrite E. apply Z.le_refl.
  - apply Z.compare_lt_iff in E. apply Z.lt_le_incl. exact E.
  - discriminate.
Qed.

Lemma insert_pair_perm x l : Permutation (insert_pair x l) (x :: l).
Proof.
  induction l as [|y l IH]; simpl; [reflexivity|].
  destruct (pair_le x y); [reflexivity|].
  rewrite IH. apply perm_swap.
Qed.

Lemma sort_pairs_perm l : Permutation (sort_pairs l) l.
Proof.
  induction l as [|x l IH]; simpl; [reflexivity|].
  rewrite insert_pair_perm. apply perm_skip, IH.
Qed.

Lemma insert_pair_sorted x l :
  Sorted (fun a b => pair_le a b = true) l -> Sorted (fun a b => pair_le a b = true) (insert_pair x l).
Proof.
  induction 1 as [|y l Hs IH Hd]; simpl.
  - constructor; constructor.
  - destruct (pair_le x y) eqn:Exy.
    + constructor; [constructor; assumption | constructor; assumption].
    + constructor; [exact IH|].
      destruct l as [|z l]; simpl.
      * constructor. apply pair_le_total. exact Exy.
      * destruct (pair_le x z); constructor.
        -- apply pair_le_total. exact Exy.
        -- inversion Hd; assumption.
Qed.

Lemma sort_pairs_sorted l : Sorted (fun a b => pair_le a b = true) (sort_pairs l).
Proof. induction l as [|x l IH]; simpl; [constructor|]. apply insert_pair_sorted, IH. Qed.

Lemma Sorted_map {A B} (P : A -> A -> Prop) (Q : B -> B -> Prop) (f : A -> B) l :
  (forall a b, P a b -> Q (f a) (f b)) -> Sorted P l -> Sorted Q (map f l).
Proof.
  intros H. induction 1 as [|a l Hs IH Hd]; simpl; constructor; [exact IH|].
  destruct Hd; simpl; constructor. apply H. assumption.
Qed.

Lemma sort_pairs_id l : Sorted (fun a b => pair_le a b = true) l -> sort_pairs l = l.
Proof.
  induction 1 as [|x l Hs IH Hd]; simpl; [reflexivity|].
  rewrite IH. destruct Hd as [|y l' Hxy]; simpl; [reflexivity|].
  rewrite Hxy. reflexivity.
Qed.

Lemma Subject_Sort_props (sb : Subject) :
  code (Subject_Sort sb) = code sb /\
  Permutation (species (Subject_Sort sb)) (species sb) /\
  Sorted (fun a b => (a <= b)%Z) (GetCounts (Subject_Sort sb)) /\
  Subject_Sort (Subject_Sort sb) = Subject_Sort sb.
Proof.
  split; [reflexivity|]. split; [apply sort_pairs_perm|]. split.
  - unfold GetCounts, Subject_Sort; simpl.
    apply (Sorted_map _ _ fst _ pair_le_fst), sort_pairs_sorted.
  - unfold Subject_Sort; simpl. rewrite (sort_pairs_id _ (sort_pairs_sorted _)). reflexivity.
Qed.

(** X1: [Subject.Sort] keeps the code, only reorders the (count, species) pairs, leaves the counts of [GetCounts] in ascending order, and sorting again changes nothing. *)
Theorem Subject_Sort_spec (sb : Subject) :
  code (Subject_Sort sb) = code sb /\
  Permutation (species (Subject_Sort sb)) (species sb) /\
  Sorted (fun a b => (a <= b)%Z) (GetCounts (Subject_Sort sb)) /\
  Subject_Sort (Subject_Sort sb) = Subject_Sort sb.
Proof. exact (Subject_Sort_props sb). Qed.

Lemma py_index_nat {A} (xs : list A) (k : nat) (v : A) (d : A) :
  py_index xs (Z.of_nat k) = Ok v -> (k < length xs)%nat /\ nth k xs d = v.
Proof.
  unfold py_index.
  destruct ((0 <=? Z.of_nat k)%Z && (Z.of_nat k <? Z.of_nat (length xs))%Z) eqn:Hb.
  - rewrite Nat2Z.id. destruct (nth_error xs k) as [w|] eqn:Ew; cbn [of_option]; [|discriminate].
    intro H; injection H as <-. split.
    + apply nth_error_Some. congruence.
    + apply nth_error_nth. exact Ew.
  - replace ((- Z.of_nat (length xs) <=? Z.of_nat k)%Z && (Z.of_nat k <? 0)%Z) with false
      by (symmetry; apply andb_false_iff; right; apply Z.ltb_ge; lia).
    discriminate.
Qed.

Section ReadDataFacts.
Variable py_int : String.string -> result Z.


(** One step of the loop, when it succeeds. *)
Lemma ReadData_rows_step t rest subject started subjects out :
  ReadData_rows py_int (t :: rest) subject started subjects = Ok out ->
  exists k, (3 <= length t)%nat /\ py_int (nth 2 t String.EmptyString) = Ok k /\
    let fresh := negb (String.eqb (row_code t) (code subject)) in
    ReadData_rows py_int rest
      (Subject_Add (if fresh then Subject_init (row_code t) else subject) (row_name t) k)
      (fresh || started)
      (if fresh && started then subjects ++ [Subject_Sort subject] else subjects) = Ok out.
Proof.
  simpl. destruct (py_index t 0) as [c|e] eqn:E0; [|discriminate]. cbn [rbind].
  destruct (py_index t 1) as [sp|e] eqn:E1; [|discriminate]. cbn [rbind].
  destruct (py_index t 2) as [fd|e] eqn:E2; [|discriminate]. cbn [rbind].
  destruct (py_int fd) as [k|e] eqn:Ek; [|discriminate]. cbn [rbind].
  destruct (py_index_nat t 0 c String.EmptyString E0) as [_ H0].
  destruct (py_index_nat t 1 sp String.EmptyString E1) as [_ H1].
  destruct (py_index_nat t 2 fd String.EmptyString E2) as [H2l H2].
  intro H. exists k. split; [lia|]. split; [rewrite H2; exact Ek|].
  unfold row_code, row_name. rewrite H0, H1. exact H.
Qed.



Lemma ReadData_rows_wellformed : forall rows subject started subjects out,
  ReadData_rows py_int rows subject started subjects = Ok out ->
  Forall (fun t => (3 <= length t)%nat /\ exists k, py_int (nth 2 t String.EmptyString) = Ok k) rows.
Proof.
  induction rows as [|t rest IH]; intros subject started subjects out H; [constructor|].
  destruct (ReadData_rows_step _ _ _ _ _ _ H) as (k & Hl & Hk & H').
  constructor; [split; [exact Hl | exists k; exact Hk]|]. exact (IH _ _ _ _ H').
Qed.

(** X2: [ReadData] returns only when the file has a header row and every row after it has at least three fields whose third parses with [int]. *)
Theorem ReadData_needs_wellformed_rows rows subs :
  ReadData py_int rows = Returns subs ->
  exists header body, rows = header :: body /\
    Forall (fun t => (3 <= length t)%nat /\ exists k, py_int (nth 2 t String.EmptyString) = Ok k) body.
Proof.
  destruct rows as [|header body]; simpl; [discriminate|].
  destruct (ReadData_rows py_int body _ false []) as [out|e] eqn:E; simpl; [|discriminate].
  intros _. exists header, body. split; [reflexivity|]. exact (ReadData_rows_wellformed _ _ _ _ _ E).
Qed.

Lemma codes_change_snoc p xs a b :
  codes_change p (xs ++ [a]) -> b <> a -> codes_change p (xs ++ [a; b]).
Proof.
  revert p; induction xs as [|x xs IH]; intros p H Hb; simpl in *.
  - destruct H as [Ha _]. auto.
  - destruct H as [Hx H]. split; [exact Hx|]. exact (IH x H Hb).
Qed.

Lemma ReadData_rows_codes : forall rows subject started subjects out,
  (started = false -> subjects = [] /\ code subject = String.EmptyString) ->
  (started = true -> codes_change String.EmptyString (map code (subjects ++ [subject]))) ->
  ReadData_rows py_int rows subject started subjects = Ok out ->
  codes_change String.EmptyString (map code out).
Proof.
  induction rows as [|t rest IH]; intros subject started subjects out Hf Ht H.
  - simpl in H. injection H as <-. destruct started.
    + exact (Ht eq_refl).
    + destruct (Hf eq_refl) as [-> _]. exact I.
  - destruct (ReadData_rows_step _ _ _ _ _ _ H) as (k & _ & _ & H').
    refine (IH _ _ _ _ _ _ H').
    + destruct (String.eqb (row_code t) (code subject)), started; simpl; try discriminate.
      intros _. auto.
    + destruct (String.eqb (row_code t) (code subject)) eqn:Eq, started; simpl; intro Hc.
      * specialize (Ht eq_refl). rewrite map_app in *. exact Ht.
      * discriminate Hc.
      * rewrite !map_app. simpl.
        apply String.eqb_neq in Eq.
        specialize (Ht eq_refl). rewrite map_app in Ht. simpl in Ht.
        rewrite <- app_assoc. exact (codes_change_snoc _ _ _ _ Ht Eq).
      * destruct (Hf eq_refl) as [-> Hcode]. simpl. split; [|exact I].
        apply String.eqb_neq in Eq. rewrite Hcode in Eq. exact Eq.
Qed.

(** X3: The subjects [ReadData] returns have codes that differ from one subject to the next, and the first is not the empty code of the initial [Subject('')]. *)
Theorem ReadData_codes_change rows subs :
  ReadData py_int rows = Returns subs -> codes_change String.EmptyString (map code subs).
Proof.
  destruct rows as [|header body]; simpl; [discriminate|].
  destruct (ReadData_rows py_int body _ false []) as [out|e] eqn:E; simpl; [|discriminate].
  intro H; injection H as <-.
  refine (ReadData_rows_codes _ _ _ _ _ _ _ E); [intros _; split; reflexivity | discriminate].
Qed.

Lemma ReadData_rows_sorted : forall rows subject started subjects out,
  Forall (fun sb => Sorted (fun a b => (a <= b)%Z) (GetCounts sb)) subjects ->
  ReadData_rows py_int rows subject started subjects = Ok out ->
  Forall (fun sb => Sorted (fun a b => (a <= b)%Z) (GetCounts sb)) (removelast out).
Proof.
  induction rows as [|t rest IH]; intros subject started subjects out Hs H.
  - simpl in H. injection H as <-. destruct started.
    + rewrite removelast_last. exact Hs.
    + rewrite app_nil_r. induction subjects as [|a l IHl]; [constructor|].
      inversion Hs; subst. destruct l; simpl; [constructor|]. constructor; [assumption|].
      apply IHl; assumption.
  - destruct (ReadData_rows_step _ _ _ _ _ _ H) as (k & _ & _ & H').
    refine (IH _ _ _ _ _ H').
    destruct (_ && started); [|exact Hs].
    apply Forall_app. split; [exact Hs|]. constructor; [|constructor].
    apply (Subject_Sort_props subject).
Qed.

(** X4: Every subject [ReadData] returns except the last has its counts in ascending order: [Sort] is only called on a subject when a new code starts. *)
Theorem ReadData_sorted_but_last rows subs :
  ReadData py_int rows = Returns subs ->
  Forall (fun sb => Sorted (fun a b => (a <= b)%Z) (GetCounts sb)) (removelast subs).
Proof.
  destruct rows as [|header body]; simpl; [discriminate|].
  destruct (ReadData_rows py_int body _ false []) as [out|e] eqn:E; simpl; [|discriminate].
  intro H; injection H as <-. exact (ReadData_rows_sorted _ _ _ _ _ (Forall_nil _) E).
Qed.



Lemma last_default_irrel {A} (b d d' : A) l : last (b :: l) d = last (b :: l) d'.
Proof.
  revert b; induction l as [|c l IH]; intro b; [reflexivity|].
  change (last (c :: l) d = last (c :: l) d'). apply IH.
Qed.

Lemma last_cons_default {A} (a d : A) l : last (a :: l) d = last l a.
Proof.
  destruct l as [|b l]; [reflexivity|].
  change (last (b :: l) d = last (b :: l) a). apply last_default_irrel.
Qed.

(** After a successful step, the subject being filled has the row's code. *)
Lemma ReadData_rows_step_code t rest subject started subjects out :
  ReadData_rows py_int (t :: rest) subject started subjects = Ok out ->
  exists k sb st sbs, py_int (nth 2 t String.EmptyString) = Ok k /\
    code sb = row_code t /\ ReadData_rows py_int rest sb st sbs = Ok out.
Proof.
  intro H. destruct (ReadData_rows_step _ _ _ _ _ _ H) as (k & _ & Hk & H').
  eexists k, _, _, _. split; [exact Hk|]. split; [|exact H'].
  destruct (String.eqb (row_code t) (code subject)) eqn:Eq; simpl; [|reflexivity].
  symmetry. apply String.eqb_eq. exact Eq.
Qed.

Lemma ReadData_rows_prefix : forall xs ys subject started subjects out,
  ReadData_rows py_int (xs ++ ys) subject started subjects = Ok out ->
  exists sb st sbs, ReadData_rows py_int ys sb st sbs = Ok out /\
    code sb = last (map row_code xs) (code subject).
Proof.
  induction xs as [|t xs IH]; intros ys subject started subjects out H.
  - exists subject, started, subjects. split; [exact H | reflexivity].
  - simpl app in H. destruct (ReadData_rows_step_code _ _ _ _ _ _ H) as (k & sb & st & sbs & _ & Hc & H').
    destruct (IH _ _ _ _ _ H') as (sb2 & st2 & sbs2 & H2 & Hc2).
    exists sb2, st2, sbs2. split; [exact H2|]. rewrite Hc2, Hc. simpl map.
    rewrite last_cons_default. reflexivity.
Qed.

Lemma ReadData_rows_run : forall run cnts sb sbs out,
  Forall (fun t => row_code t = code sb) run ->
  Forall2 (fun t k => py_int (nth 2 t String.EmptyString) = Ok k) run cnts ->
  ReadData_rows py_int run sb true sbs = Ok out ->
  out = sbs ++ [mkSubject (code sb) (species sb ++ combine cnts (map row_name run))].
Proof.
  induction run as [|t run IH]; intros cnts sb sbs out Hc Hp H.
  - inversion Hp; subst. simpl in H. injection H as <-. rewrite app_nil_r.
    destruct sb; reflexivity.
  - inversion Hp as [|? k ? cnts' Hk Hp']; subst. inversion Hc as [|? ? Ht Hc']; subst.
    destruct (ReadData_rows_step _ _ _ _ _ _ H) as (k' & _ & Hk' & H').
    rewrite Hk in Hk'. injection Hk' as <-.
    rewrite Ht, String.eqb_refl in H'. simpl in H'.
    rewrite (IH cnts' (Subject_Add sb (row_name t) k) sbs out) by (simpl; assumption).
    simpl. rewrite <- app_assoc. reflexivity.
Qed.

(** X5: When the file ends with a run of rows of one code [c] that differs from the code of the row before it, the last subject [ReadData] returns is [c] with that run's (count, species) pairs in file order, unsorted. *)
Theorem ReadData_last_subject_file_order header pre run c cnts subs :
  ReadData py_int (header :: pre ++ run) = Returns subs ->
  run <> [] -> Forall (fun t => row_code t = c) run ->
  c <> last (map row_code pre) String.EmptyString ->
  Forall2 (fun t k => py_int (nth 2 t String.EmptyString) = Ok k) run cnts ->
  exists subs', subs = subs' ++ [mkSubject c (combine cnts (map row_name run))].
Proof.
  intros H Hne Hc Hprev Hp. simpl in H.
  destruct (ReadData_rows py_int (pre ++ run) _ false []) as [out|e] eqn:E; simpl in H;
    [|discriminate]. injection H as <-.
  destruct (ReadData_rows_prefix _ _ _ _ _ _ E) as (sb & st & sbs & E2 & Hcode).
  simpl in Hcode.
  destruct run as [|t run']; [contradiction Hne; reflexivity|].
  inversion Hc as [|? ? Ht Hc']; subst. inversion Hp as [|? k ? cnts' Hk Hp']; subst.
  destruct (ReadData_rows_step _ _ _ _ _ _ E2) as (k' & _ & Hk' & H').
  rewrite Hk in Hk'. injection Hk' as <-.
  replace (String.eqb (row_code t) (code sb)) with false in H'
    by (symmetry; apply String.eqb_neq; rewrite Hcode; exact Hprev).
  simpl in H'.
  pose proof (ReadData_rows_run run' cnts' (Subject_Add (Subject_init (row_code t)) (row_name t) k)
                _ out Hc' Hp' H') as HR. rewrite HR.
  eexists. reflexivity.
Qed.

Lemma GetCounts_Add sb n k : GetCounts (Subject_Add sb n k) = GetCounts sb ++ [k].
Proof. unfold GetCounts, Subject_Add. simpl. rewrite map_app. reflexivity. Qed.

Lemma GetCounts_Sort sb : Permutation (GetCounts (Subject_Sort sb)) (GetCounts sb).
Proof. unfold GetCounts. apply Permutation_map, (Subject_Sort_props sb). Qed.

Lemma ReadData_rows_counts : forall rows cnts sb sbs out,
  Forall2 (fun t k => py_int (nth 2 t String.EmptyString) = Ok k) rows cnts ->
  ReadData_rows py_int rows sb true sbs = Ok out ->
  Permutation (flat_map GetCounts out) (flat_map GetCounts (sbs ++ [sb]) ++ cnts).
Proof.
  induction rows as [|t rows IH]; intros cnts sb sbs out Hp H.
  - inversion Hp; subst. simpl in H. injection H as <-. rewrite app_nil_r. reflexivity.
  - inversion Hp as [|? k ? cnts' Hk Hp']; subst.
    destruct (ReadData_rows_step _ _ _ _ _ _ H) as (k' & _ & Hk' & H').
    rewrite Hk in Hk'. injection Hk' as <-.
    cbv zeta in H'. rewrite orb_true_r, andb_true_r in H'.
    rewrite (IH _ _ _ _ Hp' H').
    rewrite !flat_map_app. simpl. rewrite !app_nil_r, GetCounts_Add.
    destruct (negb _); simpl.
    + rewrite flat_map_app. simpl. rewrite app_nil_r, GetCounts_Sort.
      rewrite <- !app_assoc. reflexivity.
    + rewrite <- !app_assoc. reflexivity.
Qed.

Lemma ReadData_rows_blank : forall blank ys sb out,
  Forall (fun t => row_code t = String.EmptyString) blank -> code sb = String.EmptyString ->
  ReadData_rows py_int (blank ++ ys) sb false [] = Ok out ->
  exists sb', code sb' = String.EmptyString /\ ReadData_rows py_int ys sb' false [] = Ok out.
Proof.
  induction blank as [|t blank IH]; intros ys sb out Hb Hc H.
  - exists sb. split; assumption.
  - inversion Hb as [|? ? Ht Hb']; subst. simpl app in H.
    destruct (ReadData_rows_step _ _ _ _ _ _ H) as (k & _ & _ & H').
    rewrite Ht, Hc, String.eqb_refl in H'. simpl in H'.
    refine (IH _ _ _ Hb' _ H'). simpl. exact Hc.
Qed.

(** X6: When the rows after the header are rows with an empty code followed by rows whose first code is not empty, the counts of the returned subjects are a permutation of the counts of those later rows: the empty-code rows go into the initial subject, which is dropped. *)
Theorem ReadData_counts_preserved header blank rest cnts subs :
  ReadData py_int (header :: blank ++ rest) = Returns subs ->
  Forall (fun t => row_code t = String.EmptyString) blank ->
  (forall t rest', rest = t :: rest' -> row_code t <> String.EmptyString) ->
  Forall2 (fun t k => py_int (nth 2 t String.EmptyString) = Ok k) rest cnts ->
  Permutation (flat_map GetCounts subs) cnts.
Proof.
  intros H Hb Hr Hp. simpl in H.
  destruct (ReadData_rows py_int (blank ++ rest) _ false []) as [out|e] eqn:E; simpl in H;
    [|discriminate]. injection H as <-.
  destruct (ReadData_rows_blank _ _ (Subject_init String.EmptyString) _ Hb eq_refl E)
    as (sb & Hc & E2).
  destruct rest as [|t rest'].
  - inversion Hp; subst. simpl in E2. injection E2 as <-. reflexivity.
  - inversion Hp as [|? k ? cnts' Hk Hp']; subst.
    destruct (ReadData_rows_step _ _ _ _ _ _ E2) as (k' & _ & Hk' & H').
    rewrite Hk in Hk'. injection Hk' as <-.
    replace (String.eqb (row_code t) (code sb)) with false in H'
      by (symmetry; apply String.eqb_neq; rewrite Hc; exact (Hr t rest' eq_refl)).
    simpl in H'. rewrite (ReadData_rows_counts _ _ _ _ _ Hp' H'). reflexivity.
Qed.

End ReadDataFacts.

Lemma offset_bounds (i n : Z) (dx : R) :
  (2 <= n)%Z -> (0 <= i <= n - 1)%Z -> 0 <= dx ->
  - dx <= - dx + 2 * dx * IZR i / IZR (n - 1) <= dx.
Proof.
  intros Hn Hi Hdx.
  assert (Hpos : 0 < IZR (n - 1)) by (apply IZR_lt; lia).
  assert (H0 : 0 <= IZR i) by (apply IZR_le; lia).
  assert (H1 : IZR i <= IZR (n - 1)) by (apply IZR_le; lia).
  split.
  - assert (0 <= 2 * dx * IZR i / IZR (n - 1)).
    { unfold Rdiv. apply Rmult_le_pos; [|left; apply Rinv_0_lt_compat; exact Hpos].
      apply Rmult_le_pos; lra. }
    lra.
  - assert (2 * dx * IZR i / IZR (n - 1) <= 2 * dx).
    { apply (Rmult_le_reg_r (IZR (n - 1))); [exact Hpos|].
      unfold Rdiv. rewrite Rmult_assoc, Rinv_l by lra. rewrite Rmult_1_r.
      apply Rmult_le_compat_l; lra. }
    lra.
Qed.

Lemma OffsetCurve_offsets curve (i n : Z) dx dy :
  (2 <= n)%Z -> (0 <= i <= n - 1)%Z -> 0 <= dx -> 0 <= dy ->
  exists xoff yoff,
    OffsetCurve curve i n dx dy = Returns (map (fun p => (fst p + xoff, snd p + yoff)) curve) /\
    - dx <= xoff <= dx /\ - dy <= yoff <= dy /\
    (i = 0%Z -> xoff = - dx /\ yoff = - dy) /\ (i = (n - 1)%Z -> xoff = dx /\ yoff = dy).
Proof.
  intros Hn Hi Hdx Hdy.
  assert (Hpos : IZR (n - 1) <> 0) by (apply not_0_IZR; lia).
  exists (- dx + 2 * dx * IZR i / IZR (n - 1)), (- dy + 2 * dy * IZR i / IZR (n - 1)).
  split.
  - unfold OffsetCurve. replace (Z.eqb (n - 1) 0) with false by (symmetry; apply Z.eqb_neq; lia).
    reflexivity.
  - split; [apply offset_bounds; assumption|]. split; [apply offset_bounds; assumption|].
    split; intros ->.
    + unfold Rdiv. rewrite !Rmult_0_r, !Rmult_0_l. split; ring.
    + unfold Rdiv. rewrite !Rmult_assoc, !Rinv_r by exact Hpos. split; ring.
Qed.

(** X7: For [n >= 2] and [0 <= i <= n-1], [OffsetCurve] shifts every point by the same offsets [xoff] in [-dx, dx] and [yoff] in [-dy, dy], which are [-dx, -dy] for the first curve and [dx, dy] for the last. *)
Theorem OffsetCurve_spread curve (i n : Z) dx dy :
  (2 <= n)%Z -> (0 <= i <= n - 1)%Z -> 0 <= dx -> 0 <= dy ->
  exists xoff yoff,
    OffsetCurve curve i n dx dy = Returns (map (fun p => (fst p + xoff, snd p + yoff)) curve) /\
    - dx <= xoff <= dx /\ - dy <= yoff <= dy /\
    (i = 0%Z -> xoff = - dx /\ yoff = - dy) /\ (i = (n - 1)%Z -> xoff = dx /\ yoff = dy).
Proof. exact (OffsetCurve_offsets curve i n dx dy). Qed.

(** X8: [PlotCurves] on a single curve raises ZeroDivisionError, since [OffsetCurve] divides by [n-1 = 0]. *)
Theorem PlotCurves_one_curve (curve : list (R * R)) :
  PlotCurves [curve] = Raises ZeroDivisionError.
Proof. reflexivity. Qed.

Lemma PlotCurves_loop_empty_curve : forall curves (i n : Z),
  (2 <= n)%Z -> In [] curves -> PlotCurves_loop i n curves = Raises (PyError ValueError).
Proof.
  induction curves as [|c cs IH]; intros i n Hn Hin; [destruct Hin|].
  simpl. unfold OffsetCurve at 1. replace (Z.eqb (n - 1) 0) with false by (symmetry; apply Z.eqb_neq; lia).
  destruct Hin as [->|Hin]; [reflexivity|].
  destruct c as [|p c']; [reflexivity|]. simpl map.
  rewrite (IH (i + 1)%Z n Hn Hin). reflexivity.
Qed.

(** X9: [PlotCurves] on two or more curves raises ValueError when one of them is empty: [zip( *[])] cannot be unpacked into [xs, ys]. *)
Theorem PlotCurves_empty_curve (curves : list (list (R * R))) :
  (2 <= length curves)%nat -> In [] curves -> PlotCurves curves = Raises (PyError ValueError).
Proof.
  intros Hl Hin. apply PlotCurves_loop_empty_curve; [lia | exact Hin].
Qed.

Lemma PlotCurves_loop_series : forall curves (i n : Z),
  (2 <= n)%Z -> (0 <= i)%Z -> (i + Z.of_nat (length curves) <= n)%Z ->
  Forall (fun c => c <> []) curves ->
  exists series, PlotCurves_loop i n curves = Returns series /\
    Forall2 (fun c sr => exists xo yo, - (3 / 10) <= xo <= 3 / 10 /\ - (3 / 10) <= yo <= 3 / 10 /\
               sr = (map (fun p => fst p + xo) c, map (fun p => snd p + yo) c)) curves series.
Proof.
  induction curves as [|c cs IH]; intros i n Hn Hi Hl Hne.
  - exists []. split; [reflexivity | constructor].
  - inversion Hne as [|? ? Hc Hne']; subst. simpl length in Hl.
    destruct (OffsetCurve_offsets c i n (3 / 10) (3 / 10) Hn ltac:(lia) ltac:(lra) ltac:(lra))
      as (xo & yo & Ho & Hx & Hy & _).
    destruct (IH (i + 1)%Z n Hn ltac:(lia) ltac:(lia) Hne') as (series & Hs & Hf).
    simpl. rewrite Ho. destruct c as [|p c']; [contradiction Hc; reflexivity|].
    simpl map. rewrite Hs.
    eexists. split; [reflexivity|]. constructor; [|exact Hf].
    exists xo, yo. split; [exact Hx|]. split; [exact Hy|].
    rewrite !map_map. reflexivity.
Qed.

(** X10: [PlotCurves] on two or more non-empty curves plots one series per curve, in order, each the curve's xs and ys shifted by offsets within [0.3]. *)
Theorem PlotCurves_series (curves : list (list (R * R))) :
  (2 <= length curves)%nat -> Forall (fun c => c <> []) curves ->
  exists series, PlotCurves curves = Returns series /\
    Forall2 (fun c sr => exists xo yo, - (3 / 10) <= xo <= 3 / 10 /\ - (3 / 10) <= yo <= 3 / 10 /\
               sr = (map (fun p => fst p + xo) c, map (fun p => snd p + yo) c)) curves series.
Proof.
  intros Hl Hne. apply PlotCurves_loop_series; [lia | lia | lia | exact Hne].
Qed.

(** X11: [JitterCurve] draws two random numbers per point and moves each point by at most [dx] in x and [dy] in y. *)
Theorem JitterCurve_bounded (rnd : nat -> R) (Hr : forall k, 0 <= rnd k < 1) dx dy :
  0 <= dx -> 0 <= dy -> forall curve s,
  exists out, JitterCurve rnd curve dx dy s = Ok (out, (s + 2 * length curve)%nat) /\
    Forall2 (fun p q => Rabs (fst q - fst p) <= dx /\ Rabs (snd q - snd p) <= dy) curve out.
Proof.
  intros Hdx Hdy curve. induction curve as [|p ps IH]; intro s.
  - exists []. split; [unfold JitterCurve, ret; rewrite Nat.add_0_r; reflexivity | constructor].
  - destruct (IH (S (S s))) as (out & Ho & Hf).
    eexists. split.
    + simpl. unfold bind, uniform. rewrite Ho. unfold ret.
      replace (S (S s) + 2 * length ps)%nat with (s + S (length ps + S (length ps + 0)))%nat by lia.
      reflexivity.
    + constructor; [|exact Hf]. simpl.
      destruct (Hr s), (Hr (S s)).
      split; apply Rabs_le; split; nra.
Qed.

Lemma od_sticks_spec (cd : nat -> table -> R) : forall conds f s,
  exists ps f', od_sticks cd conds f s = Ok ((ps, f'), (s + length conds)%nat) /\
    length ps = length conds /\ np_sum ps + f' = f /\
    ((forall k c, 0 <= cd k c <= 1) -> 0 <= f -> Forall (fun x => 0 <= x) ps /\ 0 <= f').
Proof.
  induction conds as [|c cs IH]; intros f s.
  - exists [], f. split; [unfold od_sticks, ret; rewrite Nat.add_0_r; reflexivity|].
    split; [reflexivity|]. split; [unfold np_sum; simpl; ring|].
    intros _ Hf. split; [constructor | exact Hf].
  - destruct (IH (f * (1 - cd s c)) (S s)) as (ps & f' & E & Hl & Hs & Hp).
    exists (cd s c * f :: ps), f'. split.
    + simpl. unfold bind, cdf_random. rewrite E. unfold ret. simpl.
      rewrite <- plus_n_Sm. reflexivity.
    + split; [simpl; rewrite Hl; reflexivity|]. split.
      * unfold np_sum in *. simpl. rewrite Rplus_assoc, Hs. ring.
      * intros Hd Hf. destruct (Hd s c) as [H0 H1].
        destruct (Hp Hd) as [Hps Hf']; [nra|].
        split; [constructor; [nra | exact Hps] | exact Hf'].
Qed.

Lemma np_set_at_last {A} (xs : list A) (y x : A) :
  np_set_at (xs ++ [y]) (-1) x = Ok (xs ++ [x]).
Proof.
  unfold np_set_at, py_index. rewrite length_app. simpl length.
  replace ((0 <=? -1)%Z && _) with false by reflexivity.
  replace ((- Z.of_nat (length xs + 1) <=? -1)%Z && (-1 <? 0)%Z) with true
    by (symmetry; apply andb_true_iff; split; [apply Z.leb_le; lia | reflexivity]).
  replace (Z.to_nat (Z.of_nat (length xs + 1) + -1)) with (length xs) by lia.
  rewrite nth_error_app2, Nat.sub_diag by lia. simpl of_option. cbn [rbind].
  replace (-1 <? 0)%Z with true by reflexivity.
  replace (Z.to_nat (Z.of_nat (length (xs ++ [y])) + -1)) with (length xs)
    by (rewrite length_app; simpl; lia).
  rewrite firstn_app, firstn_all, Nat.sub_diag, firstn_O, app_nil_r.
  rewrite skipn_app. replace (S (length xs) - length xs)%nat with 1%nat by lia.
  rewrite skipn_all2 by lia. reflexivity.
Qed.

Lemma OversampledDirichlet_Random_sums (cd : nat -> table -> R) (d : Dirichlet) conds :
  d_conditionals d = Some conds -> (length conds < d_n d)%nat -> forall s,
  exists ps, OversampledDirichlet_Random cd d s = Ok (ps, (s + length conds)%nat) /\
    length ps = d_n d /\ np_sum ps = 1 /\
    ((forall k c, 0 <= cd k c <= 1) -> Forall (fun x => 0 <= x) ps).
Proof.
  intros Hc Hl s.
  destruct (od_sticks_spec cd conds 1 s) as (ps & f' & E & Hpl & Hs & Hp).
  remember (d_n d - length conds - 1)%nat as k eqn:Hk.
  exists (ps ++ repeat 0 k ++ [f']).
  unfold OversampledDirichlet_Random. rewrite bind_lift. rewrite Hc. cbn [of_option].
  unfold bind at 1. rewrite E. cbn [fst snd].
  rewrite Hpl. replace (Nat.leb (length conds) (d_n d)) with true
    by (symmetry; apply Nat.leb_le; lia).
  replace (d_n d - length conds)%nat with (S k) by lia.
  assert (Hr : forall (j : nat), repeat 0 (S j) = repeat 0 j ++ [0])
    by (intro j; induction j as [|j IHj]; simpl; [reflexivity | rewrite <- IHj; reflexivity]).
  rewrite Hr, app_assoc, np_set_at_last.
  rewrite <- app_assoc. split; [reflexivity|].
  split; [rewrite !length_app, repeat_length; simpl; lia|]. split.
  - clear Hr. unfold np_sum in *. rewrite !fold_right_app. simpl.
    assert (Hz : forall j a, fold_right Rplus a (repeat 0 j) = a)
      by (intro j; induction j as [|j IHj]; intro a; simpl; [reflexivity | rewrite IHj; ring]).
    rewrite Hz. rewrite Rplus_0_r.
    assert (Hf : forall (l : list R) a, fold_right Rplus a l = fold_right Rplus 0 l + a)
      by (intro l; induction l as [|b l IHl]; intro a; simpl; [ring | rewrite IHl; ring]).
    rewrite Hf. exact Hs.
  - intro Hd. destruct (Hp Hd) as [Hps Hf']; [lra|].
    apply Forall_app. split; [exact Hps|]. apply Forall_app. split.
    + apply Forall_forall. intros x Hx. apply repeat_spec in Hx. lra.
    + constructor; [exact Hf' | constructor].
Qed.

(** X12: When there are fewer conditionals than [n], [OversampledDirichlet.Random] draws one number per conditional and returns [n] values that sum to 1, all non-negative when the draws lie in [0, 1]. *)
Theorem OversampledDirichlet_Random_simplex (cd : nat -> table -> R) (d : Dirichlet) conds :
  d_conditionals d = Some conds -> (length conds < d_n d)%nat -> forall s,
  exists ps, OversampledDirichlet_Random cd d s = Ok (ps, (s + length conds)%nat) /\
    length ps = d_n d /\ np_sum ps = 1 /\
    ((forall k c, 0 <= cd k c <= 1) -> Forall (fun x => 0 <= x) ps).
Proof. exact (OversampledDirichlet_Random_sums cd d conds). Qed.

(** X13: [OversampledDirichlet.Random] raises AttributeError when no conditionals are set, and IndexError when there are more conditionals than [n] or [n = 0]. *)
Theorem OversampledDirichlet_Random_errors (cd : nat -> table -> R) (d : Dirichlet) (s : nat) :
  (d_conditionals d = None -> OversampledDirichlet_Random cd d s = Err AttributeError) /\
  (forall conds, d_conditionals d = Some conds -> (d_n d < length conds \/ d_n d = 0)%nat ->
     OversampledDirichlet_Random cd d s = Err IndexError).
Proof.
  split.
  - intro Hc. unfold OversampledDirichlet_Random. rewrite bind_lift, Hc. reflexivity.
  - intros conds Hc Hn. destruct (od_sticks_spec cd conds 1 s) as (ps & f' & E & Hpl & _ & _).
    unfold OversampledDirichlet_Random. rewrite bind_lift, Hc. cbn [of_option].
    unfold bind at 1. rewrite E. cbn [fst snd]. rewrite Hpl.
    destruct Hn as [Hn|Hn].
    + replace (Nat.leb (length conds) (d_n d)) with false
        by (symmetry; apply Nat.leb_gt; lia). reflexivity.
    + rewrite Hn. destruct conds as [|c cs].
      * destruct ps; [|discriminate]. reflexivity.
      * reflexivity.
Qed.

Lemma conditionals_from_spec : forall ps t, t = np_sum ps ->
  length (conditionals_from t ps) = (length ps - 1)%nat /\
  forall i, (S i < length ps)%nat ->
    nth i (conditionals_from t ps) (mkBeta 0 0) = mkBeta (nth i ps 0) (np_sum (skipn (S i) ps)).
Proof.
  induction ps as [|x rest IH]; intros t Ht.
  - split; [reflexivity|]. intros i Hi. simpl in Hi. lia.
  - destruct rest as [|y rest'].
    + split; [reflexivity|]. intros i Hi. simpl in Hi. lia.
    + assert (Ht' : t - x = np_sum (y :: rest')) by (rewrite Ht; unfold np_sum; simpl; ring).
      destruct (IH (t - x) Ht') as [Hl Hn].
      change (conditionals_from t (x :: y :: rest'))
        with (mkBeta x (t - x) :: conditionals_from (t - x) (y :: rest')).
      split; [simpl length in *; rewrite Hl; lia|].
      intros [|i] Hi.
      * simpl. rewrite Ht'. reflexivity.
      * simpl nth. rewrite Hn by (simpl length in *; lia). reflexivity.
Qed.

(** X14: [MakeConditionals(ps)] returns one Beta per parameter but the last; the [i]-th is [Beta(ps[i], sum(ps[i+1:]))]. *)
Theorem MakeConditionals_stick_breaking (ps : list R) :
  length (MakeConditionals ps) = (length ps - 1)%nat /\
  forall i, (S i < length ps)%nat ->
    nth i (MakeConditionals ps) (mkBeta 0 0) = mkBeta (nth i ps 0) (np_sum (skipn (S i) ps)).
Proof. exact (conditionals_from_spec ps (np_sum ps) eq_refl). Qed.

Lemma Peek_conditionals bp bpct d data d' :
  Peek bp bpct d data = Ok d' ->
  d_n d' = d_n d /\ d_params d' = d_params d /\
  exists conds, d_conditionals d' = Some conds /\ length conds = (length (d_params d) - 1)%nat.
Proof.
  unfold Peek, TrimMarginals. cbn [d_conditionals of_option rbind d_params].
  destruct (np_iadd_prefix 0 Rplus (d_params d) (length data) (map IZR data)) as [posts|e];
    [|discriminate]. cbn [rbind].
  destruct (mapR _ _) as [trimmed|e] eqn:Et; [|discriminate].
  intro H; injection H as <-. simpl. split; [reflexivity|]. split; [reflexivity|].
  eexists. split; [reflexivity|].
  apply mapR_length in Et. rewrite !length_combine, !length_map in Et.
  rewrite length_app, length_map, length_skipn, length_map.
  destruct (conditionals_from_spec (d_params d) _ eq_refl) as [Hl _].
  unfold MakeConditionals in *. rewrite Hl in *.
  assert (Hle : (length trimmed <= length (d_params d) - 1)%nat)
    by (rewrite Et; etransitivity; [apply Nat.le_min_l | apply Nat.le_min_l]).
  lia.
Qed.

(** X15: After a successful [Peek] on a Dirichlet with [n >= 1] parameters, [Random] draws [n-1] numbers and returns [n] values summing to 1. *)
Theorem Peek_then_Random_simplex (cd : nat -> table -> R) bp bpct d data d' :
  length (d_params d) = d_n d -> (1 <= d_n d)%nat -> Peek bp bpct d data = Ok d' -> forall s,
  exists ps, OversampledDirichlet_Random cd d' s = Ok (ps, (s + (d_n d - 1))%nat) /\
    length ps = d_n d /\ np_sum ps = 1.
Proof.
  intros Hl Hn E s. destruct (Peek_conditionals _ _ _ _ _ E) as (Hn' & _ & conds & Hc & Hcl).
  destruct (OversampledDirichlet_Random_sums cd d' conds Hc ltac:(lia) s) as (ps & E2 & H1 & H2 & _).
  exists ps. rewrite Hcl, Hl in E2. rewrite Hn' in H1. split; [exact E2|]. split; assumption.
Qed.

Lemma nth_zipWith_Z (f : Z -> Z -> Z) (a b : list Z) j :
  (j < length a)%nat -> (j < length b)%nat ->
  nth j (zipWith f a b) 0%Z = f (nth j a 0%Z) (nth j b 0%Z).
Proof.
  revert a b; induction j as [|j IH]; intros [|x a] [|y b] Ha Hb; simpl in *; try lia.
  all: first [reflexivity | apply IH; lia].
Qed.

(** [params[:m] += data] with [m = len(data)]. *)
Lemma np_iadd_prefix_Z (add : Z -> Z -> Z) (p data p' : list Z) :
  np_iadd_prefix 0%Z add p (length data) data = Ok p' ->
  length p' = length p /\
  forall j, (j < length p)%nat ->
    nth j p' 0%Z = if (j <? length data)%nat then add (nth j p 0%Z) (nth j data 0%Z)
                   else nth j p 0%Z.
Proof.
  unfold np_iadd_prefix, np_imap2, rbind. rewrite length_firstn.
  destruct (Nat.eqb_spec (Nat.min (length data) (length p)) (length data)) as [E|E].
  - intro H; injection H as <-.
    assert (Hle : (length data <= length p)%nat) by lia.
    rewrite length_app, zipWith_length, length_firstn, length_skipn. split; [lia|].
    intros j Hj. destruct (Nat.lt_ge_cases j (length data)) as [Hjd|Hjd].
    + rewrite app_nth1 by (rewrite zipWith_length, length_firstn; lia).
      rewrite nth_zipWith_Z by (rewrite ?length_firstn; lia).
      rewrite nth_firstn. destruct (Nat.ltb_spec j (length data)); [reflexivity|lia].
    + rewrite app_nth2 by (rewrite zipWith_length, length_firstn; lia).
      rewrite zipWith_length, length_firstn, nth_skipn.
      destruct (Nat.ltb_spec j (length data)); [lia|].
      replace (length data + (j - Nat.min (Nat.min (length data) (length p)) (length data)))%nat
        with j by lia. reflexivity.
  - destruct (Nat.eqb_spec (length data) 1) as [E1|E1]; [|discriminate].
    intro H; injection H as <-.
    destruct p as [|x p]; [rewrite firstn_nil, skipn_nil; simpl; split; [reflexivity | intros; simpl in *; lia]|].
    rewrite E1 in E. simpl in E. lia.
Qed.

Lemma i64_iadd_prefix_spec (p data p' : list Z) :
  i64_iadd_prefix p (length data) data = Ok p' ->
  forallb in_int64 data = true /\ length p' = length p /\
  forall j, (j < length p)%nat ->
    nth j p' 0%Z = if (j <? length data)%nat then i64_add (nth j p 0%Z) (nth j data 0%Z)
                   else nth j p 0%Z.
Proof.
  unfold i64_iadd_prefix. destruct (forallb in_int64 data); [|discriminate].
  intro H. split; [reflexivity|]. exact (np_iadd_prefix_Z _ _ _ _ H).
Qed.

(** [params[:m] += data] fails when [data] is longer than [params], unless
    numpy broadcasts one count onto an empty array. *)
Lemma np_iadd_prefix_Z_long (add : Z -> Z -> Z) (p data : list Z) :
  (1 <= length p < length data)%nat ->
  np_iadd_prefix 0%Z add p (length data) data = Err ValueError.
Proof.
  intro H. unfold np_iadd_prefix, np_imap2, rbind. rewrite length_firstn.
  rewrite Nat.min_r by lia.
  destruct (Nat.eqb_spec (length p) (length data)); [lia|].
  destruct (Nat.eqb_spec (length data) 1); [lia|reflexivity].
Qed.

Lemma i64_iadd_prefix_long (p data : list Z) :
  (1 <= length p < length data)%nat ->
  exists e, i64_iadd_prefix p (length data) data = Err e.
Proof.
  intro H. unfold i64_iadd_prefix. destruct (forallb in_int64 data); [|eauto].
  rewrite np_iadd_prefix_Z_long by exact H. eauto.
Qed.

Lemma Species2_Update_shape (g : nat -> list R -> list R) st data s st' s' :
  Species2_Update g st data s = Ok (st', s') ->
  ns st' = ns st /\ iterations st' = iterations st /\
  i64_iadd_prefix (params st) (length data) data = Ok (params st').
Proof.
  unfold Species2_Update, bind at 1.
  destruct (mc_sum 1000 _ _ s) as [[like s1]|e]; [|discriminate].
  unfold bind, lift.
  destruct (np_imap2 _ _ _ _) as [p1|e]; [|discriminate].
  destruct (i64_iadd_prefix _ _ _) as [p'|e]; [|discriminate].
  unfold ret. intro H; injection H as <- _. simpl. auto.
Qed.

Lemma Species3_Update_shape (g : nat -> list R -> list R) st data s st' s' :
  Species3_Update g st data s = Ok (st', s') ->
  ns st' = ns st /\ iterations st' = iterations st /\
  i64_iadd_prefix (params st) (length data) data = Ok (params st').
Proof.
  unfold Species3_Update, bind at 1.
  destruct (mc_sum _ _ _ s) as [[like s1]|e]; [|discriminate].
  unfold bind, lift.
  destruct (np_imap2 _ _ _ _) as [p1|e]; [|discriminate].
  destruct (i64_iadd_prefix _ _ _) as [p'|e]; [|discriminate].
  unfold ret. intro H; injection H as <- _. simpl. auto.
Qed.

(** X16: A successful [Species2.Update] or [Species3.Update] keeps [ns], [iterations] and the length of [params]; every count of [data] is an int64, and [params[j]] becomes the int64 sum [params[j] + data[j]] (wrapping modulo 2^64) for [j < len(data)] and is unchanged beyond. *)
Theorem Species2_Species3_Update_params (g : nat -> list R -> list R) st data s st' s' :
  (Species2_Update g st data s = Ok (st', s') \/ Species3_Update g st data s = Ok (st', s')) ->
  ns st' = ns st /\ iterations st' = iterations st /\
  length (params st') = length (params st) /\ forallb in_int64 data = true /\
  forall j, (j < length (params st))%nat ->
    nth j (params st') 0%Z = if (j <? length data)%nat
                             then i64_add (nth j (params st) 0%Z) (nth j data 0%Z)
                             else nth j (params st) 0%Z.
Proof.
  intros [H|H]; [apply Species2_Update_shape in H | apply Species3_Update_shape in H];
    destruct H as [Hn [Hi Hp]]; apply i64_iadd_prefix_spec in Hp; tauto.
Qed.

Lemma Species5_UpdateOne_keeps (g : nat -> list R -> list R) st m c s st1 s1 :
  Species5_UpdateOne g st m c s = Ok (st1, s1) ->
  ns st1 = ns st /\ params st1 = params st /\ iterations st1 = iterations st.
Proof.
  unfold Species5_UpdateOne, bind at 1.
  destruct (mc_sum _ _ _ s) as [[l s2]|e]; [|discriminate].
  unfold bind, lift.
  destruct (np_imap2 _ _ l _) as [l'|e]; [|discriminate].
  destruct (np_imap2 _ _ _ l') as [p1|e]; [|discriminate].
  unfold ret. intro H; injection H as <- _. simpl. auto.
Qed.

Lemma np_iadd_at_Z_length (add : Z -> Z -> Z) (p : list Z) (i : nat) c p' :
  np_iadd_at add p (Z.of_nat i) c = Ok p' -> (i < length p)%nat /\ length p' = length p.
Proof.
  unfold np_iadd_at, py_index, rbind.
  destruct (Z.leb_spec 0 (Z.of_nat i)); [|lia].
  destruct (Z.ltb_spec (Z.of_nat i) (Z.of_nat (length p))) as [Hlt|Hge]; simpl.
  - rewrite Nat2Z.id. destruct (nth_error p i) as [v|] eqn:E; [|discriminate]. simpl.
    intro Hok; injection Hok as <-. split; [lia|].
    replace (Z.of_nat i <? 0)%Z with false by (symmetry; apply Z.ltb_ge; lia).
    change (match p with [] => [] | _ :: l => skipn i l end) with (skipn (S i) p).
    rewrite length_app, length_firstn, length_cons, length_skipn. lia.
  - replace ((- Z.of_nat (length p) <=? Z.of_nat i)%Z && (Z.of_nat i <? 0)%Z) with false
      by (symmetry; apply andb_false_iff; right; apply Z.ltb_ge; lia).
    discriminate.
Qed.

Lemma np_iadd_at_Z_out (add : Z -> Z -> Z) (p : list Z) (i : nat) c :
  (length p <= i)%nat -> np_iadd_at add p (Z.of_nat i) c = Err IndexError.
Proof.
  intro H. unfold np_iadd_at, py_index, rbind.
  replace ((0 <=? Z.of_nat i)%Z && (Z.of_nat i <? Z.of_nat (length p))%Z) with false
    by (symmetry; apply andb_false_iff; right; apply Z.ltb_ge; lia).
  replace ((- Z.of_nat (length p) <=? Z.of_nat i)%Z && (Z.of_nat i <? 0)%Z) with false
    by (symmetry; apply andb_false_iff; right; apply Z.ltb_ge; lia).
  reflexivity.
Qed.

Lemma Species5_loop_long (g : nat -> list R -> list R) : forall data i st s,
  (i <= length (params st) < i + length data)%nat ->
  exists e, Species5_loop g i data st s = Err e.
Proof.
  induction data as [|c rest IH]; intros i st s H; simpl in H; [lia|].
  simpl. unfold bind at 1.
  destruct (Species5_UpdateOne g st (S i) c s) as [[st1 s1]|e] eqn:E1; [|eauto].
  apply Species5_UpdateOne_keeps in E1. destruct E1 as [_ [Hp _]].
  unfold bind, lift, i64_iadd_at. destruct (in_int64 c); [|eauto].
  destruct (Nat.eq_dec i (length (params st))) as [Ei|Ni].
  - rewrite Hp, np_iadd_at_Z_out by lia. eauto.
  - destruct (np_iadd_at i64_add (params st1) (Z.of_nat i) c) as [p'|e] eqn:Ea; [|eauto].
    apply np_iadd_at_Z_length in Ea. destruct Ea as [_ Hl].
    rewrite Hp in Hl. apply IH. unfold with_params; simpl. lia.
Qed.

(** X17: [Species2.Update] and [Species3.Update] fail when [data] is longer than a non-empty [params], and [Species5.Update] fails when [data] is longer than [params]. *)
Theorem Update_rejects_oversized_batch (g : nat -> list R -> list R) st data s :
  ((1 <= length (params st) < length data)%nat ->
     exists e, Species2_Update g st data s = Err e) /\
  ((1 <= length (params st) < length data)%nat ->
     exists e, Species3_Update g st data s = Err e) /\
  ((length (params st) < length data)%nat ->
     exists e, Species5_Update g st data s = Err e).
Proof.
  split; [|split]; intro H.
  - unfold Species2_Update, bind at 1.
    destruct (mc_sum 1000 _ _ s) as [[like s1]|e]; [|eauto].
    unfold bind, lift.
    destruct (np_imap2 _ _ _ _) as [p1|e]; [|eauto].
    destruct (i64_iadd_prefix_long _ _ H) as [e He]. rewrite He. eauto.
  - unfold Species3_Update, bind at 1.
    destruct (mc_sum _ _ _ s) as [[like s1]|e]; [|eauto].
    unfold bind, lift.
    destruct (np_imap2 _ _ _ _) as [p1|e]; [|eauto].
    destruct (i64_iadd_prefix_long _ _ H) as [e He]. rewrite He. eauto.
  - apply Species5_loop_long. lia.
Qed.

Lemma Species5_loop_params (g : nat -> list R -> list R) : forall data i st s st' s',
  Species5_loop g i data st s = Ok (st', s') ->
  ns st' = ns st /\ iterations st' = iterations st /\
  length (params st') = length (params st) /\ forallb in_int64 data = true /\
  forall j, nth j (params st') 0%Z =
            if (i <=? j)%nat && (j <? i + length data)%nat
            then i64_add (nth j (params st) 0%Z) (nth (j - i) data 0%Z)
            else nth j (params st) 0%Z.
Proof.
  induction data as [|c rest IH]; intros i st s st' s' H; simpl in H.
  - unfold ret in H. injection H as <- _. repeat split; auto.
    intro j. simpl. rewrite Nat.add_0_r.
    destruct (Nat.leb_spec i j), (Nat.ltb_spec j i); try lia; reflexivity.
  - unfold bind at 1 in H.
    destruct (Species5_UpdateOne g st (S i) c s) as [[st1 s1]|e] eqn:E1; [|discriminate].
    apply Species5_UpdateOne_keeps in E1. destruct E1 as [Hn1 [Hp1 Hi1]].
    unfold bind, lift, i64_iadd_at in H. destruct (in_int64 c) eqn:Hc; [|discriminate].
    destruct (np_iadd_at i64_add (params st1) (Z.of_nat i) c) as [p'|e] eqn:Ea; [|discriminate].
    apply np_iadd_at_spec in Ea. destruct Ea as [Hl Hnth].
    apply IH in H. destruct H as [Hn [Hi [Hl' [Hr Hnth']]]].
    simpl in Hn, Hi, Hl'. unfold with_params in Hnth'; cbn [params] in Hnth'.
    rewrite Hp1 in Hl, Hnth.
    repeat split; [congruence | congruence | congruence | simpl; rewrite Hc, Hr; reflexivity |].
    intro j. rewrite Hnth', Hnth. cbn [length].
    destruct (Nat.eqb_spec j i) as [->|Nj].
    + rewrite Nat.leb_refl, Nat.sub_diag.
      destruct (Nat.leb_spec (S i) i); [lia|]. simpl.
      destruct (Nat.ltb_spec i (i + S (length rest))); [reflexivity|lia].
    + idtac.
      destruct (Nat.leb_spec i j), (Nat.leb_spec (S i) j),
        (Nat.ltb_spec j (i + S (length rest))), (Nat.ltb_spec j (S i + length rest));
        try lia; cbn [andb]; try reflexivity.
      replace (j - i)%nat with (S (j - S i)) by lia. reflexivity.
Qed.

(** X18: A successful [Species5.Update] keeps [ns], [iterations] and the length of [params]; every count of [data] is an int64, and [params[j]] becomes the int64 sum [params[j] + data[j]] (wrapping modulo 2^64) for [j < len(data)] and is unchanged beyond. *)
Theorem Species5_Update_params (g : nat -> list R -> list R) st data s st' s' :
  Species5_Update g st data s = Ok (st', s') ->
  ns st' = ns st /\ iterations st' = iterations st /\
  length (params st') = length (params st) /\ forallb in_int64 data = true /\
  forall j, (j < length (params st))%nat ->
    nth j (params st') 0%Z = if (j <? length data)%nat
                             then i64_add (nth j (params st) 0%Z) (nth j data 0%Z)
                             else nth j (params st) 0%Z.
Proof.
  intro H. apply Species5_loop_params in H. destruct H as [Hn [Hi [Hl [Hr Hnth]]]].
  repeat split; auto. intros j _. rewrite Hnth, Nat.sub_0_r. reflexivity.
Qed.

Lemma mapR_map {A B C} (f : B -> result C) (h : A -> B) l :
  mapR f (map h l) = mapR (fun x => f (h x)) l.
Proof. induction l as [|x l IH]; simpl; [reflexivity|]. rewrite IH. reflexivity. Qed.

Lemma mapR_post {A B C} (f : A -> result B) (p : B -> C) l :
  mapR (fun x => rbind (f x) (fun t => Ok (p t))) l = rbind (mapR f l) (fun ts => Ok (map p ts)).
Proof.
  induction l as [|x l IH]; simpl; [reflexivity|]. rewrite IH.
  destruct (f x); simpl; [|reflexivity]. destruct (mapR f l); reflexivity.
Qed.

Lemma skipn_nth_error {A} (l : list A) i x :
  nth_error l i = Some x -> skipn i l = x :: skipn (S i) l.
Proof.
  revert l; induction i as [|i IH]; intros [|y l] H; simpl in *; try discriminate.
  - injection H as ->. reflexivity.
  - apply IH; exact H.
Qed.

(** [for n in ns: ... col[n-1] ...] over [ns = range(n0, n0+k)] walks
    [col[n0-1:]]. *)
Lemma mapR_index_seq {B} (col : list R) (H : R -> result B) : forall k n0,
  (1 <= n0)%nat -> (n0 - 1 + k)%nat = length col ->
  mapR (fun n => rbind (py_index col (Z.of_nat n - 1)) H) (seq n0 k) =
  mapR H (skipn (n0 - 1) col).
Proof.
  induction k as [|k IH]; intros n0 Hn0 Hl; simpl.
  - rewrite skipn_all2 by lia. reflexivity.
  - destruct (nth_error col (n0 - 1)) as [x|] eqn:E;
      [|apply nth_error_None in E; lia].
    replace (py_index col (Z.of_nat n0 - 1)) with (Ok x : result R).
    + rewrite (skipn_nth_error col (n0 - 1) x E). cbn [mapR rbind].
      rewrite (IH (S n0)) by lia. replace (S (n0 - 1)) with (S n0 - 1)%nat by lia.
      reflexivity.
    + unfold py_index.
      replace ((0 <=? Z.of_nat n0 - 1)%Z && (Z.of_nat n0 - 1 <? Z.of_nat (length col))%Z)
        with true by (symmetry; apply andb_true_iff; split; [apply Z.leb_le | apply Z.ltb_lt]; lia).
      replace (Z.to_nat (Z.of_nat n0 - 1)) with (n0 - 1)%nat by lia.
      rewrite E. reflexivity.
Qed.

Lemma np_map2_bc_fail {A} (d : A) f a b :
  bc_ok (length a) (length b) = false -> np_map2 d f a b = Err ValueError.
Proof.
  unfold bc_ok, np_map2. intro H. apply orb_false_iff in H. destruct H as [H H3].
  apply orb_false_iff in H. destruct H as [H1 H2]. rewrite H1, H3, H2. reflexivity.
Qed.

Lemma mapR_all_fail {A B} (f : A -> result B) l e :
  l <> [] -> (forall x, f x = Err e) -> mapR f l = Err e.
Proof.
  destruct l as [|x l]; [congruence|]. intros _ H. simpl. rewrite H. reflexivity.
Qed.

Lemma mc_sum_ext (f f' : M (list R)) :
  (forall s, f s = f' s) -> forall k acc s, mc_sum k f acc s = mc_sum k f' acc s.
Proof.
  intros H k; induction k as [|k IH]; intros acc s; simpl; [reflexivity|].
  unfold bind at 1 3. rewrite H. destruct (f' s) as [[x s1]|e]; [|reflexivity].
  unfold bind. destruct (lift _ s1) as [[a s2]|e]; [apply IH | reflexivity].
Qed.

Section Contiguous.

Variable g : nat -> list R -> list R.
Hypothesis Hg_len : forall s sh, length (g s sh) = length sh.

Lemma Species3_SampleLikelihood_contiguous (st : Species2) (n0 k : nat) data s :
  ns st = seq n0 k -> (1 <= n0)%nat -> (1 <= k)%nat ->
  (n0 - 1 + k)%nat = length (params st) ->
  Species3_SampleLikelihood g st data s = Species2_SampleLikelihood g st data s.
Proof.
  intros Hns Hn0 Hk Hl.
  unfold Species3_SampleLikelihood, Species2_SampleLikelihood, bind, draw_gamma, lift.
  destruct (forallb (Rltb 0) (map IZR (params st))); [|reflexivity].
  set (gammas := g s (map IZR (params st))).
  assert (Hgl : length gammas = length (params st))
    by (unfold gammas; rewrite Hg_len, length_map; reflexivity).
  replace (py_index (ns st) 0) with (Ok n0 : result nat)
    by (rewrite Hns; destruct k; [lia|reflexivity]).
  replace (py_drop (Z.of_nat n0 - 1) (cumsum gammas)) with (skipn (n0 - 1) (cumsum gammas))
    by (unfold py_drop; replace (0 <=? Z.of_nat n0 - 1)%Z with true
          by (symmetry; apply Z.leb_le; lia);
        f_equal; lia).
  rewrite Hns, mapR_index_seq
    by first [lia | unfold cumsum; rewrite cumsum_from_length; lia].
  rewrite mapR_map.
  set (row := firstn (length data) gammas).
  destruct (bc_ok (length row) (length data)) eqn:Hbc.
  - rewrite (mapR_post (fun c => np_map2 0 Rmult (map ln (map (fun r => r / c) row))
                                   (map IZR data)) np_sum).
    destruct (mapR _ (skipn (n0 - 1) (cumsum gammas))); reflexivity.
  - rewrite mapR_all_fail with (e := ValueError).
    + reflexivity.
    + rewrite <- length_zero_iff_nil, length_skipn. unfold cumsum.
      rewrite cumsum_from_length. lia.
    + intro c. simpl. rewrite np_map2_bc_fail; [reflexivity|].
      rewrite !length_map. exact Hbc.
Qed.

(** X19: When [ns] is the range [n0, ..., n0+k-1] with [n0 >= 1] ending at [len(params)], [Species3.SampleLikelihood] computes the same likelihoods as [Species2.SampleLikelihood], and with 1000 iterations [Species3.Update] is [Species2.Update]. *)
Theorem Species3_matches_Species2_on_ranges (st : Species2) (n0 k : nat) :
  ns st = seq n0 k -> (1 <= n0)%nat -> (1 <= k)%nat ->
  (n0 - 1 + k)%nat = length (params st) ->
  (forall data s, Species3_SampleLikelihood g st data s = Species2_SampleLikelihood g st data s) /\
  (iterations st = 1000%nat ->
   forall data s, Species3_Update g st data s = Species2_Update g st data s).
Proof.
  intros Hns Hn0 Hk Hl.
  assert (Hs : forall data s, Species3_SampleLikelihood g st data s =
                              Species2_SampleLikelihood g st data s)
    by (intros; apply (Species3_SampleLikelihood_contiguous st n0 k); assumption).
  split; [exact Hs|].
  intros Hit data s. unfold Species3_Update, Species2_Update, bind at 1 4.
  rewrite Hit, (mc_sum_ext _ _ (Hs data)). reflexivity.
Qed.

End Contiguous.

Lemma np_imap2_fail {A} (d : A) f a b :
  length a <> length b -> length b <> 1%nat -> np_imap2 d f a b = Err ValueError.
Proof.
  intros H1 H2. unfold np_imap2.
  destruct (Nat.eqb_spec (length a) (length b)); [congruence|].
  destruct (Nat.eqb_spec (length b) 1); [congruence|reflexivity].
Qed.

Lemma py_drop_cumsum_length (gs : list R) (n0 : nat) :
  (1 <= n0)%nat ->
  length (py_drop (Z.of_nat n0 - 1) (cumsum gs)) = (length gs - (n0 - 1))%nat.
Proof.
  intro H. unfold py_drop. replace (0 <=? Z.of_nat n0 - 1)%Z with true
    by (symmetry; apply Z.leb_le; lia).
  rewrite length_skipn. unfold cumsum. rewrite cumsum_from_length. f_equal. lia.
Qed.

Section Ranges.

Variable g : nat -> list R -> list R.
Hypothesis Hg_len : forall s sh, length (g s sh) = length sh.

Lemma Species3_SampleLikelihood_gap (st : Species2) (n0 : nat) data s :
  hd_error (ns st) = Some n0 -> (1 <= n0)%nat -> (2 <= length (ns st))%nat ->
  length (ns st) <> (length (params st) - (n0 - 1))%nat ->
  exists e, Species3_SampleLikelihood g st data s = Err e.
Proof.
  intros Hhd Hn0 H2 Hne.
  unfold Species3_SampleLikelihood, bind, draw_gamma, lift.
  destruct (forallb (Rltb 0) (map IZR (params st))); [|eauto].
  replace (py_index (ns st) 0) with (Ok n0 : result nat)
    by (destruct (ns st) as [|a l]; simpl in Hhd; [discriminate|]; injection Hhd as ->;
        reflexivity).
  match goal with |- context [if ?b then mapR ?f ?arr else Err ValueError] =>
    destruct b; [destruct (mapR f arr) as [terms|e] eqn:Et; [|eauto] | eauto] end.
  apply mapR_length in Et. rewrite length_map, py_drop_cumsum_length in Et by exact Hn0.
  rewrite Hg_len, length_map in Et.
  destruct (scale_log_likes (map np_sum terms)) as [likes|e] eqn:El; [|eauto].
  apply scale_log_likes_pos in El. destruct El as [El _]. rewrite length_map in El.
  rewrite np_imap2_fail; [eauto| |]; rewrite length_map; lia.
Qed.

Lemma Species5_SampleLikelihood_length (st : Species2) (n0 m : nat) c s x s' :
  hd_error (ns st) = Some n0 -> (1 <= n0)%nat ->
  Species5_SampleLikelihood g st m c s = Ok (x, s') ->
  length x = (length (params st) - (n0 - 1))%nat.
Proof.
  intros Hhd Hn0.
  unfold Species5_SampleLikelihood, bind, draw_gamma, lift.
  destruct (forallb (Rltb 0) (map IZR (params st))); [|discriminate].
  replace (py_index (ns st) 0) with (Ok n0 : result nat)
    by (destruct (ns st) as [|a l]; simpl in Hhd; [discriminate|]; injection Hhd as ->;
        reflexivity).
  destruct (py_index _ (Z.of_nat m - 1)) as [gm|e]; [|discriminate].
  destruct (scale_log_likes _) as [likes|e] eqn:El; [|discriminate].
  intro H; injection H as <- _.
  apply scale_log_likes_pos in El. destruct El as [El _].
  rewrite El, !length_map, py_drop_cumsum_length, Hg_len, length_map by exact Hn0.
  reflexivity.
Qed.

(** X20: When [ns] starts at [n0] with [1 <= n0 < len(params)], has at least two values, and does not have exactly [len(params) - n0 + 1] of them, [Species3.Update] fails, and so does [Species5.Update] on non-empty data. *)
Theorem Species3_Species5_reject_gapped_ranges (st : Species2) (n0 : nat) data s :
  hd_error (ns st) = Some n0 -> (1 <= n0 < length (params st))%nat ->
  (2 <= length (ns st))%nat -> (1 <= iterations st)%nat ->
  length (ns st) <> (length (params st) - n0 + 1)%nat ->
  (exists e, Species3_Update g st data s = Err e) /\
  (data <> [] -> exists e, Species5_Update g st data s = Err e).
Proof.
  intros Hhd Hn0 H2 Hit Hne.
  destruct (iterations st) as [|k] eqn:Ek; [lia|].
  split.
  - unfold Species3_Update, bind at 1. rewrite Ek. simpl. unfold bind at 1.
    destruct (Species3_SampleLikelihood_gap st n0 data s Hhd) as [e He]; try lia.
    rewrite He. eauto.
  - destruct data as [|c rest]; [congruence|]. intros _.
    unfold Species5_Update. simpl. unfold bind at 1.
    unfold Species5_UpdateOne at 1. unfold bind at 1. rewrite Ek. simpl.
    unfold bind at 1.
    destruct (Species5_SampleLikelihood g st 1 c s) as [[x s1]|e] eqn:Ex; [|eauto].
    apply (Species5_SampleLikelihood_length st n0) in Ex; [|exact Hhd|lia].
    unfold bind, lift. rewrite np_imap2_fail; [eauto| |].
    + unfold np_zeros. rewrite repeat_length. lia.
    + lia.
Qed.

End Ranges.

Lemma mass_at_cons y p t x :
  mass_at ((y, p) :: t) x = (if Req_dec_T y x then p else 0) + mass_at t x.
Proof.
  unfold mass_at. simpl. destruct (Req_dec_T y x); simpl; lra.
Qed.

Lemma mass_at_Incr t y v x :
  mass_at (Pmf_Incr t y v) x = mass_at t x + (if Req_dec_T y x then v else 0).
Proof.
  induction t as [|[z q] t IH]; simpl.
  - rewrite mass_at_cons. unfold mass_at. simpl. lra.
  - destruct (Req_dec_T y z) as [->|Ne]; simpl.
    + rewrite !mass_at_cons. destruct (Req_dec_T z x); lra.
    + rewrite !mass_at_cons, IH. lra.
Qed.

Lemma mass_at_fold (pmf : table) w : forall mix x,
  mass_at (fold_left (fun mix' xp => Pmf_Incr mix' (fst xp) (snd xp * w)) pmf mix) x =
  mass_at mix x + w * mass_at pmf x.
Proof.
  induction pmf as [|[y p] pmf IH]; intros mix x; simpl.
  - unfold mass_at. simpl. lra.
  - rewrite IH, mass_at_Incr, mass_at_cons. destruct (Req_dec_T y x); lra.
Qed.

Lemma MakeMixture_mass_from metapmf : forall mix x,
  mass_at (fold_left (fun mix pp =>
      fold_left (fun mix' xp => Pmf_Incr mix' (fst xp) (snd xp * snd pp)) (fst pp) mix)
    metapmf mix) x =
  mass_at mix x + np_sum (map (fun pp => snd pp * mass_at (fst pp) x) metapmf).
Proof.
  induction metapmf as [|pp metapmf IH]; intros mix x; simpl.
  - unfold np_sum; simpl. lra.
  - rewrite IH, mass_at_fold. unfold np_sum; simpl. rewrite Rplus_assoc. reflexivity.
Qed.

Lemma total_Incr t y v : np_sum (map snd (Pmf_Incr t y v)) = np_sum (map snd t) + v.
Proof.
  induction t as [|[z q] t IH]; simpl.
  - unfold np_sum; simpl. lra.
  - destruct (Req_dec_T y z); simpl; [lra|]. rewrite IH. lra.
Qed.

Lemma total_fold (pmf : table) w : forall mix,
  np_sum (map snd (fold_left (fun mix' xp => Pmf_Incr mix' (fst xp) (snd xp * w)) pmf mix)) =
  np_sum (map snd mix) + w * np_sum (map snd pmf).
Proof.
  induction pmf as [|[y p] pmf IH]; intros mix; simpl.
  - unfold np_sum; simpl. lra.
  - rewrite IH, total_Incr. simpl. lra.
Qed.

Lemma MakeMixture_total_from metapmf : forall mix,
  np_sum (map snd (fold_left (fun mix pp =>
      fold_left (fun mix' xp => Pmf_Incr mix' (fst xp) (snd xp * snd pp)) (fst pp) mix)
    metapmf mix)) =
  np_sum (map snd mix) + np_sum (map (fun pp => snd pp * np_sum (map snd (fst pp))) metapmf).
Proof.
  induction metapmf as [|pp metapmf IH]; intros mix; simpl.
  - unfold np_sum; simpl. lra.
  - rewrite IH, total_fold. unfold np_sum; simpl. rewrite Rplus_assoc. reflexivity.
Qed.

Lemma mapR_pmfs (bp : R -> R -> table) st index (beta_of : nat -> Beta) (l : list (nat * R)) :
  (forall n, Species2_MarginalBeta st n index = Ok (beta_of n)) ->
  mapR (fun np : nat * R => beta <-- Species2_MarginalBeta st (fst np) index;;
                  Ok (bp (b_alpha beta) (b_beta beta), snd np)) l =
  Ok (map (fun np => (bp (b_alpha (beta_of (fst np))) (b_beta (beta_of (fst np))), snd np)) l).
Proof.
  intro Hb. induction l as [|np l IH]; [reflexivity|].
  simpl. rewrite IH, Hb. reflexivity.
Qed.

(** X21: A successful [DistOfPrevalence(index)] returns the mixture of the [MarginalBeta(n, index)] pmfs weighted by [probs]: every [MarginalBeta(n, index)] succeeds, and the mass at each value and the total mass are the [probs]-weighted sums of the component pmfs'. *)
Theorem Species2_DistOfPrevalence_mixture (bp : R -> R -> table) st index mix :
  ns st <> [] -> length (probs st) = length (ns st) ->
  Species2_DistOfPrevalence bp st index = Ok mix ->
  exists beta_of : nat -> Beta,
    (forall n, Species2_MarginalBeta st n index = Ok (beta_of n)) /\
    let pmf_of n := bp (b_alpha (beta_of n)) (b_beta (beta_of n)) in
    (forall x, mass_at mix x =
       np_sum (map (fun np => snd np * mass_at (pmf_of (fst np)) x)
                 (combine (ns st) (probs st)))) /\
    np_sum (map snd mix) =
      np_sum (map (fun np => snd np * np_sum (map snd (pmf_of (fst np))))
                (combine (ns st) (probs st))).
Proof.
  intros Hns Hl H. unfold Species2_DistOfPrevalence in H.
  destruct (py_index (params st) index) as [alpha|e] eqn:Ea.
  - set (beta_of n := mkBeta (IZR alpha) (IZR (wrap64 (i64_sum (firstn n (params st)) - alpha)))).
    assert (Hb : forall n, Species2_MarginalBeta st n index = Ok (beta_of n))
      by (intro n; unfold Species2_MarginalBeta; rewrite Ea; reflexivity).
    exists beta_of. split; [exact Hb|]. cbv zeta.
    rewrite (mapR_pmfs bp st index beta_of _ Hb) in H. simpl in H.
    injection H as <-.
    unfold MakeMixture. split.
    + intro x. rewrite MakeMixture_mass_from, map_map. unfold mass_at at 1. simpl. lra.
    + rewrite MakeMixture_total_from, map_map. simpl. lra.
  - exfalso. destruct (ns st) as [|n ns'] eqn:En; [congruence|].
    destruct (probs st) as [|p ps]; [simpl in Hl; discriminate|].
    simpl in H. unfold Species2_MarginalBeta in H. rewrite Ea in H. discriminate.
Qed.

(** X22: [DistOfPrevalence(index)] raises IndexError when [index] is out of range for [params]. *)
Theorem Species2_DistOfPrevalence_bad_index (bp : R -> R -> table) st index :
  ns st <> [] -> length (probs st) = length (ns st) ->
  ~ (- Z.of_nat (length (params st)) <= index < Z.of_nat (length (params st)))%Z ->
  Species2_DistOfPrevalence bp st index = Err IndexError.
Proof.
  intros Hns Hl Hi. unfold Species2_DistOfPrevalence.
  assert (Ea : py_index (params st) index = Err IndexError).
  { unfold py_index.
    destruct ((0 <=? index)%Z && (index <? Z.of_nat (length (params st)))%Z) eqn:E1.
    { apply andb_true_iff in E1. destruct E1 as [A B].
      apply Z.leb_le in A. apply Z.ltb_lt in B. lia. }
    destruct ((- Z.of_nat (length (params st)) <=? index)%Z && (index <? 0)%Z) eqn:E2.
    { apply andb_true_iff in E2. destruct E2 as [A B].
      apply Z.leb_le in A. apply Z.ltb_lt in B. lia. }
    reflexivity. }
  destruct (ns st) as [|n ns'] eqn:En; [congruence|].
  destruct (probs st) as [|p ps]; [simpl in Hl; discriminate|].
  simpl. unfold Species2_MarginalBeta. rewrite Ea. reflexivity.
Qed.

Lemma add_counts_nil ps : add_counts ps [] = ps.
Proof. destruct ps; reflexivity. Qed.

Lemma add_counts_zeros ps i : add_counts ps (repeat 0%Z i) = ps.
Proof.
  revert ps; induction i as [|i IH]; intros [|p ps]; simpl; try reflexivity.
  rewrite IH, Rplus_0_r. reflexivity.
Qed.

Lemma add_counts_step ps i c rest :
  add_counts (add_counts ps (repeat 0%Z i ++ [c])) (repeat 0%Z (S i) ++ rest) =
  add_counts ps (repeat 0%Z i ++ c :: rest).
Proof.
  revert ps; induction i as [|i IH]; intros [|p ps]; simpl; try reflexivity.
  - rewrite add_counts_nil, Rplus_0_r. reflexivity.
  - rewrite Rplus_0_r. f_equal. apply IH.
Qed.

Lemma Species_Update_hypos g cd st data s st' s' :
  Species_Update g cd st data s = Ok (st', s') ->
  sp_class st' = sp_class st /\ sp_iterations st' = sp_iterations st /\
  map (fun hp => (d_n (fst hp), d_params (fst hp))) (sp_hypos st') =
  map (fun hp => (d_n (fst hp), add_counts (d_params (fst hp)) data)) (sp_hypos st).
Proof.
  unfold Species_Update, bind at 1.
  destruct (Suite_Update _ _ _ s) as [[hs s1]|e] eqn:E; [|discriminate].
  apply Suite_Update_keys in E.
  unfold ret. intro H; injection H as <- _. simpl. repeat split.
  rewrite map_map. simpl.
  rewrite <- (map_map fst (fun k => (d_n k, add_counts (d_params k) data)) hs), E, map_map.
  reflexivity.
Qed.

Lemma Species4_loop_hypos g cd : forall data i st s st' s',
  Species4_loop g cd i data st s = Ok (st', s') ->
  sp_class st' = sp_class st /\ sp_iterations st' = sp_iterations st /\
  map (fun hp => (d_n (fst hp), d_params (fst hp))) (sp_hypos st') =
  map (fun hp => (d_n (fst hp), add_counts (d_params (fst hp)) (repeat 0%Z i ++ data)))
    (sp_hypos st).
Proof.
  induction data as [|c rest IH]; intros i st s st' s' H; simpl in H.
  - unfold ret in H. injection H as <- _. repeat split.
    apply map_ext. intros hp. rewrite app_nil_r, add_counts_zeros. reflexivity.
  - unfold bind in H.
    destruct (Species_Update g cd st (repeat 0%Z i ++ [c]) s) as [[st1 s1]|e] eqn:E1;
      [|discriminate].
    apply Species_Update_hypos in E1. destruct E1 as [Hc1 [Hi1 Hm1]].
    apply IH in H. destruct H as [Hc [Hi Hm]].
    repeat split; [congruence | congruence |].
    rewrite Hm.
    transitivity (map (fun np => (fst np, add_counts (snd np) (repeat 0%Z (S i) ++ rest)))
                    (map (fun hp => (d_n (fst hp), d_params (fst hp))) (sp_hypos st1))).
    { rewrite map_map. reflexivity. }
    rewrite Hm1, map_map. apply map_ext. intro hp. cbn [fst snd]. rewrite add_counts_step.
    reflexivity.
Qed.

(** X23: A successful [Species4.Update] keeps the class, the iterations and each hypothesis's [n], and, on data no longer than each Dirichlet's parameters, adds [data[i]] to the [i]-th parameter of every Dirichlet, one count per step. *)
Theorem Species4_Update_inner_params g cd st data s st' s' :
  Forall (fun hp => (length data <= length (d_params (fst hp)))%nat) (sp_hypos st) ->
  Species4_Update g cd st data s = Ok (st', s') ->
  sp_class st' = sp_class st /\ sp_iterations st' = sp_iterations st /\
  map (fun hp => d_n (fst hp)) (sp_hypos st') = map (fun hp => d_n (fst hp)) (sp_hypos st) /\
  map (fun hp => d_params (fst hp)) (sp_hypos st') =
  map (fun hp => add_counts (d_params (fst hp)) data) (sp_hypos st).
Proof.
  intros _ H. apply Species4_loop_hypos in H. destruct H as [Hc [Hi Hm]].
  simpl in Hm. repeat split; [exact Hc | exact Hi | |].
  - apply (f_equal (map fst)) in Hm. rewrite !map_map in Hm. exact Hm.
  - apply (f_equal (map snd)) in Hm. rewrite !map_map in Hm. exact Hm.
Qed.

Lemma binom_1 n : binom n 1 = n.
Proof. induction n as [|n IH]; simpl; [reflexivity|]. destruct n; simpl in *; lia. Qed.

(** X24: On data of one count, [Species4.Update] behaves as [Species.Update] on that data. *)
Theorem Species4_single_category_is_Species g cd hypos it c s :
  Species4_Update g cd (mkSpecies CSpecies4 hypos it) [c] s =
  match Species_Update g cd (mkSpecies CSpecies hypos it) [c] s with
  | Ok (st', s') => Ok (mkSpecies CSpecies4 (sp_hypos st') (sp_iterations st'), s')
  | Err e => Err e
  end.
Proof.
  unfold Species4_Update. simpl Species4_loop. unfold Species_Update, bind. simpl.
  rewrite (Suite_Update_ext (Species4_Likelihood g cd it) (Species_Likelihood g cd it)).
  - destruct (Suite_Update _ _ _ s) as [[hs s1]|e]; reflexivity.
  - intros k s0. unfold Species4_Likelihood, Species_Likelihood.
    replace (IZR (Z.of_nat (d_n k) - Z.of_nat (length [c]) + 1))
      with (BinomialCoef (d_n k) (length [c])); [reflexivity|].
    unfold BinomialCoef. simpl length. rewrite binom_1, INR_IZR_INZ. f_equal. lia.
Qed.

Lemma ProcessSubject_short_counts g counts s :
  (length counts < 2)%nat -> ProcessSubject g counts s = Err IndexError.
Proof.
  intro H. destruct counts as [|c0 [|c1 cs]]; [reflexivity | reflexivity | simpl in H; lia].
Qed.

(** X25: [ProcessSubject] raises IndexError on fewer than two counts, since [range(m, int(1.5*m))] is then empty and [ns[-1]] fails. *)
Theorem ProcessSubject_too_few_counts g counts s :
  (length counts < 2)%nat -> ProcessSubject g counts s = Err IndexError.
Proof. exact (ProcessSubject_short_counts g counts s). Qed.

Lemma ProcessSubject_shape g counts s suite pmf s' :
  ProcessSubject g counts s = Ok ((suite, pmf), s') ->
  (2 <= length counts)%nat /\
  S2_inv (seq (length counts) (3 * length counts / 2 - length counts)) suite /\
  Species2_DistOfN suite = Ok pmf.
Proof.
  intro H.
  destruct (Nat.lt_ge_cases (length counts) 2) as [Hlt|Hge].
  { rewrite ProcessSubject_short_counts in H by exact Hlt. discriminate. }
  unfold ProcessSubject, bind at 1, lift in H.
  set (ns0 := seq (length counts) (3 * length counts / 2 - length counts)) in H.
  destruct (Species2_init ns0 300) as [st0|e] eqn:E0; [|discriminate].
  apply Species2_init_inv in E0. destruct E0 as [Hinv0 Hit0].
  unfold bind in H.
  destruct (Species5_Update g st0 counts s) as [[st1 s1]|e] eqn:E1; [|discriminate].
  destruct (Species2_DistOfN st1) as [p|e] eqn:Ed; [|discriminate].
  unfold ret in H. injection H as <- <- _.
  unfold Species5_Update in E1.
  destruct (Species5_loop_inv g ns0 counts 0 st0 s st1 s1 Hinv0) as (Hinv & _).
  - rewrite Hit0. lia.
  - intros n Hn. unfold ns0 in Hn. apply in_seq in Hn. lia.
  - exact E1.
  - split; [lia|]. split; [exact Hinv|exact Ed].
Qed.

(** X26: When [ProcessSubject] returns, there were at least two counts, and the pmf it returns is over [m, ..., int(1.5*m)-1], sums to 1 and gives every value a positive probability. *)
Theorem ProcessSubject_posterior g counts s suite pmf s' :
  ProcessSubject g counts s = Ok ((suite, pmf), s') ->
  (2 <= length counts)%nat /\
  map fst pmf = seq (length counts) (3 * length counts / 2 - length counts) /\
  weights_sum pmf = 1 /\ Forall (fun np => 0 < snd np) pmf.
Proof.
  intro H. apply ProcessSubject_shape in H. destruct H as [Hm [Hinv Ed]].
  split; [exact Hm|].
  destruct (S2_DistOfN_ok _ _ Hinv) as [pmf' [Ed' [Hw [Hpos Hk]]]].
  rewrite Ed in Ed'. injection Ed' as <-.
  split; [apply Hk, seq_NoDup|]. split; assumption.
Qed.

Section Species5Runs.

Variable g : nat -> list R -> list R.
Hypothesis Hg_len : forall s sh, length (g s sh) = length sh.

Lemma Species5_SampleLikelihood_ok (st : Species2) (n0 m : nat) c s :
  hd_error (ns st) = Some n0 -> (1 <= n0 <= length (params st))%nat ->
  (1 <= m <= length (params st))%nat ->
  Forall (fun x => (0 < x)%Z) (params st) ->
  exists x, Species5_SampleLikelihood g st m c s = Ok (x, S s) /\
    length x = (length (params st) - (n0 - 1))%nat.
Proof.
  intros Hhd Hn0 Hm Hpos.
  unfold Species5_SampleLikelihood, bind at 1.
  rewrite draw_gamma_ok by (apply IZR_pos_all; exact Hpos).
  unfold bind, lift.
  replace (py_index (ns st) 0) with (Ok n0 : result nat)
    by (destruct (ns st) as [|a l]; simpl in Hhd; [discriminate|]; injection Hhd as ->;
        reflexivity).
  destruct (py_index_in_range (g s (map IZR (params st))) (m - 1)) as [gm Hgm].
  { rewrite Hg_len, length_map. lia. }
  replace (Z.of_nat m - 1)%Z with (Z.of_nat (m - 1)) by lia. rewrite Hgm.
  match goal with |- context [scale_log_likes ?l] =>
    destruct (scale_log_likes_ok l) as [u [Hu Hul]] end.
  { rewrite <- length_zero_iff_nil, !length_map, py_drop_cumsum_length, Hg_len, length_map
      by lia. lia. }
  rewrite Hu. eexists; split; [reflexivity|].
  rewrite Hul, !length_map, py_drop_cumsum_length, Hg_len, length_map by lia. reflexivity.
Qed.

Lemma Species5_UpdateOne_ok (st : Species2) (n0 m : nat) c s :
  hd_error (ns st) = Some n0 -> (1 <= n0 <= length (params st))%nat ->
  length (ns st) = (length (params st) - (n0 - 1))%nat ->
  length (probs st) = length (ns st) ->
  Forall (fun x => (0 < x)%Z) (params st) ->
  (1 <= m <= length (params st))%nat ->
  exists p, Species5_UpdateOne g st m c s =
    Ok (with_probs st p, (s + iterations st)%nat) /\ length p = length (ns st).
Proof.
  intros Hhd Hn0 Hns Hp Hpos Hm.
  unfold Species5_UpdateOne, bind at 1.
  destruct (mc_sum_ok (Species5_SampleLikelihood g st m c) (length (ns st))
              (fun s0 => ltac:(destruct (Species5_SampleLikelihood_ok st n0 m c s0 Hhd Hn0 Hm Hpos)
                                 as [x [Hx Hxl]]; exists x; split; [exact Hx | lia]))
              (iterations st) (np_zeros (length (ns st))) s) as [like [Hl Hll]].
  { apply repeat_length. }
  rewrite Hl. unfold bind, lift.
  rewrite np_imap2_same by (unfold unseen_species; rewrite length_map; exact Hll).
  rewrite np_imap2_same
    by (rewrite zipWith_length, Hll; unfold unseen_species; rewrite length_map;
        rewrite Nat.min_id; exact Hp).
  eexists; split; [reflexivity|].
  unfold np_normalize. rewrite length_map, zipWith_length, zipWith_length.
  unfold unseen_species. rewrite length_map, Hll, Hp. lia.
Qed.

(** The loop of [Species5.Update] runs to the end when the parameters it has
    not reached yet are still 1 and each count is a non-negative int64 below
    [2^63 - 1]: every [params[i] += count] then stays positive and in range. *)
Lemma Species5_loop_ok (n0 : nat) : forall data i st s,
  hd_error (ns st) = Some n0 -> (1 <= n0 <= length (params st))%nat ->
  length (ns st) = (length (params st) - (n0 - 1))%nat ->
  length (probs st) = length (ns st) ->
  (i + length data <= length (params st))%nat ->
  Forall (fun x => (0 < x)%Z) (params st) ->
  (forall j, (i <= j < length (params st))%nat -> nth j (params st) 0%Z = 1%Z) ->
  Forall (fun c => (0 <= c < 2 ^ 63 - 1)%Z) data ->
  exists st', Species5_loop g i data st s = Ok (st', (s + iterations st * length data)%nat) /\
    ns st' = ns st /\ iterations st' = iterations st.
Proof.
  induction data as [|c rest IH]; intros i st s Hhd Hn0 Hns Hp Hi Hpos Hone Hd; simpl.
  - exists st. unfold ret. rewrite Nat.mul_0_r, Nat.add_0_r. auto.
  - simpl in Hi. inversion Hd as [|c' rest' Hc Hd']; subst c' rest'.
    unfold bind at 1.
    destruct (Species5_UpdateOne_ok st n0 (S i) c s Hhd Hn0 Hns Hp Hpos) as [p [Hu Hpl]]; [lia|].
    rewrite Hu. unfold bind, lift, i64_iadd_at.
    replace (in_int64 c) with true by (symmetry; apply in_int64_spec; lia).
    destruct (py_index_in_range (params st) i) as [v Hv]; [lia|].
    destruct (np_iadd_at i64_add (params (with_probs st p)) (Z.of_nat i) c) as [pa|e] eqn:Ea.
    + destruct (np_iadd_at_spec _ _ _ _ _ Ea) as [Hpa Hnth]. cbn [params with_probs] in Hpa, Hnth.
      assert (Hpi : nth i (params st) 0%Z = 1%Z) by (apply Hone; lia).
      destruct (IH (S i) (with_params (with_probs st p) pa) (s + iterations st)%nat)
        as [st' [Hst' [Hn' Hi']]]; cbn [ns probs params iterations with_params with_probs].
      * exact Hhd.
      * lia.
      * lia.
      * congruence.
      * lia.
      * apply Forall_nth. intros j d Hj. rewrite nth_indep with (d' := 0%Z) by exact Hj.
        rewrite Hnth. destruct (Nat.eqb_spec j i) as [->|_].
        -- rewrite Hpi. unfold i64_add. rewrite wrap64_small by lia. lia.
        -- rewrite Hpa in Hj. apply (proj1 (Forall_nth _ _) Hpos j 0%Z Hj).
      * intros j Hj. rewrite Hnth. destruct (Nat.eqb_spec j i); [lia|]. apply Hone. lia.
      * exact Hd'.
      * exists st'. rewrite Hst'. cbn [ns iterations with_params with_probs] in Hn', Hi'.
        split; [|split; assumption].
        f_equal. f_equal. change (iterations (with_params (with_probs st p) pa)) with (iterations st).
        nia.
    + exfalso. unfold np_iadd_at, rbind in Ea. cbn [params with_probs] in Ea. rewrite Hv in Ea.
      discriminate.
Qed.

Lemma ProcessSubject_ok counts s :
  (2 <= length counts)%nat ->
  Forall (fun c => (0 <= c < 2 ^ 63 - 1)%Z) counts ->
  exists suite pmf, ProcessSubject g counts s =
    Ok ((suite, pmf), (s + 300 * length counts)%nat) /\
    Species2_DistOfN suite = Ok pmf /\
    ns suite = seq (length counts) (3 * length counts / 2 - length counts) /\
    iterations suite = 300%nat.
Proof.
  intros Hm Hc. set (m := length counts) in *.
  assert (Hk : (1 <= 3 * m / 2 - m)%nat).
  { assert (m + 1 <= 3 * m / 2)%nat; [|lia].
    apply Nat.div_le_lower_bound; lia. }
  set (k := (3 * m / 2 - m)%nat) in *.
  assert (Hlast : py_last (seq m k) = Ok (m + k - 1)%nat).
  { unfold py_last, py_index. rewrite length_seq.
    replace ((0 <=? -1)%Z && (-1 <? Z.of_nat k)%Z) with false by reflexivity.
    replace ((- Z.of_nat k <=? -1)%Z && (-1 <? 0)%Z) with true
      by (symmetry; apply andb_true_iff; split; [apply Z.leb_le | apply Z.ltb_lt]; lia).
    replace (Z.to_nat (Z.of_nat k + -1)) with (k - 1)%nat by lia.
    rewrite nth_error_nth' with (d := O) by (rewrite length_seq; lia).
    rewrite seq_nth by lia. simpl. f_equal. lia. }
  assert (E0 : Species2_init (seq m k) 300 =
               Ok (mkSpecies2 (seq m k) (repeat 1 (length (seq m k))) (repeat 1%Z (m + k - 1)) 300))
    by (unfold Species2_init; rewrite Hlast; reflexivity).
  set (st0 := mkSpecies2 (seq m k) (repeat 1 (length (seq m k))) (repeat 1%Z (m + k - 1)) 300)
    in E0.
  assert (H1 : hd_error (ns st0) = Some m) by (simpl; destruct k; [lia|reflexivity]).
  assert (H2 : (1 <= m <= length (params st0))%nat) by (simpl; rewrite repeat_length; lia).
  assert (H3 : length (ns st0) = (length (params st0) - (m - 1))%nat)
    by (simpl; rewrite repeat_length, length_seq; lia).
  assert (H4 : length (probs st0) = length (ns st0)) by (simpl; apply repeat_length).
  assert (H5 : (0 + length counts <= length (params st0))%nat)
    by (simpl; rewrite repeat_length; lia).
  assert (H6 : Forall (fun x => (0 < x)%Z) (params st0)).
  { apply Forall_forall. intros x Hx. apply repeat_spec in Hx. simpl in Hx. lia. }
  assert (H7 : forall j, (0 <= j < length (params st0))%nat -> nth j (params st0) 0%Z = 1%Z).
  { intros j Hj. simpl in *. rewrite repeat_length in Hj. apply nth_repeat_lt. lia. }
  destruct (Species5_loop_ok m counts 0 st0 s H1 H2 H3 H4 H5 H6 H7 Hc) as [st' [Hst' [Hn' Hi']]].
  destruct (Species2_init_inv _ _ _ E0) as [Hinv0 Hit0].
  destruct (Species5_loop_inv g (seq m k) counts 0 st0 s st' (s + iterations st0 * length counts)%nat
              Hinv0) as (Hinv & _).
  { rewrite Hit0. lia. }
  { intros n Hn. apply in_seq in Hn. lia. }
  { exact Hst'. }
  destruct (S2_DistOfN_ok _ _ Hinv) as [pmf [Ed _]].
  exists st', pmf.
  unfold ProcessSubject, bind at 1, lift. fold m. fold k. rewrite E0.
  unfold Species5_Update. unfold bind at 1. rewrite Hst'. unfold bind, lift. rewrite Ed.
  unfold ret. cbn [iterations st0] in Hn', Hi' |- *.
  split; [reflexivity|]. split; [reflexivity|]. split; assumption.
Qed.

End Species5Runs.

(** X27: On two or more counts, each a non-negative int64 below [2^63 - 1], [ProcessSubject] returns: it draws [300 * len(counts)] gamma samples, the returned suite has [ns = range(m, int(1.5*m))] and 300 iterations, and the returned pmf is [suite.DistOfN()]. *)
Theorem ProcessSubject_returns (g : nat -> list R -> list R)
    (Hg_len : forall s sh, length (g s sh) = length sh) counts s :
  (2 <= length counts)%nat ->
  Forall (fun c => (0 <= c < 2 ^ 63 - 1)%Z) counts ->
  exists suite pmf, ProcessSubject g counts s =
    Ok ((suite, pmf), (s + 300 * length counts)%nat) /\
    Species2_DistOfN suite = Ok pmf /\
    ns suite = seq (length counts) (3 * length counts / 2 - length counts) /\
    iterations suite = 300%nat.
Proof. exact (ProcessSubject_ok g Hg_len counts s). Qed.

(** ** Witnesses of the properties above *)

Section ReadDataWitnesses.
Import String.StringSyntax.
Local Open Scope string_scope.

Lemma ReadData_needs_wellformed_rows_witness :
  exists subs, ReadData (fun _ => Ok 1%Z) [["code"; "name"; "count"]; ["A"; "x"; "1"]] = Returns subs /\
  exists header body, [["code"; "name"; "count"]; ["A"; "x"; "1"]] = header :: body /\
    Forall (fun t => (3 <= length t)%nat /\ exists k, (fun _ => Ok 1%Z) (nth 2 t String.EmptyString) = (Ok k : result Z)) body.
Proof.
  eexists; split; [reflexivity|].
  eapply (ReadData_needs_wellformed_rows (fun _ => Ok 1%Z) [["code"; "name"; "count"]; ["A"; "x"; "1"]]).
  reflexivity.
Defined.

Lemma ReadData_codes_change_witness :
  exists subs, ReadData (fun _ => Ok 1%Z) [["code"; "name"; "count"]; ["A"; "x"; "1"]; ["B"; "y"; "1"]] = Returns subs /\
  codes_change String.EmptyString (map code subs).
Proof.
  eexists; split; [reflexivity|].
  eapply (ReadData_codes_change (fun _ => Ok 1%Z) [["code"; "name"; "count"]; ["A"; "x"; "1"]; ["B"; "y"; "1"]]).
  reflexivity.
Defined.

Lemma ReadData_sorted_but_last_witness :
  exists subs, ReadData (fun _ => Ok 1%Z) [["code"; "name"; "count"]; ["A"; "x"; "1"]; ["B"; "y"; "1"]] = Returns subs /\
  Forall (fun sb => Sorted (fun a b => (a <= b)%Z) (GetCounts sb)) (removelast subs).
Proof.
  eexists; split; [reflexivity|].
  eapply (ReadData_sorted_but_last (fun _ => Ok 1%Z) [["code"; "name"; "count"]; ["A"; "x"; "1"]; ["B"; "y"; "1"]]).
  reflexivity.
Defined.

Lemma ReadData_last_subject_file_order_witness :
  exists subs, ReadData (fun _ => Ok 1%Z) (["code"; "name"; "count"] :: [["A"; "x"; "1"]] ++ [["B"; "y"; "1"]]) = Returns subs /\
  exists subs', subs = subs' ++ [mkSubject "B" (combine [1%Z] (map row_name [["B"; "y"; "1"]]))].
Proof.
  eexists; split; [reflexivity|].
  eapply (ReadData_last_subject_file_order (fun _ => Ok 1%Z) ["code"; "name"; "count"] [["A"; "x"; "1"]] [["B"; "y"; "1"]] "B" [1%Z]).
  - reflexivity.
  - discriminate.
  - repeat constructor.
  - simpl. discriminate.
  - repeat constructor.
Defined.

Lemma ReadData_counts_preserved_witness :
  exists subs, ReadData (fun _ => Ok 1%Z) (["code"; "name"; "count"] :: [[""; "z"; "1"]] ++ [["A"; "x"; "1"]]) = Returns subs /\
  Permutation (flat_map GetCounts subs) [1%Z].
Proof.
  eexists; split; [reflexivity|].
  eapply (ReadData_counts_preserved (fun _ => Ok 1%Z) ["code"; "name"; "count"] [[""; "z"; "1"]] [["A"; "x"; "1"]]).
  - reflexivity.
  - repeat constructor.
  - intros t r E. injection E as <- _. simpl. discriminate.
  - repeat constructor.
Defined.

End ReadDataWitnesses.


Lemma OffsetCurve_spread_witness :
  (2 <= 2)%Z /\ (0 <= 0 <= 2 - 1)%Z /\ 0 <= 3 / 10 /\
  exists xoff yoff,
    OffsetCurve [(0, 0)] 0 2 (3 / 10) (3 / 10) = Returns (map (fun p => (fst p + xoff, snd p + yoff)) [(0, 0)]) /\
    - (3 / 10) <= xoff <= 3 / 10 /\ - (3 / 10) <= yoff <= 3 / 10 /\
    ((0 = 0)%Z -> xoff = - (3 / 10) /\ yoff = - (3 / 10)) /\ ((0 = 2 - 1)%Z -> xoff = 3 / 10 /\ yoff = 3 / 10).
Proof.
  split; [lia|]. split; [lia|]. split; [lra|].
  apply (OffsetCurve_spread [(0, 0)] 0 2 (3 / 10) (3 / 10)); first [lia | lra].
Defined.

Lemma PlotCurves_empty_curve_witness :
  le 2 (length ([[]; [(0, 0)]] : list (list (R * R)))) /\ In [] ([[]; [(0, 0)]] : list (list (R * R))) /\
  PlotCurves [[]; [(0, 0)]] = Raises (PyError ValueError).
Proof.
  split; [simpl; lia|]. split; [left; reflexivity|].
  apply PlotCurves_empty_curve; [simpl; lia | left; reflexivity].
Defined.

Lemma PlotCurves_series_witness :
  le 2 (length [[(0, 0)]; [(1, 1)]]) /\
  exists series, PlotCurves [[(0, 0)]; [(1, 1)]] = Returns series /\
    Forall2 (fun c sr => exists xo yo, - (3 / 10) <= xo <= 3 / 10 /\ - (3 / 10) <= yo <= 3 / 10 /\
               sr = (map (fun p => fst p + xo) c, map (fun p => snd p + yo) c)) [[(0, 0)]; [(1, 1)]] series.
Proof.
  split; [simpl; lia|].
  apply PlotCurves_series; [simpl; lia|].
  repeat constructor; discriminate.
Defined.

Lemma JitterCurve_bounded_witness :
  (forall k : nat, 0 <= (fun _ => 0) k < 1) /\
  exists out, JitterCurve (fun _ => 0) [(0, 0)] 1 1 O = Ok (out, (0 + 2 * 1)%nat) /\
    Forall2 (fun p q => Rabs (fst q - fst p) <= 1 /\ Rabs (snd q - snd p) <= 1) [(0, 0)] out.
Proof.
  split; [intro; lra|].
  apply (JitterCurve_bounded (fun _ => 0) (fun _ => conj (Rle_refl 0) Rlt_0_1) 1 1); lra.
Defined.

Lemma OversampledDirichlet_Random_simplex_witness :
  lt (length ([[]; []] : list table)) 3 /\
  exists ps, OversampledDirichlet_Random (fun _ _ => 0) (mkDirichlet 3 [1; 1; 1] true (Some [[]; []]) None) O
      = Ok (ps, 2%nat) /\
    length ps = 3%nat /\ np_sum ps = 1 /\
    ((forall (k : nat) (c : table), 0 <= (fun _ _ => 0) k c <= 1) -> Forall (fun x => 0 <= x) ps).
Proof.
  split; [simpl; lia|].
  apply (OversampledDirichlet_Random_simplex (fun _ _ => 0) (mkDirichlet 3 [1; 1; 1] true (Some [[]; []]) None) [[]; []]);
    [reflexivity | simpl; lia].
Defined.

Lemma OversampledDirichlet_Random_errors_witness :
  OversampledDirichlet_Random (fun _ _ => 0) (mkDirichlet 2 [1; 1] true None None) O = Err AttributeError /\
  OversampledDirichlet_Random (fun _ _ => 0) (mkDirichlet 0 [] true (Some [[]]) None) O = Err IndexError.
Proof.
  split.
  - apply (proj1 (OversampledDirichlet_Random_errors (fun _ _ => 0) (mkDirichlet 2 [1; 1] true None None) O)).
    reflexivity.
  - apply (proj2 (OversampledDirichlet_Random_errors (fun _ _ => 0) (mkDirichlet 0 [] true (Some [[]]) None) O) [[]]);
      [reflexivity | simpl; lia].
Defined.

Lemma MakeConditionals_stick_breaking_witness :
  lt 1 (length [1; 2; 3]) /\
  nth 0 (MakeConditionals [1; 2; 3]) (mkBeta 0 0) = mkBeta (nth 0 [1; 2; 3] 0) (np_sum (skipn 1 [1; 2; 3])).
Proof.
  split; [simpl; lia|].
  apply (proj2 (MakeConditionals_stick_breaking [1; 2; 3]) O). simpl; lia.
Defined.

Lemma Peek_then_Random_simplex_witness :
  exists d', Peek (fun _ _ => [(1 / 2, 1)]) (fun _ _ p => p / 100) (OversampledDirichlet_init 2) [1%Z] = Ok d' /\
  exists ps, OversampledDirichlet_Random (fun _ _ => 0) d' O = Ok (ps, (0 + (2 - 1))%nat) /\
    length ps = 2%nat /\ np_sum ps = 1.
Proof.
  destruct Peek_example as [d' Hd]. exists d'. split; [exact Hd|].
  apply (Peek_then_Random_simplex (fun _ _ => 0) (fun _ _ => [(1 / 2, 1)]) (fun _ _ p => p / 100)
           (OversampledDirichlet_init 2) [1%Z] d'); [reflexivity | simpl; lia | exact Hd].
Defined.

Local Open Scope R_scope.

Lemma Species2_Species3_Update_params_witness :
  exists st' s', Species2_Update (fun _ sh => sh) (mkSpecies2 [1%nat] [1] [1%Z] 1) [2%Z] O = Ok (st', s') /\
    ns st' = [1%nat] /\ iterations st' = 1%nat /\ length (params st') = 1%nat /\
    forallb in_int64 [2%Z] = true /\
    forall j, (j < 1)%nat -> nth j (params st') 0%Z =
      (if (j <? 1)%nat then i64_add (nth j [1%Z] 0%Z) (nth j [2%Z] 0%Z) else nth j [1%Z] 0%Z).
Proof.
  destruct (Species2_Update_ok (fun _ sh => sh) (fun _ _ => eq_refl) (mkSpecies2 [1%nat] [1] [1%Z] 1) [2%Z] O)
    as [p Hp]; [discriminate | simpl; intros n [<- | []]; lia | simpl; lia | reflexivity
               | constructor; [lia | constructor] | reflexivity |].
  do 2 eexists. split; [exact Hp|].
  eapply (Species2_Species3_Update_params (fun _ sh => sh) (mkSpecies2 [1%nat] [1] [1%Z] 1) [2%Z] O).
  left. exact Hp.
Defined.

Lemma Update_rejects_oversized_batch_witness :
  (exists e, Species2_Update (fun _ sh => sh) (mkSpecies2 [1%nat] [1] [1%Z] 1) [1%Z; 1%Z] O = Err e) /\
  (exists e, Species3_Update (fun _ sh => sh) (mkSpecies2 [1%nat] [1] [1%Z] 1) [1%Z; 1%Z] O = Err e) /\
  (exists e, Species5_Update (fun _ sh => sh) (mkSpecies2 [1%nat] [1] [1%Z] 1) [1%Z; 1%Z] O = Err e).
Proof.
  destruct (Update_rejects_oversized_batch (fun _ sh => sh) (mkSpecies2 [1%nat] [1] [1%Z] 1) [1%Z; 1%Z] O)
    as (A & B & C).
  split; [apply A | split; [apply B | apply C]]; simpl; lia.
Defined.

Lemma Species5_Update_params_witness :
  exists st' s', Species5_Update (fun _ sh => sh) (mkSpecies2 [1%nat] [1] [1%Z] 1) [2%Z] O = Ok (st', s') /\
    ns st' = [1%nat] /\ iterations st' = 1%nat /\ length (params st') = 1%nat /\
    forallb in_int64 [2%Z] = true /\
    forall j, (j < 1)%nat -> nth j (params st') 0%Z =
      (if (j <? 1)%nat then i64_add (nth j [1%Z] 0%Z) (nth j [2%Z] 0%Z) else nth j [1%Z] 0%Z).
Proof.
  destruct (Species5_loop_ok (fun _ sh => sh) (fun _ _ => eq_refl) 1 [2%Z] 0 (mkSpecies2 [1%nat] [1] [1%Z] 1) O)
    as [st' [E _]]; [reflexivity | simpl; lia | reflexivity | reflexivity | simpl; lia
                    | constructor; [lia | constructor]
                    | intros j Hj; simpl in Hj; destruct j as [|j]; [reflexivity | lia]
                    | constructor; [lia | constructor] |].
  do 2 eexists. split; [exact E|].
  eapply (Species5_Update_params (fun _ sh => sh) (mkSpecies2 [1%nat] [1] [1%Z] 1) [2%Z] O).
  exact E.
Defined.

Lemma Species3_matches_Species2_on_ranges_witness :
  ns (mkSpecies2 [1%nat; 2%nat] [1; 1] [1%Z; 1%Z] 1000) = seq 1 2 /\
  (forall data s, Species3_SampleLikelihood (fun _ sh => sh) (mkSpecies2 [1%nat; 2%nat] [1; 1] [1%Z; 1%Z] 1000) data s
                  = Species2_SampleLikelihood (fun _ sh => sh) (mkSpecies2 [1%nat; 2%nat] [1; 1] [1%Z; 1%Z] 1000) data s) /\
  (forall data s, Species3_Update (fun _ sh => sh) (mkSpecies2 [1%nat; 2%nat] [1; 1] [1%Z; 1%Z] 1000) data s
                  = Species2_Update (fun _ sh => sh) (mkSpecies2 [1%nat; 2%nat] [1; 1] [1%Z; 1%Z] 1000) data s).
Proof.
  destruct (Species3_matches_Species2_on_ranges (fun _ sh => sh) (fun _ _ => eq_refl)
              (mkSpecies2 [1%nat; 2%nat] [1; 1] [1%Z; 1%Z] 1000) 1 2) as [A B];
    [reflexivity | lia | lia | reflexivity |].
  split; [reflexivity|]. split; [exact A | apply B; reflexivity].
Defined.

Lemma Species3_Species5_reject_gapped_ranges_witness :
  (exists e, Species3_Update (fun _ sh => sh) (mkSpecies2 [1%nat; 3%nat] [1; 1] [1%Z; 1%Z; 1%Z] 1) [1%Z] O = Err e) /\
  (exists e, Species5_Update (fun _ sh => sh) (mkSpecies2 [1%nat; 3%nat] [1; 1] [1%Z; 1%Z; 1%Z] 1) [1%Z] O = Err e).
Proof.
  destruct (Species3_Species5_reject_gapped_ranges (fun _ sh => sh) (fun _ _ => eq_refl)
              (mkSpecies2 [1%nat; 3%nat] [1; 1] [1%Z; 1%Z; 1%Z] 1) 1 [1%Z] O) as [A B];
    [reflexivity | simpl; lia | simpl; lia | simpl; lia | simpl; lia |].
  split; [exact A | apply B; discriminate].
Defined.

Lemma Species2_DistOfPrevalence_mixture_witness :
  exists mix, Species2_DistOfPrevalence (fun _ _ => [(1 / 2, 1)]) (mkSpecies2 [1%nat] [1] [1%Z] 1) 0 = Ok mix /\
  exists beta_of : nat -> Beta,
    (forall n, Species2_MarginalBeta (mkSpecies2 [1%nat] [1] [1%Z] 1) n 0 = Ok (beta_of n)) /\
    (forall x, mass_at mix x = np_sum (map (fun np => snd np * mass_at [(1 / 2, 1)] x) (combine [1%nat] [1]))) /\
    np_sum (map snd mix) = np_sum (map (fun np => snd np * np_sum (map snd [(1 / 2, 1)])) (combine [1%nat] [1])).
Proof.
  eexists. split; [reflexivity|].
  eapply (Species2_DistOfPrevalence_mixture (fun _ _ => [(1 / 2, 1)]) (mkSpecies2 [1%nat] [1] [1%Z] 1) 0);
    [discriminate | reflexivity | reflexivity].
Defined.

Lemma Species2_DistOfPrevalence_bad_index_witness :
  Species2_DistOfPrevalence (fun _ _ => [(1 / 2, 1)]) (mkSpecies2 [1%nat] [1] [1%Z] 1) 5 = Err IndexError.
Proof.
  apply Species2_DistOfPrevalence_bad_index; [discriminate | reflexivity | simpl; lia].
Defined.

Lemma Species4_Update_inner_params_witness :
  exists st' s', Species4_Update (fun _ sh => sh) (fun _ _ => 0)
      (mkSpecies CSpecies4 [(Dirichlet_init 1, 1)] (Some 1%nat)) [1%Z] O = Ok (st', s') /\
    sp_class st' = CSpecies4 /\ sp_iterations st' = Some 1%nat /\
    map (fun hp => d_n (fst hp)) (sp_hypos st') = [1%nat] /\
    map (fun hp => d_params (fst hp)) (sp_hypos st') = [add_counts [1] [1%Z]].
Proof.
  assert (E : exists st' s', Species4_Update (fun _ sh => sh) (fun _ _ => 0)
      (mkSpecies CSpecies4 [(Dirichlet_init 1, 1)] (Some 1%nat)) [1%Z] O = Ok (st', s')).
  { do 2 eexists.
    unfold Species4_Update, Species4_loop, Species_Update, Suite_Update, Pmf_Normalize.
    cbv - [Rplus Rmult Rdiv Rminus Rinv IZR Req_dec_T INR pow Rlt_dec].
    destruct (Rlt_dec 0 1) as [_|F]; [|exfalso; lra].
    cbv - [Rplus Rmult Rdiv Rminus Rinv IZR Req_dec_T INR pow Rlt_dec].
    destruct (Req_dec_T _ 0) as [Z0|_]; [exfalso; simpl in Z0; field_simplify in Z0; lra | reflexivity]. }
  destruct E as (st' & s' & E). exists st', s'. split; [exact E|].
  apply (Species4_Update_inner_params (fun _ sh => sh) (fun _ _ => 0)
           (mkSpecies CSpecies4 [(Dirichlet_init 1, 1)] (Some 1%nat)) [1%Z] O st' s');
    [constructor; [simpl; lia | constructor] | exact E].
Defined.

Lemma ProcessSubject_too_few_counts_witness :
  lt (length [1%Z]) 2 /\ ProcessSubject (fun _ sh => sh) [1%Z] O = Err IndexError.
Proof.
  split; [simpl; lia|]. apply ProcessSubject_too_few_counts. simpl; lia.
Defined.

Lemma ProcessSubject_posterior_witness :
  exists suite pmf s', ProcessSubject (fun _ sh => sh) [1%Z; 1%Z] O = Ok ((suite, pmf), s') /\
    le 2 (length [1%Z; 1%Z]) /\ map fst pmf = seq 2 1 /\
    weights_sum pmf = 1 /\ Forall (fun np => 0 < snd np) pmf.
Proof.
  destruct (ProcessSubject_ok (fun _ sh => sh) (fun _ _ => eq_refl) [1%Z; 1%Z] O) as [suite [pmf [E _]]];
    [simpl; lia | repeat constructor; lia |].
  do 3 eexists. split; [exact E|].
  eapply (ProcessSubject_posterior (fun _ sh => sh) [1%Z; 1%Z] O suite pmf).
  exact E.
Defined.

Lemma ProcessSubject_returns_witness :
  (forall (s : nat) (sh : list R), length ((fun _ sh => sh) s sh) = length sh) /\
  le 2 (length [1%Z; 1%Z]) /\ Forall (fun c => (0 <= c < 2 ^ 63 - 1)%Z) [1%Z; 1%Z] /\
  exists suite pmf, ProcessSubject (fun _ sh => sh) [1%Z; 1%Z] O =
    Ok ((suite, pmf), (0 + 300 * 2)%nat) /\
    Species2_DistOfN suite = Ok pmf /\
    ns suite = seq 2 1 /\ iterations suite = 300%nat.
Proof.
  split; [reflexivity|]. split; [simpl; lia|]. split; [repeat constructor; lia|].
  apply (ProcessSubject_returns (fun _ sh => sh) (fun _ _ => eq_refl) [1%Z; 1%Z] O);
    [simpl; lia | repeat constructor; lia].
Defined.
